(** * python-readability: the content-scoring and sanitization pipeline

    A shallow embedding of [readability/readability.py]: text utilities
    ([clean], [text_length]), the class/id weights, the candidate scorer,
    the best-candidate selector, the conditional cleaning step of the
    sanitizer, the meta collector and the retry loop of [summary].

    Conventions.
    - A Python [str] is a [list ascii]; the model covers the ASCII range, so
      [lower()], [\s] and [strip()] are their ASCII restrictions.
    - lxml elements are trees carrying a unique identifier ([uid]); Python's
      object identity (dict keys, [is]) is equality of identifiers.
    - Scores are rationals ([Q]): Python 3 true division, without the
      rounding of binary floating point.
    - Code that may raise returns a sum type ([exc]). *)

From Stdlib Require Import Ascii String List ZArith QArith Qminmax Lia Bool Arith.
From stdpp Require Import base option list gmap strings.
Import ListNotations.

Local Open Scope nat_scope.
Local Open Scope list_scope.

(** ** Python strings *)

Module Py.

Definition str := list ascii.

(** String literals of the source. *)
Definition lit (s : string) : str := list_ascii_of_string s.

Definition code (c : ascii) : nat := nat_of_ascii c.

Definition ch (n : nat) : ascii := ascii_of_nat n.

Definition chr_eqb (a b : ascii) : bool := Ascii.eqb a b.

(** [str.isspace] on one character, which is also what [\s] matches in a
    [str] pattern: TAB, LF, VT, FF, CR, FS, GS, RS, US and space. *)
Definition is_space (c : ascii) : bool :=
  let n := code c in
  ((9 <=? n) && (n <=? 13)) || ((28 <=? n) && (n <=? 32)).

(** The character class [[ \t]]. *)
Definition is_blank (c : ascii) : bool :=
  let n := code c in (n =? 32) || (n =? 9).

Definition is_nl (c : ascii) : bool := code c =? 10.

Definition nl : ascii := ch 10.

Definition sp : ascii := ch 32.

(** [c.lower()] for one ASCII character. *)
Definition lower_chr (c : ascii) : ascii :=
  let n := code c in
  if (65 <=? n) && (n <=? 90) then ch (n + 32) else c.

(** [s.lower()] *)
Definition lower (s : str) : str := map lower_chr s.

Fixpoint str_eqb (a b : str) : bool :=
  match a, b with
  | [], [] => true
  | x :: a', y :: b' => chr_eqb x y && str_eqb a' b'
  | _, _ => false
  end.

(** [s.startswith(p)] *)
Fixpoint startswith (s p : str) : bool :=
  match p, s with
  | [], _ => true
  | x :: p', y :: s' => chr_eqb x y && startswith s' p'
  | _ :: _, [] => false
  end.

(** [s.endswith(p)] *)
Definition endswith (s p : str) : bool := startswith (rev s) (rev p).

(** [s.lstrip()], [s.rstrip()] and [s.strip()] without argument. *)
Fixpoint lstrip (s : str) : str :=
  match s with
  | c :: r => if is_space c then lstrip r else s
  | [] => []
  end.

Definition rstrip (s : str) : str := rev (lstrip (rev s)).

Definition strip (s : str) : str := rstrip (lstrip s).

(** [s.count(c)] for a one-character needle. *)
Fixpoint count_chr (c : ascii) (s : str) : nat :=
  match s with
  | [] => 0
  | x :: r => (if chr_eqb x c then 1 else 0) + count_chr c r
  end.

(** [len(s.split(c))] for a one-character separator: one piece more than
    there are separators. *)
Definition split_len (c : ascii) (s : str) : nat := S (count_chr c s).

(** [s.find(c)] for a one-character needle; [None] stands for -1. *)
Fixpoint find_chr (c : ascii) (s : str) : option nat :=
  match s with
  | [] => None
  | x :: r => if chr_eqb x c then Some 0 else S <$> find_chr c r
  end.

End Py.

Import Py.

(** ** Regular expressions

    The patterns of the source are matched by a backtracking matcher in
    continuation style.  A matcher takes the rest of the subject and gives
    the number of characters the match consumes. *)

Module Re.

Definition matcher := str -> option nat.

(** End of the pattern. *)
Definition accept : matcher := fun _ => Some 0.

(** One character of a class, then [k]. *)
Definition one (p : ascii -> bool) (k : matcher) : matcher :=
  fun s =>
    match s with
    | c :: r => if p c then S <$> k r else None
    | [] => None
    end.

(** Greedy [p*] then [k]: take one more character when the rest still
    matches, give it back otherwise. *)
Fixpoint star (p : ascii -> bool) (k : matcher) (s : str) : option nat :=
  match s with
  | c :: r =>
      if p c then
        match star p k r with
        | Some n => Some (S n)
        | None => k s
        end
      else k s
  | [] => k []
  end.

(** Lazy [p*?] then [k]: try [k] first, take a character only if it fails. *)
Fixpoint lazy_star (p : ascii -> bool) (k : matcher) (s : str) : option nat :=
  match k s with
  | Some n => Some n
  | None =>
      match s with
      | c :: r => if p c then S <$> lazy_star p k r else None
      | [] => None
      end
  end.

(** [re.sub(pattern, repl, s)] for a pattern that matches no empty string:
    scan from the left; at a match emit [repl] and skip the matched
    characters ([skip] counts those still to pass over), else copy one
    character. *)
Fixpoint sub_from (m : matcher) (repl : str) (skip : nat) (s : str) : str :=
  match s with
  | [] => []
  | c :: r =>
      match skip with
      | S k => sub_from m repl k r
      | O =>
          match m s with
          | Some (S n) => repl ++ sub_from m repl n r
          | _ => c :: sub_from m repl 0 r
          end
      end
  end.

Definition sub (m : matcher) (repl : str) (s : str) : str := sub_from m repl 0 s.

(** [\s*\n\s*] *)
Definition newline_run : matcher := star is_space (one is_nl (star is_space accept)).

(** [[ \t]{2,}] *)
Definition blank_run : matcher := one is_blank (one is_blank (star is_blank accept)).

(** [<.*?>]; the dot matches anything but a newline. *)
Definition tag_like : matcher :=
  one (fun c => code c =? 60)
      (lazy_star (fun c => negb (is_nl c)) (one (fun c => code c =? 62) accept)).

End Re.

(** ** Text utilities *)

(** [clean(text)], lines 86-89. *)
Definition clean (text : str) : str :=
  let text := Re.sub Re.newline_run [nl] text in
  let text := Re.sub Re.blank_run [sp] text in
  strip text.

(** Helpers for statements about [clean]. *)

(** Length of the longest prefix whose characters satisfy [p]. *)
Fixpoint run_len (p : ascii -> bool) (s : str) : nat :=
  match s with
  | c :: r => if p c then S (run_len p r) else 0
  | [] => 0
  end.

(** The whitespace run at the head of [s] contains a newline. *)
Fixpoint run_has_nl (s : str) : bool :=
  match s with
  | c :: r => is_space c && (is_nl c || run_has_nl r)
  | [] => false
  end.

(** [s] begins with two characters of [[ \t]]. *)
Definition two_blanks (s : str) : bool :=
  match s with
  | a :: b :: _ => is_blank a && is_blank b
  | _ => false
  end.

(** Every two neighbours of [s] are related by [R]. *)
Fixpoint chain (R : ascii -> ascii -> Prop) (s : str) : Prop :=
  match s with
  | a :: t => match t with b :: _ => R a b | [] => True end /\ chain R t
  | [] => True
  end.

(** No newline has a whitespace neighbour. *)
Definition nl_isolated : str -> Prop :=
  chain (fun a b => (is_nl a = true -> is_space b = false)
                    /\ (is_nl b = true -> is_space a = false)).

(** No two characters of [[ \t]] are neighbours. *)
Definition blank_single : str -> Prop :=
  chain (fun a b => is_blank a && is_blank b = false).

(** Neither end of [s] is whitespace. *)
Definition trimmed (s : str) : Prop := lstrip s = s /\ lstrip (rev s) = rev s.

(** [s] with its leading characters of [[ \t]] removed. *)
Fixpoint drop_blanks (s : str) : str :=
  match s with
  | c :: r => if is_blank c then drop_blanks r else s
  | [] => []
  end.

(** The two substitutions of [clean], before the final [strip]. *)
Definition collapse (s : str) : str :=
  Re.sub Re.blank_run [sp] (Re.sub Re.newline_run [nl] s).

(** [s] holds whitespace only. *)
Definition blank_only (s : str) : Prop := forallb is_space s = true.

(** ** Alternations of literals

    The class/id patterns are alternations of literal words compiled with
    [re.I].  At a position the alternatives are tried from left to right and
    the first one that fits is the match. *)

Module Alt.

(** The words of a pattern [w1|w2|...]. *)
Fixpoint words_from (cur : str) (p : str) : list str :=
  match p with
  | [] => [rev cur]
  | c :: r => if code c =? 124 then rev cur :: words_from [] r
              else words_from (c :: cur) r
  end.

Definition words (pattern : string) : list str := words_from [] (lit pattern).

(** The first word that is a prefix of the subject, letter case ignored;
    the words of the source are all lower case. *)
Fixpoint first_word (ws : list str) (s : str) : option nat :=
  match ws with
  | [] => None
  | w :: r => if startswith (lower s) w then Some (length w) else first_word r s
  end.

Definition compile (pattern : string) : Re.matcher := first_word (words pattern).

(** [len(pattern.findall(s))]: the matches found scanning from the left,
    none overlapping another. *)
Fixpoint count_from (m : Re.matcher) (skip : nat) (s : str) : nat :=
  match s with
  | [] => 0
  | _ :: r =>
      match skip with
      | S k => count_from m k r
      | O =>
          match m s with
          | Some (S n) => S (count_from m n r)
          | _ => count_from m 0 r
          end
      end
  end.

Definition findall_len (m : Re.matcher) (s : str) : nat := count_from m 0 s.

(** [pattern.search(s)] as a truth value. *)
Definition search (m : Re.matcher) (s : str) : bool := 0 <? findall_len m s.

End Alt.

(** [REGEXES], lines 26-40: the two patterns of [class_weight]. *)
Definition positiveRe : Re.matcher :=
  Alt.compile "econtextmax|and|article|body|column|content|main|shadow|product|feature|detail|spec|about|itemprop|text|story|story-content".

Definition negativeRe : Re.matcher :=
  Alt.compile "ad|ad-break|agegate|cart|citation|combx|comment|community|disclaimer|disqus|extra|feedback|foot|form|fulfillment|header|hidden|item|legal|menu|modal|nav|pager|pagination|placeholder|polic|popup|qa|question|reference|remark|return|review|rss|shoutbox|sidebar|slideshow|small|sponsor|toc|tweet|twitter|video|warranty".

(** ** The document tree

    An lxml element: tag, attributes, the text before the first child, the
    children, and the text after the closing tag ([tail]).  [uid] stands for
    the identity of the Python object. *)

#[warnings="-register-all"]
Inductive elem : Type :=
  Elem (uid : nat) (tag : str) (attrib : list (str * str))
       (text : str) (children : list elem) (tail : str).

Definition uid (e : elem) : nat := let 'Elem i _ _ _ _ _ := e in i.
Definition tag (e : elem) : str := let 'Elem _ t _ _ _ _ := e in t.
Definition attrib (e : elem) : list (str * str) := let 'Elem _ _ a _ _ _ := e in a.
Definition text (e : elem) : str := let 'Elem _ _ _ x _ _ := e in x.
Definition children (e : elem) : list elem := let 'Elem _ _ _ _ c _ := e in c.
Definition tail (e : elem) : str := let 'Elem _ _ _ _ _ t := e in t.

Definition set_tail (e : elem) (t : str) : elem :=
  let 'Elem i g a x c _ := e in Elem i g a x c t.

(** [e.get(name)] / [e.attrib.get(name)]; [None] is Python's [None]. *)
Fixpoint assoc (name : str) (a : list (str * str)) : option str :=
  match a with
  | [] => None
  | (k, v) :: r => if str_eqb k name then Some v else assoc name r
  end.

Definition get (e : elem) (name : string) : option str := assoc (lit name) (attrib e).

Definition has_tag (name : string) (e : elem) : bool := str_eqb (tag e) (lit name).

(** [e.text_content()]: every text of the subtree in document order, the
    tail of [e] itself excluded. *)
Fixpoint text_content (e : elem) : str :=
  let 'Elem _ _ _ x c _ := e in
  x ++ flat_map (fun k => text_content k ++ tail k) c.

(** The proper descendants of [e] in document order. *)
Fixpoint descendants (e : elem) : list elem :=
  let 'Elem _ _ _ _ c _ := e in
  flat_map (fun k => k :: descendants k) c.

(** [e.iter()] *)
Definition iter (e : elem) : list elem := e :: descendants e.

(** [e.findall('.//name')] *)
Definition findall (e : elem) (name : string) : list elem :=
  filter (fun d => has_tag name d = true) (descendants e).

(** [self.tags(node, *tag_names)], lines 504-507. *)
Definition tags (node : elem) (tag_names : list string) : list elem :=
  flat_map (findall node) tag_names.

(** The element of the tree that has identifier [u]. *)
Definition lookup_uid (root : elem) (u : nat) : option elem :=
  List.find (fun d => uid d =? u) (iter root).

(** [getparent()] of the element with identifier [u] in the tree [root]. *)
Fixpoint parent_in (root : elem) (u : nat) : option elem :=
  let 'Elem _ _ _ _ c _ := root in
  if existsb (fun k => uid k =? u) c then Some root
  else (fix first (l : list elem) : option elem :=
          match l with
          | [] => None
          | k :: r => match parent_in k u with
                      | Some p => Some p
                      | None => first r
                      end
          end) c.

(** Identifiers are unique in the tree. *)
Definition wf (root : elem) : Prop := NoDup (map uid (iter root)).

(** [text_length(i)], lines 92-93. *)
Definition text_length (i : elem) : nat := length (clean (text_content i)).

(** [get_link_density], lines 346-353; the quotient is an exact rational
    where Python rounds to a float. *)
Definition link_length (e : elem) : nat :=
  fold_left (fun link_length i => link_length + text_length i) (findall e "a") 0.

Definition get_link_density (e : elem) : Q :=
  let total_length := text_length e in
  Z.of_nat (link_length e) # Pos.of_nat (Nat.max total_length 1).

(** Lines 407-413 for the class, 415-421 for the id: the part of
    [class_weight] one attribute adds to [weight]. *)
Definition attr_weight (weight : Z) (v : option str) : Z :=
  match v with
  | Some ((_ :: _) as s) =>
      let weight :=
        if Alt.search negativeRe s
        then (weight - 35 * Z.of_nat (Alt.findall_len negativeRe s))%Z
        else weight in
      let weight :=
        if Alt.search positiveRe s
        then (weight + 25 * Z.of_nat (Alt.findall_len positiveRe s))%Z
        else weight in
      weight
  | _ => weight
  end.

(** [class_weight], lines 405-423. *)
Definition class_weight (e : elem) : Z :=
  let weight := 0%Z in
  let weight := attr_weight weight (get e "class") in
  let weight := attr_weight weight (get e "id") in
  weight.

(** The sum of [text_length] over a list of elements. *)
Definition sum_text (l : list elem) : nat :=
  fold_right (fun i n => text_length i + n) 0 l.

(** No [<a>] below [e] has an [<a>] below itself. *)
Definition no_nested_links (e : elem) : bool :=
  forallb (fun d => negb (has_tag "a" d)
                    || match findall d "a" with [] => true | _ => false end)
          (descendants e).

(** [<div><a>x<b><a>yy</a></b></a></div>]: a link inside a link. *)
Definition div_nested_links : elem :=
  Elem 0 (lit "div") [] [] [
    Elem 1 (lit "a") [] (lit "x") [
      Elem 2 (lit "b") [] [] [ Elem 3 (lit "a") [] (lit "yy") [] [] ] []
    ] []
  ] [].

(** [<div>see <a>this page</a> for more</div>] *)
Definition div_one_link : elem :=
  Elem 0 (lit "div") [] (lit "see ") [
    Elem 1 (lit "a") [] (lit "this page") [] (lit " for more")
  ] [].

(** ** Candidates

    [candidates] is a Python dict keyed by elements.  It is modelled as an
    association list keyed by identifiers that keeps insertion order, which
    is the order [candidates.values()] iterates in. *)

Module Dict.
Section Dict.
Context {V : Type}.

Definition t := list (nat * V).

Fixpoint get (k : nat) (d : t) : option V :=
  match d with
  | [] => None
  | (k', v) :: r => if k' =? k then Some v else get k r
  end.

(** [k in d] *)
Definition mem (k : nat) (d : t) : bool :=
  match get k d with Some _ => true | None => false end.

(** [d[k] = v]: an existing key keeps its place, a new one goes last. *)
Fixpoint set (k : nat) (v : V) (d : t) : t :=
  match d with
  | [] => [(k, v)]
  | (k', v') :: r => if k' =? k then (k, v) :: r else (k', v') :: set k v r
  end.

(** [d.values()] *)
Definition values (d : t) : list V := map snd d.

End Dict.
Arguments t : clear implicits.
End Dict.

(** The dict [{'content_score': ..., 'elem': ...}]. *)
Record candidate := { content_score : Q; cand_elem : elem }.

Abbreviation candidates := (Dict.t candidate).

Definition tag_in (e : elem) (names : list string) : bool :=
  existsb (fun n => str_eqb (lower (tag e)) (lit n)) names.

(** [score_node], lines 425-439. *)
Definition score_node (e : elem) : candidate :=
  let content_score := class_weight e in
  let content_score :=
    if tag_in e ["div"] then (content_score + 5)%Z
    else if tag_in e ["pre"; "td"; "blockquote"] then (content_score + 3)%Z
    else if tag_in e ["address"; "ol"; "ul"; "dl"; "dd"; "dt"; "li"; "form"]
         then (content_score - 3)%Z
    else if tag_in e ["h1"; "h2"; "h3"; "h4"; "h5"; "h6"; "th"]
         then (content_score - 5)%Z
    else content_score in
  {| content_score := inject_Z content_score; cand_elem := e |}.

Definition comma : ascii := ch 44.

(** Lines 382-384: the score of one paragraph with cleaned text
    [inner_text]. *)
Definition paragraph_score (inner_text : str) : Q :=
  let inner_text_len := length inner_text in
  let content_score := 1%Q in
  let content_score :=
    (content_score + inject_Z (Z.of_nat (split_len comma inner_text)))%Q in
  (content_score + Qmin (Z.of_nat inner_text_len # 100) 3)%Q.

(** [candidates[k]['content_score'] += x]; the key is present wherever the
    scorer does this. *)
Definition add_score (k : nat) (x : Q) (cs : candidates) : candidates :=
  match Dict.get k cs with
  | Some c => Dict.set k {| content_score := (content_score c + x)%Q;
                            cand_elem := cand_elem c |} cs
  | None => cs
  end.

(** Lines 373-380: give a node its entry on first sight. *)
Definition ensure (n : elem) (st : candidates * list elem) : candidates * list elem :=
  let '(cs, ordered) := st in
  if Dict.mem (uid n) cs then st
  else (Dict.set (uid n) (score_node n) cs, ordered ++ [n]).

(** The body of the first loop of [score_paragraphs], lines 359-391. *)
Definition score_paragraph (root : elem) (MIN_LEN : nat)
    (st : candidates * list elem) (el : elem) : candidates * list elem :=
  match parent_in root (uid el) with
  | None => st
  | Some parent_node =>
      let grand_parent_node := parent_in root (uid parent_node) in
      let inner_text := clean (text_content el) in
      let inner_text_len := length inner_text in
      if inner_text_len <? MIN_LEN then st
      else
        let st := ensure parent_node st in
        let st := match grand_parent_node with
                  | Some g => ensure g st
                  | None => st
                  end in
        let '(cs, ordered) := st in
        let content_score := paragraph_score inner_text in
        let cs := add_score (uid parent_node) content_score cs in
        let cs := match grand_parent_node with
                  | Some g => add_score (uid g) (content_score / 2)%Q cs
                  | None => cs
                  end in
        (cs, ordered)
  end.

(** The second loop, lines 396-401. *)
Definition scale_by_link_density (cs : candidates) (e : elem) : candidates :=
  match Dict.get (uid e) cs with
  | Some c =>
      let ld := get_link_density e in
      Dict.set (uid e) {| content_score := (content_score c * (1 - ld))%Q;
                          cand_elem := cand_elem c |} cs
  | None => cs
  end.

(** [score_paragraphs], lines 355-403. *)
Definition score_paragraphs (root : elem) (MIN_LEN : nat) : candidates :=
  let '(cs, ordered) :=
    fold_left (score_paragraph root MIN_LEN) (tags root ["p"; "pre"; "td"]) ([], []) in
  fold_left scale_by_link_density ordered cs.

(** ** The best candidate *)

Definition Qltb (a b : Q) : bool := negb (Qle_bool b a).

(** [sorted(..., key=content_score, reverse=True)]: Python's sort is stable,
    also with [reverse=True], so equal scores keep their order.  An element
    is put into the sorted rest of the list, in front of the first one that
    does not beat it. *)
Fixpoint insert_desc (c : candidate) (l : list candidate) : list candidate :=
  match l with
  | [] => [c]
  | d :: r => if Qle_bool (content_score d) (content_score c) then c :: l
              else d :: insert_desc c r
  end.

Definition sorted_desc (l : list candidate) : list candidate :=
  fold_right insert_desc [] l.

(** [select_best_candidate], lines 334-344. *)
Definition select_best_candidate (cs : candidates) : option candidate :=
  let sorted_candidates := sorted_desc (Dict.values cs) in
  match sorted_candidates with
  | [] => None
  | best_candidate :: _ => Some best_candidate
  end.

(** The score a node has before a paragraph is counted: its entry, or the
    seed a new entry would get. *)
Definition score_before (n : elem) (cs : candidates) : Q :=
  match Dict.get (uid n) cs with
  | Some c => content_score c
  | None => content_score (score_node n)
  end.

(** The per-paragraph score in the words of the specification:
    [1 + count(',' in inner) + min(len(inner)/100, 3)]. *)
Definition spec_content_score (inner : str) : Q :=
  (1 + inject_Z (Z.of_nat (count_chr comma inner))
     + Qmin (Z.of_nat (length inner) # 100) 3)%Q.

(** [<html><body><div><p>twenty-five letters</p></div></body></html>] *)
Definition p_one : elem :=
  Elem 3 (lit "p") [] (lit "abcdefghijklmnopqrstuvwxy") [] [].

Definition div_one : elem := Elem 2 (lit "div") [] [] [p_one] [].

Definition body_one : elem := Elem 1 (lit "body") [] [] [div_one] [].

Definition doc_one_paragraph : elem := Elem 0 (lit "html") [] [] [body_one] [].

(** The first candidate among those of the highest score. *)
Fixpoint first_max (l : list candidate) : option candidate :=
  match l with
  | [] => None
  | c :: r =>
      match first_max r with
      | None => Some c
      | Some b => if Qle_bool (content_score b) (content_score c) then Some c
                  else Some b
      end
  end.

(** ** The sanitizer: conditional cleaning of tables, lists and divs *)

(** [drop_tree()] of lxml.html: the element leaves its parent with its
    subtree; its tail text joins the tail of the sibling before it, or the
    text of the parent when it was the first child. *)
Fixpoint remove_after (u : nat) (prev : elem) (l : list elem) : list elem :=
  match l with
  | [] => [prev]
  | k :: r => if uid k =? u then set_tail prev (tail prev ++ tail k) :: r
              else prev :: remove_after u k r
  end.

Definition remove_child (u : nat) (x : str) (c : list elem) : str * list elem :=
  match c with
  | [] => (x, [])
  | k :: r => if uid k =? u then (x ++ tail k, r) else (x, remove_after u k r)
  end.

Fixpoint drop_tree (u : nat) (e : elem) : elem :=
  let 'Elem i t a x c tl := e in
  let '(x', c') := remove_child u x (map (drop_tree u) c) in
  Elem i t a x' c' tl.

(** The children of a parent around the child [u]: those before it, nearest
    first, and those after it. *)
Fixpoint split_at (u : nat) (before : list elem) (l : list elem)
    : option (list elem * list elem) :=
  match l with
  | [] => None
  | k :: r => if uid k =? u then Some (before, r) else split_at u (k :: before) r
  end.

Definition around (root : elem) (u : nat) : list elem * list elem :=
  match parent_in root u with
  | Some p => match split_at u [] (children p) with
              | Some ba => ba
              | None => ([], [])
              end
  | None => ([], [])
  end.

(** [el.itersiblings()] *)
Definition itersiblings (root : elem) (u : nat) : list elem := snd (around root u).

(** [el.itersiblings(preceding=True)] *)
Definition itersiblings_preceding (root : elem) (u : nat) : list elem :=
  fst (around root u).

(** Lines 618-625 and 626-633: one of the two sibling loops.  [i =+ 1]
    assigns [+1] to the counter. *)
Fixpoint scan_siblings (x i : nat) (siblings : list nat) (sibs : list elem)
    : list nat :=
  match sibs with
  | [] => siblings
  | sib :: rest =>
      let sib_content_length := text_length sib in
      if 0 <? sib_content_length then
        let i := 1 in
        let siblings := siblings ++ [sib_content_length] in
        if i =? x then siblings else scan_siblings x i siblings rest
      else scan_siblings x i siblings rest
  end.

(** Lines 615-633. *)
Definition sibling_lengths (root : elem) (u : nat) : list nat :=
  let x := 1 in
  let siblings := [] in
  let siblings := scan_siblings x 0 siblings (itersiblings root u) in
  scan_siblings x 0 siblings (itersiblings_preceding root u).

(** The [reason] strings of lines 572-594. *)
Inductive reason : Type :=
  | too_many_images
  | more_li_than_p
  | too_many_inputs
  | too_short
  | too_many_links
  | too_many_embeds.

Definition count_of (el : elem) (kind : string) : Z :=
  Z.of_nat (length (findall el kind)).

(** The chain of tests of lines 572-592: the first that holds gives the
    reason. *)
Definition removal_reason (MIN_LEN : nat) (el : elem) (weight : Z) : option reason :=
  let p := count_of el "p" in
  let img := count_of el "img" in
  let li := (count_of el "li" - 100)%Z in
  let embed := count_of el "embed" in
  let input := count_of el "input" in
  let content_length := text_length el in
  let link_density := get_link_density el in
  if negb (p =? 0)%Z && (img >? p)%Z then Some too_many_images
  else if (li >? p)%Z && negb (has_tag "ul" el) && negb (has_tag "ol" el)
       then Some more_li_than_p
  else if Qltb (p # 3) (inject_Z input) then Some too_many_inputs
  else if (content_length <? MIN_LEN) && ((img =? 0)%Z || (img >? 2)%Z)
       then Some too_short
  else if (weight <? 25)%Z && Qltb (2 # 10) link_density then Some too_many_links
  else if (weight >=? 25)%Z && Qltb (5 # 10) link_density then Some too_many_links
  else if ((embed =? 1)%Z && (content_length <? 75)) || (embed >? 1)%Z
       then Some too_many_embeds
  else None.

(** Lines 567-639: [to_remove] and the new [allowed].  The sibling loops are
    part of the last branch of the chain. *)
Definition judge (MIN_LEN : nat) (root el : elem) (weight : Z)
    (allowed : gset nat) : bool * gset nat :=
  match removal_reason MIN_LEN el weight with
  | None => (false, allowed)
  | Some too_many_embeds =>
      let siblings := sibling_lengths root (uid el) in
      if negb (length siblings =? 0) && (1000 <? list_sum siblings)
      then (false,
            allowed ∪ list_to_set (map uid (tags el ["table"; "ul"; "div"])))
      else (true, allowed)
  | Some _ => (true, allowed)
  end.

(** Lines 534-538: the score of [el] if it is a candidate, else 0. *)
Definition candidate_score (cs : candidates) (u : nat) : Q :=
  match Dict.get u cs with
  | Some c => content_score c
  | None => 0%Q
  end.

(** The body of the loop of lines 530-646 for the element with identifier
    [u]. *)
Definition clean_conditionally (MIN_LEN : nat) (cs : candidates)
    (st : elem * gset nat) (u : nat) : elem * gset nat :=
  let '(node, allowed) := st in
  if bool_decide (u ∈ allowed) then st
  else
    match lookup_uid node u with
    | None => st
    | Some el =>
        let weight := class_weight el in
        let content_score := candidate_score cs u in
        if Qltb (inject_Z weight + content_score) 0 then (drop_tree u node, allowed)
        else if count_chr comma (text_content el) <? 10 then
          let '(to_remove, allowed) := judge MIN_LEN node el weight allowed in
          if to_remove then (drop_tree u node, allowed) else (node, allowed)
        else st
    end.

(** [reverse_tags] yields one tag name after the other and runs [findall]
    when it gets to a name, on the tree as it is then. *)
Definition clean_pass (MIN_LEN : nat) (cs : candidates)
    (st : elem * gset nat) (tag_name : string) : elem * gset nat :=
  fold_left (clean_conditionally MIN_LEN cs)
            (map uid (rev (findall (fst st) tag_name))) st.

(** Lines 527-646. *)
Definition clean_tables_lists_divs (MIN_LEN : nat) (cs : candidates)
    (node : elem) : elem * gset nat :=
  fold_left (clean_pass MIN_LEN cs) ["table"; "ul"; "div"] (node, ∅).

(** The rescue in the words of the specification: the first following and
    the first preceding sibling with [text_length > 0] have more than 1000
    characters together. *)
Definition first_nonempty (sibs : list elem) : list nat :=
  match List.find (fun s => 0 <? text_length s) sibs with
  | Some s => [text_length s]
  | None => []
  end.

Definition spec_rescue (root : elem) (u : nat) : bool :=
  1000 <? list_sum (first_nonempty (itersiblings root u)
                    ++ first_nonempty (itersiblings_preceding root u)).

(** [<div><p>1001 letters</p><div>short</div><p>one letter</p></div>]:
    the inner [<div>] is too short and sits among long siblings. *)
Definition long_text : str := repeat (ch 97) 1001.

Definition div_short : elem := Elem 2 (lit "div") [] (lit "short") [] [].

Definition article_short : elem :=
  Elem 0 (lit "div") [] [] [
    Elem 1 (lit "p") [] long_text [] [];
    div_short;
    Elem 3 (lit "p") [] (lit "z") [] []
  ] [].

(** The same with two [<embed>] and a [<ul>] in the inner [<div>]. *)
Definition div_embeds : elem :=
  Elem 2 (lit "div") [] (lit "some text of the inner block here") [
    Elem 4 (lit "embed") [] [] [] [];
    Elem 5 (lit "embed") [] [] [] [];
    Elem 6 (lit "ul") [] [] [ Elem 7 (lit "li") [] (lit "item") [] [] ] []
  ] [].

Definition article_embeds : elem :=
  Elem 0 (lit "div") [] [] [
    Elem 1 (lit "p") [] long_text [] [];
    div_embeds;
    Elem 3 (lit "p") [] (lit "z") [] []
  ] [].

(** ** Exceptions *)

Inductive exception : Type :=
  | UnboundLocalError
  | ParserError
  | TypeError
  | OtherError (message : str).

Inductive exc (A : Type) : Type :=
  | Ok (a : A)
  | Raise (e : exception).

Arguments Ok {A} a.
Arguments Raise {A} e.

#[export] Instance exc_bind : MBind exc :=
  fun A B (f : A -> exc B) (m : exc A) =>
    match m with
    | Ok a => f a
    | Raise e => Raise e
    end.

#[export] Instance exc_ret : MRet exc := fun A a => Ok a.

(** ** The meta collector *)

Module Document.

Definition METAPROPS : list str :=
  map lit ["description"; "title"; "keywords"; "og:title"; "og:description";
           "twitter:description"; "twitter:title"].

Definition ITEMPROPS : list str := map lit ["model"; "brand"; "description"; "name"].

Definition BADTAGS : list string :=
  ["footer"; "header"; "nav"; "aside"; "script"; "style"].

Definition in_list (s : str) (l : list str) : bool := existsb (str_eqb s) l.

(** [Document.strip], lines 153-163. *)
Definition strip (text : option str) (strip : option str) : option str :=
  match strip, text with
  | Some strip, Some text =>
      let strip_len := length strip in
      let text := if startswith (lower text) strip
                  then drop strip_len text else text in
      let text := if endswith (lower text) strip
                  then take (length text - strip_len) text else text in
      Some text
  | _, _ => text
  end.

(** The same with the letter case of the domain ignored too, as the
    specification words it. *)
Definition spec_strip (text : option str) (strip : option str) : option str :=
  match strip, text with
  | Some strip, Some text =>
      let strip_len := length strip in
      let text := if startswith (lower text) (lower strip)
                  then drop strip_len text else text in
      let text := if endswith (lower text) (lower strip)
                  then take (length text - strip_len) text else text in
      Some text
  | _, _ => text
  end.

Definition colon : ascii := ch 58.

Definition quote : ascii := ch 34.

(** [prop[prop.find(':')+1:]] *)
Definition dedupe_key (prop : str) : str :=
  match find_chr colon prop with
  | Some i => drop (i + 1) prop
  | None => prop
  end.

(** [re.sub("<.*?>", '', s)] *)
Definition strip_tags (s : str) : str := Re.sub Re.tag_like [] s.

(** The text handed to [fragment_fromstring]:
    [<p class="econtextmax KIND PROP">CONTENT</p>]. *)
Definition p_html (kind : string) (prop content : str) : str :=
  lit "<p class=" ++ [quote] ++ lit "econtextmax " ++ lit kind ++ [sp] ++ prop
  ++ [quote] ++ lit ">" ++ strip_tags content ++ lit "</p>".

Definition set_uid (n : nat) (e : elem) : elem :=
  let 'Elem _ t a x c tl := e in Elem n t a x c tl.

(** [base.insert(0, meta)]: an element that is a child already moves. *)
Definition insert0 (meta : elem) (base : list elem) : list elem :=
  meta :: filter (fun k => uid k <> uid meta) base.

(** What [addMeta] and [addProps] share: the dict [dedupe], the children of
    [base], and the next fresh identity. *)
Record collector := {
  dedupe : gmap str (option str);
  base : list elem;
  fresh : nat
}.

(** [dedupe.get(key)] *)
Definition dedupe_get (key : str) (d : gmap str (option str)) : option str :=
  match d !! key with
  | Some v => v
  | None => None
  end.

(** The ancestors of the node [u] of the tree, nearest first. *)
Fixpoint ancestors_of (u : nat) (e : elem) : option (list elem) :=
  let 'Elem i _ _ _ c _ := e in
  if i =? u then Some []
  else (fix first (l : list elem) : option (list elem) :=
          match l with
          | [] => None
          | k :: r => match ancestors_of u k with
                      | Some anc => Some (anc ++ [e])
                      | None => first r
                      end
          end) c.

Definition iterancestors (root : elem) (u : nat) : list elem :=
  match ancestors_of u root with
  | Some anc => anc
  | None => []
  end.

(** [elem.attrib.get('name', elem.attrib.get('property', None))] *)
Definition meta_prop (el : elem) : option str :=
  match assoc (lit "name") (attrib el) with
  | Some v => Some v
  | None => assoc (lit "property") (attrib el)
  end.

(** [elem.attrib.get('content', elem.text_content().strip())] *)
Definition itemprop_content (el : elem) : str :=
  match assoc (lit "content") (attrib el) with
  | Some v => v
  | None => Py.strip (text_content el)
  end.

Section Collector.

(** lxml's [fragment_fromstring]; [None] when it raises. *)
Variable fragment_fromstring : str -> option elem.

(** [self.domain] *)
Variable domain : option str.

(** The body of the loop of [addMeta], lines 191-203.  [meta] is the local
    variable of that name, [None] while it is unbound. *)
Definition addMeta_step (st : exc (collector * option elem)) (el : elem)
    : exc (collector * option elem) :=
  '(c, meta) ← st;
  match meta_prop el with
  | Some prop =>
      if in_list prop METAPROPS then
        let metacontent := strip (assoc (lit "content") (attrib el)) domain in
        let key := dedupe_key prop in
        '(c, meta) ←
          (if bool_decide (dedupe_get key (dedupe c) <> metacontent) then
             (* try: meta = fragment_fromstring(...)  except: pass *)
             let '(meta, n) :=
               match metacontent with
               | Some content =>
                   match fragment_fromstring (p_html "meta" prop content) with
                   | Some e => (Some (set_uid (fresh c) e), S (fresh c))
                   | None => (meta, fresh c)
                   end
               | None => (meta, fresh c)
               end in
             (* base.insert(0, meta) *)
             match meta with
             | Some m => Ok ({| dedupe := dedupe c; base := insert0 m (base c);
                                fresh := n |}, meta)
             | None => Raise UnboundLocalError
             end
           else Ok (c, meta));
        Ok ({| dedupe := <[key := metacontent]> (dedupe c); base := base c;
               fresh := fresh c |}, meta)
      else Ok (c, meta)
  | None => Ok (c, meta)
  end.

(** [addMeta], lines 184-204. *)
Definition addMeta (html : elem) (c : collector) : exc collector :=
  r ← fold_left addMeta_step (findall html "meta") (Ok (c, None));
  Ok (fst r).

(** The body of the loop of [addProps], lines 213-222. *)
Definition addProps_step (html : elem) (st : exc collector) (el : elem)
    : exc collector :=
  c ← st;
  match assoc (lit "itemprop") (attrib el) with
  | Some itemprop =>
      if in_list itemprop ITEMPROPS then
        if existsb (fun a => in_list (tag a) (map lit BADTAGS))
                   (iterancestors html (uid el))
        then Ok c
        else
          let metacontent := itemprop_content el in
          c ←
            (if bool_decide (dedupe_get itemprop (dedupe c) <> Some metacontent) then
               match fragment_fromstring (p_html "itemprop" itemprop metacontent) with
               | Some e => Ok {| dedupe := dedupe c;
                                 base := insert0 (set_uid (fresh c) e) (base c);
                                 fresh := S (fresh c) |}
               | None => Raise ParserError
               end
             else Ok c);
          Ok {| dedupe := <[itemprop := Some metacontent]> (dedupe c);
                base := base c; fresh := fresh c |}
      else Ok c
  | None => Ok c
  end.

(** [self.html.xpath(".//*[@itemprop]")] *)
Definition with_itemprop (html : elem) : list elem :=
  filter (fun d => assoc (lit "itemprop") (attrib d) <> None) (descendants html).

(** [addProps], lines 206-223. *)
Definition addProps (html : elem) (c : collector) : exc collector :=
  fold_left (addProps_step html) (with_itemprop html) (Ok c).

(** [collectMetaTags], lines 165-170: the children of [metaDiv].  [n] is
    the first identity free for new elements. *)
Definition collectMetaTags (html : elem) (n : nat) : exc (list elem) :=
  let c := {| dedupe := ∅; base := []; fresh := n |} in
  c ← addMeta html c;
  c ← addProps html c;
  Ok (base c).

End Collector.

(** [fragment_fromstring('<div id="meta product content descriptions"/>')]
    with the collected paragraphs inside. *)
Definition metaDiv (u : nat) (paragraphs : list elem) : elem :=
  Elem u (lit "div") [(lit "id", lit "meta product content descriptions")]
       [] paragraphs [].

(** ** The driver *)

(** [e.set(name, value)] *)
Fixpoint set_assoc (name value : str) (a : list (str * str)) : list (str * str) :=
  match a with
  | [] => [(name, value)]
  | (k, v) :: r => if str_eqb k name then (k, value) :: r
                   else (k, v) :: set_assoc name value r
  end.

Definition set_attr (name value : string) (e : elem) : elem :=
  let 'Elem i t a x c tl := e in Elem i t (set_assoc (lit name) (lit value) a) x c tl.

(** Lines 242-243: [id="readabilityBody"] on every [<body>] below the
    root. *)
Fixpoint set_body_ids (e : elem) : elem :=
  let 'Elem i t a x c tl := e in
  Elem i t a x
       (map (fun k => let k := set_body_ids k in
                      if has_tag "body" k then set_attr "id" "readabilityBody" k
                      else k) c)
       tl.

(** Lines 236-240: every descendant with a tag of [BADTAGS] is dropped. *)
Definition drop_badtags (html : elem) : elem :=
  let to_drop := tags html BADTAGS in
  fold_left (fun h i => drop_tree (uid i) h) to_drop html.

(** [e.find('body')]: the first child with that tag. *)
Definition find_child (e : elem) (name : string) : option elem :=
  List.find (has_tag name) (children e).

(** [node.insert(0, child)] on the node [u] of the tree. *)
Fixpoint insert_first (u : nat) (child : elem) (e : elem) : elem :=
  let 'Elem i t a x c tl := e in
  if i =? u then Elem i t a x (child :: c) tl
  else Elem i t a x (map (insert_first u child) c) tl.

(** [_addMetaTags], lines 173-182, with [base=None]. *)
Definition _addMetaTags (html : elem) (metaTags : elem) : elem :=
  let base := match findall html "body" with
              | b :: _ => b
              | [] => html
              end in
  insert_first (uid base) metaTags html.

(** How one turn of the loop of [summary] ends: [continue], with the new
    value of [ruthless], or [break], with the tree [sanitize] has left in
    [self.html]. *)
Inductive turn : Type :=
  | Continue (ruthless : bool)
  | Break (html : elem).

Section Driver.

(** [self._parse(self.input)]: parser, cleaner and link resolution. *)
Variable _parse : exc elem.

Variable fragment_fromstring : str -> option elem.
Variable domain : option str.

(** The options [min_text_length] and [retry_length], or their defaults. *)
Variable MIN_LEN : nat.
Variable retry_length : nat.

(** The first identity free for the elements the collector makes. *)
Variable fresh_uid : nat.

(** Stages this development does not look into. *)
Variable remove_unlikely_candidates : elem -> exc elem.
Variable transform_misused_divs_into_paragraphs : elem -> exc elem.
Variable get_article : elem -> candidates -> candidate -> bool -> exc elem.
Variable sanitize : elem -> candidates -> exc elem.
Variable get_clean_html : elem -> str.

(** [_html(True)], lines 124-129.  The state of the [Document] that lasts
    is [self.metaTags]; it is returned also when the call raises. *)
Definition _html (metaTags : option elem) : option elem * exc elem :=
  match _parse with
  | Raise e => (metaTags, Raise e)
  | Ok html =>
      match metaTags with
      | Some _ => (metaTags, Ok html)
      | None =>
          match collectMetaTags fragment_fromstring domain html (S fresh_uid) with
          | Ok ps => (Some (metaDiv fresh_uid ps), Ok html)
          | Raise e => (None, Raise e)
          end
      end
  end.

(** Lines 266-275. *)
Definition finish (ruthless : bool) (article : elem) (cs : candidates) : exc turn :=
  node ← sanitize article cs;
  let cleaned_article := get_clean_html node in
  let article_length := length cleaned_article in
  let of_acceptable_length := retry_length <=? article_length in
  if ruthless && negb of_acceptable_length then Ok (Continue false)
  else Ok (Break node).

(** Lines 236-246: the tree the scorer gets. *)
Definition prepare (ruthless : bool) (html : elem) : exc elem :=
  let html := drop_badtags html in
  let html := set_body_ids html in
  html ← (if ruthless then remove_unlikely_candidates html else Ok html);
  transform_misused_divs_into_paragraphs html.

(** Lines 262-264: the [<body>], or the root when there is none. *)
Definition body_or_root (html : elem) : elem :=
  match find_child html "body" with
  | Some b => b
  | None => html
  end.

(** Lines 247-275. *)
Definition decide_turn (html_partial ruthless : bool) (html : elem) : exc turn :=
  let cs := score_paragraphs html MIN_LEN in
  let best_candidate := select_best_candidate cs in
  match best_candidate with
  | Some best =>
      article ← get_article html cs best html_partial;
      finish ruthless article cs
  | None =>
      if ruthless then Ok (Continue false)
      else finish ruthless (body_or_root html) cs
  end.

Definition turn_on (html_partial ruthless : bool) (html : elem) : exc turn :=
  html ← prepare ruthless html;
  decide_turn html_partial ruthless html.

(** One turn of the loop, lines 235-275. *)
Definition pass (html_partial ruthless : bool) (metaTags : option elem)
    : option elem * exc turn :=
  match _html metaTags with
  | (m, Raise e) => (m, Raise e)
  | (m, Ok html) => (m, turn_on html_partial ruthless html)
  end.

(** The loop [while True], lines 234-275, with the values [ruthless] had
    at the head of each turn.  [None] when the fuel runs out. *)
Fixpoint loop (fuel : nat) (html_partial ruthless : bool) (metaTags : option elem)
    : list bool * option (option elem * exc elem) :=
  match fuel with
  | O => ([], None)
  | S fuel =>
      match pass html_partial ruthless metaTags with
      | (m, Raise e) => ([ruthless], Some (m, Raise e))
      | (m, Ok (Break node)) => ([ruthless], Some (m, Ok node))
      | (m, Ok (Continue ruthless')) =>
          let '(trace, r) := loop fuel html_partial ruthless' m in
          (ruthless :: trace, r)
      end
  end.

(** What [summary] gives back: the string, or [Unparseable], or whatever
    escapes after the [try]. *)
Inductive outcome : Type :=
  | Returned (s : str)
  | Unparseable (e : exception)
  | Escaped (e : exception).

(** [summary], lines 225-282. *)
Definition summary (fuel : nat) (html_partial : bool) (metaTags : option elem)
    : option (option elem * outcome) :=
  match snd (loop fuel html_partial true metaTags) with
  | None => None
  | Some (m, Raise e) => Some (m, Unparseable e)
  | Some (m, Ok node) =>
      match m with
      | Some md => Some (m, Returned (get_clean_html (_addMetaTags node md)))
      | None => Some (m, Escaped TypeError)
      end
  end.

End Driver.

(** A stand-in for lxml on the fragments of the collector: it accepts
    [<p class="C">TEXT</p>] when neither [C] nor [TEXT] holds markup
    characters, and gives the [<p>] with that class and text. *)
Definition plain (s : str) : bool :=
  forallb (fun c => negb ((code c =? 60) || (code c =? 62) || (code c =? 34)
                          || (code c =? 38))) s.

Fixpoint until_chr (c : ascii) (s : str) : option (str * str) :=
  match s with
  | [] => None
  | x :: r => if chr_eqb x c then Some ([], r)
              else '(a, b) ← until_chr c r; Some (x :: a, b)
  end.

Definition plain_fragment (s : str) : option elem :=
  let opening := lit "<p class=" ++ [quote] in
  if startswith s opening then
    '(cls, r) ← until_chr quote (drop (length opening) s);
    match r with
    | gt :: r =>
        if (code gt =? 62) && endswith r (lit "</p>") then
          let txt := take (length r - 4) r in
          if plain cls && plain txt
          then Some (Elem 0 (lit "p") [(lit "class", cls)] txt [] [])
          else None
        else None
    | [] => None
    end
  else None.

(** [<meta name="description" content="Foo">] and the like. *)
Definition meta_tag (u : nat) (attr prop content : string) : elem :=
  Elem u (lit "meta") [(lit attr, lit prop); (lit "content", lit content)] [] [] [].

Definition page (metas : list elem) (body : list elem) : elem :=
  Elem 0 (lit "html") [] [] [
    Elem 1 (lit "head") [] [] metas [];
    Elem 2 (lit "body") [] [] body []
  ] [].

(** A first [<meta>] whose content keeps a tag after [<.*?>] is removed:
    the closing tag has a line break before its [>]. *)
Definition meta_broken : elem :=
  Elem 10 (lit "meta")
    [(lit "name", lit "description");
     (lit "content", lit "Read more </p" ++ [nl] ++ lit "> here")] [] [] [].

Definition page_broken : elem :=
  page [meta_broken; meta_tag 11 "name" "keywords" "a, b"] [].

(** The meta tags of scenario S3 and a pair with different contents. *)
Definition page_same : elem :=
  page [meta_tag 10 "name" "og:title" "X"; meta_tag 11 "property" "og:title" "X"] [].

Definition page_differ : elem :=
  page [meta_tag 10 "name" "og:title" "X"; meta_tag 11 "property" "title" "Y"] [].

(** A [<meta>] description and an element with the same [itemprop]. *)
Definition span_description : elem :=
  Elem 20 (lit "span") [(lit "itemprop", lit "description")] (lit " A fine widget ") [] [].

Definition page_itemprop : elem :=
  page [meta_tag 10 "property" "og:description" "A fine widget"] [span_description].

(** [<meta charset="utf-8">] and [<meta name="viewport" ...>]: tags outside
    the property set. *)
Definition meta_charset : elem :=
  Elem 8 (lit "meta") [(lit "charset", lit "utf-8")] [] [] [].

Definition meta_viewport : elem := meta_tag 9 "name" "viewport" "width=device-width".

(** The pair of [page_differ] among other [<meta>] tags. *)
Definition page_among : elem :=
  page [meta_charset; meta_tag 10 "name" "og:title" "X"; meta_viewport;
        meta_tag 11 "property" "title" "Y"] [].

(** Three tags of the key "title": the contents of the first and the third
    are the same, the one between them differs. *)
Definition page_interleaved : elem :=
  page [meta_tag 10 "name" "title" "Foo"; meta_tag 11 "property" "og:title" "Bar";
        meta_tag 12 "name" "twitter:title" "Foo"] [].

(** A [<meta>] description, an element of the same [itemprop] with another
    content, and one with the content of the [<meta>]. *)
Definition span_other : elem :=
  Elem 21 (lit "span") [(lit "itemprop", lit "description")] (lit "Other") [] [].

Definition span_widget : elem :=
  Elem 22 (lit "span") [(lit "itemprop", lit "description")] (lit "A fine widget") [] [].

Definition page_itemprop_between : elem :=
  page [meta_tag 10 "name" "description" "A fine widget"] [span_other; span_widget].

(** The same [<meta>] among others, and the element after one of another
    [itemprop]. *)
Definition span_brand : elem :=
  Elem 19 (lit "span") [(lit "itemprop", lit "brand")] (lit "Acme") [] [].

Definition page_itemprop_among : elem :=
  page [meta_charset; meta_tag 10 "property" "og:description" "A fine widget";
        meta_tag 11 "name" "keywords" "a, b"]
       [span_brand; span_description].

End Document.

(** Stand-ins for the stages the driver takes as given, to run it on
    [doc_one_paragraph]: no pruning, no div rewriting, the best element as
    the article, the conditional cleaning as the sanitizer and the text as
    the serialization. *)
Module Sample.

Definition _parse : exc elem := Ok doc_one_paragraph.

Definition remove_unlikely_candidates (html : elem) : exc elem := Ok html.

Definition transform_misused_divs_into_paragraphs (html : elem) : exc elem := Ok html.

Definition get_article (html : elem) (cs : candidates) (best : candidate)
    (html_partial : bool) : exc elem := Ok (cand_elem best).

Definition sanitize (node : elem) (cs : candidates) : exc elem :=
  Ok (fst (clean_tables_lists_divs 25 cs node)).

Definition get_clean_html (node : elem) : str := text_content node.

Definition summary (fuel : nat) (metaTags : option elem) :=
  Document.summary _parse Document.plain_fragment None 25 250 100
    remove_unlikely_candidates transform_misused_divs_into_paragraphs
    get_article sanitize get_clean_html fuel false metaTags.

Definition loop (fuel : nat) (ruthless : bool) (metaTags : option elem) :=
  Document.loop _parse Document.plain_fragment None 25 250 100
    remove_unlikely_candidates transform_misused_divs_into_paragraphs
    get_article sanitize get_clean_html fuel false ruthless metaTags.

End Sample.

(** ** Further definitions for the properties below *)

(** The first loop of [score_paragraphs], lines 359-391, before the scores
    are scaled. *)
Definition raw_scores (root : elem) (MIN_LEN : nat) : candidates * list elem :=
  fold_left (score_paragraph root MIN_LEN) (tags root ["p"; "pre"; "td"]) ([], []).

(** [n] is the parent or the grandparent of [el]. *)
Definition near (root el n : elem) : Prop :=
  parent_in root (uid el) = Some n
  \/ exists p, parent_in root (uid el) = Some p /\ parent_in root (uid p) = Some n.

(** Line 401 on one candidate. *)
Definition scaled (c : candidate) : candidate :=
  {| content_score := (content_score c * (1 - get_link_density (cand_elem c)))%Q;
     cand_elem := cand_elem c |}.

(** The entries of [candidates] and the list [ordered] go side by side. *)
Definition aligned (cs : candidates) (ordered : list elem) : Prop :=
  Forall2 (fun kc e => fst kc = uid e /\ cand_elem (snd kc) = e) cs ordered.

(** What the first loop of [score_paragraphs] keeps true of its state. *)
Definition scorer_state (root : elem) (MIN_LEN : nat)
    (st : candidates * list elem) : Prop :=
  aligned (fst st) (snd st)
  /\ NoDup (map fst (fst st))
  /\ forall k c, In (k, c) (fst st) ->
       exists el, In el (tags root ["p"; "pre"; "td"])
                  /\ MIN_LEN <= text_length el
                  /\ near root el (cand_elem c).

(** [<div><p>A, B and C went to the market, ...</p><p>short</p></div>] *)
Definition p_long : elem :=
  Elem 2 (lit "p") [] (lit "A, B and C went to the market, and then home again.") [] [].

Definition p_short : elem := Elem 3 (lit "p") [] (lit "short") [] [].

Definition div_two : elem := Elem 1 (lit "div") [] [] [p_long; p_short] [].

Definition doc_two : elem := Elem 0 (lit "html") [] [] [div_two] [].

(** What stays of an element when the tree around it is pruned: its
    identity, its tag and its attributes. *)
Definition label (d : elem) : nat * str * list (str * str) := (uid d, tag d, attrib d).

Definition labels (e : elem) : list (nat * str * list (str * str)) :=
  map label (descendants e).

(** The nodes below a list of children, in document order, and the
    identities below an element. *)
Abbreviation kids c := (flat_map (fun k => k :: descendants k) c).

Abbreviation uids e := (map uid (descendants e)).

(** [for i in to_drop: i.drop_tree()] *)
Definition drop_all (to_drop : list elem) (node : elem) : elem :=
  fold_left (fun n i => drop_tree (uid i) n) to_drop node.

(** Line 518: a header with a negative class weight or too many links. *)
Definition bad_header (header : elem) : bool :=
  (class_weight header <? 0)%Z || Qltb (33 # 100) (get_link_density header).

(** Lines 649-651: elements without visible text are dropped, last
    first. *)
Definition drop_if_empty (n : elem) (u : nat) : elem :=
  match lookup_uid n u with
  | Some el => match Py.strip (text_content el) with
               | [] => drop_tree u n
               | _ :: _ => n
               end
  | None => n
  end.

Definition remove_empty (node : elem) : elem :=
  fold_left drop_if_empty (map uid (rev (descendants node))) node.

(** [sanitize], lines 514-663: the tree it leaves in [self.html]; the
    string it returns is the serialization of that tree. *)
Definition sanitize_tree (MIN_LEN : nat) (cs : candidates) (node : elem) : elem :=
  let to_drop :=
    filter (fun header => bad_header header = true)
           (tags node ["h1"; "h2"; "h3"; "h4"; "h5"; "h6"])
    ++ tags node ["form"; "iframe"; "textarea"] in
  let node := drop_all to_drop node in
  let node := fst (clean_tables_lists_divs MIN_LEN cs node) in
  remove_empty node.

(** [<div><h2 class="comment">Talk</h2><form>...</form><p>text</p><p> </p></div>] *)
Definition article_form : elem :=
  Elem 0 (lit "div") [] [] [
    Elem 1 (lit "h2") [(lit "class", lit "comment")] (lit "Talk") [] [];
    Elem 2 (lit "form") [] [] [ Elem 3 (lit "textarea") [] (lit "type here") [] [] ] (lit " after");
    Elem 4 (lit "p") [] (lit "Some text, with a <nav> beside it.") [] [];
    Elem 5 (lit "nav") [] (lit "Home") [] [];
    Elem 6 (lit "p") [] [sp] [] []
  ] [].

(** A [>] comes before the first line break of [s]: what [.*?>] asks of
    the rest of the subject. *)
Fixpoint closes (s : str) : bool :=
  match s with
  | c :: r => (code c =? 62) || (negb (is_nl c) && closes r)
  | [] => false
  end.

(** No [<] of [s] has a [>] after it on its line. *)
Fixpoint no_tag (s : str) : Prop :=
  match s with
  | c :: r => (code c = 60 -> closes r = false) /\ no_tag r
  | [] => True
  end.

(** [<html><head><meta keywords><meta description, broken></head><body/></html>]:
    the first [<meta>] parses, the second does not. *)
Definition page_later_broken : elem :=
  Document.page [Document.meta_tag 11 "name" "keywords" "a, b"; Document.meta_broken] [].

(** ** [get_article], lines 284-332 *)

(** [re.search('\.( |$)', s)]: a full stop before a space, at the end of
    the text, or before the line break that ends the text. *)
Fixpoint sentence_end (s : str) : bool :=
  match s with
  | c :: r =>
      ((code c =? 46)
       && match r with
          | [] => true
          | d :: r' => (code d =? 32)
                       || (is_nl d && match r' with [] => true | _ :: _ => false end)
          end)
      || sentence_end r
  | [] => false
  end.

(** [max([10, best_candidate['content_score'] * 0.2])] *)
Definition sibling_score_threshold (best_candidate : candidate) : Q :=
  Qmax 10 (content_score best_candidate * (2 # 10)).

(** [parent.getchildren()], or the best element alone when it has no
    parent. *)
Definition siblings (html : elem) (best_elem : elem) : list elem :=
  match parent_in html (uid best_elem) with
  | Some parent => children parent
  | None => [best_elem]
  end.

(** Lines 301-325: the value of [append] for one sibling. *)
Definition append (cs : candidates) (best_candidate : candidate)
    (sibling : elem) : bool :=
  (uid sibling =? uid (cand_elem best_candidate))
  || match Dict.get (uid sibling) cs with
     | Some c => Qle_bool (sibling_score_threshold best_candidate) (content_score c)
     | None => false
     end
  || (has_tag "p" sibling
      && let link_density := get_link_density sibling in
         let node_content := text sibling in
         let node_length := length node_content in
         if 80 <? node_length then Qltb link_density (25 # 100)
         else Qeq_bool link_density 0 && sentence_end node_content).

(** The siblings that go into the output, in their order. *)
Definition appended (html : elem) (cs : candidates) (best_candidate : candidate)
    : list elem :=
  filter (fun sibling => append cs best_candidate sibling = true)
         (siblings html (cand_elem best_candidate)).

(** [get_article]: a new [<div>], inside a new [<html><body>] unless
    [html_partial], with the chosen siblings as its children.  [u] is the
    first identity free for the new elements. *)
Definition get_article (u : nat) (html : elem) (cs : candidates)
    (best_candidate : candidate) (html_partial : bool) : elem :=
  let div := Elem u (lit "div") [] [] (appended html cs best_candidate) [] in
  if html_partial then div
  else Elem (u + 2) (lit "html") [] [] [Elem (u + 1) (lit "body") [] [] [div] []] [].

(** ** [remove_unlikely_candidates], lines 445-466 *)

Definition unlikelyCandidatesRe : Re.matcher :=
  Alt.compile "ad-break|agegate|cart|combx|comment|community|disclaimer|disqus|extra|foot|header|hidden|legal|menu|modal|nav|pager|pagination|polic|popup|reference|remark|review|rss|shoutbox|sidebar|slideshow|sponsor|toc|tweet|twitter|video|warranty".

Definition okMaybeItsACandidateRe : Re.matcher :=
  Alt.compile "econtextmax|and|article|body|column|content|main|shadow|product|feature|detail|spec|about|text|story".

(** One alternative of [negativeStyles] at the head of [s]: the key, at
    most one character that is no line break, the value; letter case is
    ignored. *)
Definition hidden_after (key value : string) (s : str) : bool :=
  startswith (lower s) (lit key)
  && let r := drop (length (lit key)) (lower s) in
     (startswith r (lit value)
      || match r with
         | c :: r' => negb (is_nl c) && startswith r' (lit value)
         | [] => false
         end).

(** [REGEXES['negativeStyles'].search(s)] for
    [display:.?none|visibility:.?hidden]. *)
Fixpoint negativeStyles (s : str) : bool :=
  hidden_after "display:" "none" s || hidden_after "visibility:" "hidden" s
  || match s with
     | _ :: r => negativeStyles r
     | [] => false
     end.

(** [elem.get(name, '')] *)
Definition get_or_empty (el : elem) (name : string) : str :=
  match get el name with
  | Some v => v
  | None => []
  end.

(** Lines 448-464: whether the element goes on [to_remove]. *)
Definition unlikely (el : elem) : bool :=
  let s := get_or_empty el "class" ++ [sp] ++ get_or_empty el "id" in
  let styles := get_or_empty el "style" in
  if length s <? 2 then false
  else (Alt.search unlikelyCandidatesRe s
        && negb (Alt.search okMaybeItsACandidateRe s)
        && negb (has_tag "html" el || has_tag "body" el))
       || negativeStyles styles.

(** [remove_unlikely_candidates]: [self.html.iter()] starts with the root,
    and [drop_tree] on an element without parent fails its assertion. *)
Definition remove_unlikely_candidates (html : elem) : exc elem :=
  if unlikely html then Raise (OtherError (lit "AssertionError"))
  else Ok (drop_all (filter (fun el => unlikely el = true) (descendants html)) html).

(** [<html><body class="sidebar"><div class="sidebar">menu</div>
    <div class="sidebar main">kept</div><p style="display: none">hidden</p>
    <p class="x" style="display: none">gone</p><p>text</p></body></html>] *)
Definition page_unlikely : elem :=
  Elem 0 (lit "html") [] [] [
    Elem 1 (lit "body") [(lit "class", lit "sidebar")] [] [
      Elem 2 (lit "div") [(lit "class", lit "sidebar")] (lit "menu") [] [];
      Elem 3 (lit "div") [(lit "class", lit "sidebar main")] (lit "kept") [] [];
      Elem 4 (lit "p") [(lit "style", lit "display: none")] (lit "hidden") [] [];
      Elem 5 (lit "p") [(lit "class", lit "x"); (lit "style", lit "DISPLAY: none")]
           (lit "gone") [] [];
      Elem 6 (lit "p") [] (lit "text") [] []
    ] []
  ] [].

(** ** The driver under any iteration order of the dict

    [candidates.values()] yields the entries in the order of insertion from
    Python 3.7 on.  Before that, and under the Python 2 the source still
    supports (lines 22-24), the order follows the hashes of the keys, which
    for lxml elements come from their addresses and can differ from one run
    to the next.  [select_best_candidate] is the one place where the code
    iterates over a dict; here the order it meets is a parameter. *)

Module AnyOrder.

Section Driver.

(** [list(candidates.values())] *)
Variable values : candidates -> list candidate.

Variable _parse : exc elem.
Variable fragment_fromstring : str -> option elem.
Variable domain : option str.
Variable MIN_LEN : nat.
Variable retry_length : nat.
Variable fresh_uid : nat.
Variable remove_unlikely_candidates : elem -> exc elem.
Variable transform_misused_divs_into_paragraphs : elem -> exc elem.
Variable get_article : elem -> candidates -> candidate -> bool -> exc elem.
Variable sanitize : elem -> candidates -> exc elem.
Variable get_clean_html : elem -> str.

(** [select_best_candidate], lines 334-344. *)
Definition select_best_candidate (cs : candidates) : option candidate :=
  let sorted_candidates := sorted_desc (values cs) in
  match sorted_candidates with
  | [] => None
  | best_candidate :: _ => Some best_candidate
  end.

(** Lines 247-275. *)
Definition decide_turn (html_partial ruthless : bool) (html : elem)
    : exc Document.turn :=
  let cs := score_paragraphs html MIN_LEN in
  let best_candidate := select_best_candidate cs in
  match best_candidate with
  | Some best =>
      article ← get_article html cs best html_partial;
      Document.finish retry_length sanitize get_clean_html ruthless article cs
  | None =>
      if ruthless then Ok (Document.Continue false)
      else Document.finish retry_length sanitize get_clean_html ruthless
             (Document.body_or_root html) cs
  end.

Definition turn_on (html_partial ruthless : bool) (html : elem) : exc Document.turn :=
  html ← Document.prepare remove_unlikely_candidates
           transform_misused_divs_into_paragraphs ruthless html;
  decide_turn html_partial ruthless html.

(** One turn of the loop, lines 235-275. *)
Definition pass (html_partial ruthless : bool) (metaTags : option elem)
    : option elem * exc Document.turn :=
  match Document._html _parse fragment_fromstring domain fresh_uid metaTags with
  | (m, Raise e) => (m, Raise e)
  | (m, Ok html) => (m, turn_on html_partial ruthless html)
  end.

(** The loop [while True], lines 234-275. *)
Fixpoint loop (fuel : nat) (html_partial ruthless : bool) (metaTags : option elem)
    : list bool * option (option elem * exc elem) :=
  match fuel with
  | O => ([], None)
  | S fuel =>
      match pass html_partial ruthless metaTags with
      | (m, Raise e) => ([ruthless], Some (m, Raise e))
      | (m, Ok (Document.Break node)) => ([ruthless], Some (m, Ok node))
      | (m, Ok (Document.Continue ruthless')) =>
          let '(trace, r) := loop fuel html_partial ruthless' m in
          (ruthless :: trace, r)
      end
  end.

(** [summary], lines 225-282. *)
Definition summary (fuel : nat) (html_partial : bool) (metaTags : option elem)
    : option (option elem * Document.outcome) :=
  match snd (loop fuel html_partial true metaTags) with
  | None => None
  | Some (m, Raise e) => Some (m, Document.Unparseable e)
  | Some (m, Ok node) =>
      match m with
      | Some md =>
          Some (m, Document.Returned (get_clean_html (Document._addMetaTags node md)))
      | None => Some (m, Document.Escaped TypeError)
      end
  end.

End Driver.

End AnyOrder.

(** An iteration order yields every entry of the dict once. *)
Definition iteration_order (values : candidates -> list candidate) : Prop :=
  forall cs, Permutation (values cs) (Dict.values cs).

(** One candidate alone has the highest score. *)
Definition single_top (cs : candidates) : bool :=
  match first_max (Dict.values cs) with
  | Some b =>
      length (filter (fun c => Qle_bool (content_score b) (content_score c) = true)
                     (Dict.values cs)) =? 1
  | None => true
  end.

(** The order a reversed hash table would give. *)
Definition values_reversed (cs : candidates) : list candidate := rev (Dict.values cs).

(** Two columns of the same length:
    [<html><body><div><p>30 a</p></div><div><p>30 b</p></div></body></html>].
    The two [<div>] get the same score. *)
Definition doc_tie : elem :=
  Elem 0 (lit "html") [] [] [
    Elem 1 (lit "body") [] [] [
      Elem 2 (lit "div") [] [] [
        Elem 3 (lit "p") [] (lit "aaaaaaaaaaaaaaaaaaaaaaaaaaaaaa") [] [] ] [];
      Elem 4 (lit "div") [] [] [
        Elem 5 (lit "p") [] (lit "bbbbbbbbbbbbbbbbbbbbbbbbbbbbbb") [] [] ] []
    ] []
  ] [].

(** The driver on [doc_tie] with the stages of this development:
    [remove_unlikely_candidates], [get_article] and [sanitize] as modelled
    above; the div rewriting leaves this tree as it is (each [<div>] holds a
    [<p>] and no text of its own); the text stands for the
    serialization. *)
Module Tie.

Definition _parse : exc elem := Ok doc_tie.

Definition summary (values : candidates -> list candidate) (fuel : nat) :=
  AnyOrder.summary values _parse Document.plain_fragment None 25 10 200
    remove_unlikely_candidates Sample.transform_misused_divs_into_paragraphs
    (fun html cs best html_partial => Ok (get_article 100 html cs best html_partial))
    (fun node cs => Ok (sanitize_tree 25 cs node))
    Sample.get_clean_html fuel false None.

End Tie.

(** * Properties *)

(** ** The matchers of [clean] in closed form *)

Lemma star_accept p s : Re.star p Re.accept s = Some (run_len p s).
Proof.
  induction s as [|c r IH]; simpl; [reflexivity|].
  destruct (p c); [|reflexivity]. now rewrite IH.
Qed.

Lemma is_nl_space c : is_nl c = true -> is_space c = true.
Proof.
  unfold is_nl, is_space. intros H. apply Nat.eqb_eq in H. now rewrite H.
Qed.

Lemma is_nl_eq c : is_nl c = true -> c = nl.
Proof.
  unfold is_nl, nl, ch, code. intros H. apply Nat.eqb_eq in H.
  rewrite <- H. symmetry. apply ascii_nat_embedding.
Qed.

Lemma is_blank_space c : is_blank c = true -> is_space c = true.
Proof.
  unfold is_blank, is_space. intros H.
  apply orb_true_iff in H as [H|H]; apply Nat.eqb_eq in H; now rewrite H.
Qed.

Lemma newline_run_spec s :
  Re.newline_run s = if run_has_nl s then Some (run_len is_space s) else None.
Proof.
  unfold Re.newline_run.
  induction s as [|c r IH]; [reflexivity|].
  cbn [Re.star run_has_nl run_len].
  destruct (is_space c) eqn:Hc.
  - rewrite IH. destruct (run_has_nl r).
    + now rewrite orb_true_r.
    + rewrite orb_false_r. cbn [Re.one andb].
      destruct (is_nl c); [|reflexivity].
      now rewrite star_accept.
  - cbn [Re.one andb]. destruct (is_nl c) eqn:Hn; [|reflexivity].
    apply is_nl_space in Hn. congruence.
Qed.

Lemma blank_run_spec s :
  Re.blank_run s =
  if two_blanks s then Some (2 + run_len is_blank (drop 2 s)) else None.
Proof.
  unfold Re.blank_run, two_blanks.
  destruct s as [|a [|b r]]; cbn [Re.one]; try reflexivity.
  - now destruct (is_blank a).
  - destruct (is_blank a); [|reflexivity].
    destruct (is_blank b); [|reflexivity].
    cbn [andb drop]. now rewrite star_accept.
Qed.

Lemma sub_from_drop m repl n s :
  Re.sub_from m repl n s = Re.sub m repl (drop n s).
Proof.
  revert s. induction n as [|n IH]; intros s.
  - reflexivity.
  - destruct s as [|c r]; [reflexivity|]. cbn [Re.sub_from drop]. apply IH.
Qed.

Lemma drop_run_space s : drop (run_len is_space s) s = lstrip s.
Proof.
  induction s as [|c r IH]; [reflexivity|]. simpl.
  destruct (is_space c); [exact IH|reflexivity].
Qed.

Lemma drop_run_blank s : drop (run_len is_blank s) s = drop_blanks s.
Proof.
  induction s as [|c r IH]; [reflexivity|]. simpl.
  destruct (is_blank c); [exact IH|reflexivity].
Qed.

(** One step of the first substitution of [clean]. *)
Lemma sub_newline_cons c r :
  Re.sub Re.newline_run [nl] (c :: r) =
  if run_has_nl (c :: r) then nl :: Re.sub Re.newline_run [nl] (lstrip r)
  else c :: Re.sub Re.newline_run [nl] r.
Proof.
  unfold Re.sub at 1. cbn [Re.sub_from]. rewrite newline_run_spec.
  destruct (run_has_nl (c :: r)) eqn:H; [|reflexivity].
  cbn [run_has_nl] in H. apply andb_true_iff in H as [Hc _].
  cbn [run_len]. rewrite Hc. rewrite sub_from_drop, drop_run_space. reflexivity.
Qed.

(** One step of the second substitution of [clean]. *)
Lemma sub_blank_cons c r :
  Re.sub Re.blank_run [sp] (c :: r) =
  if two_blanks (c :: r) then sp :: Re.sub Re.blank_run [sp] (drop_blanks r)
  else c :: Re.sub Re.blank_run [sp] r.
Proof.
  unfold Re.sub at 1. cbn [Re.sub_from]. rewrite blank_run_spec.
  destruct (two_blanks (c :: r)) eqn:H; [|reflexivity].
  destruct r as [|b r]; [discriminate|].
  cbn [two_blanks] in H. apply andb_true_iff in H as [_ Hb].
  cbn [drop Nat.add]. rewrite sub_from_drop.
  cbn [drop drop_blanks]. rewrite Hb, drop_run_blank. reflexivity.
Qed.

Lemma hd_sub_newline s :
  head (Re.sub Re.newline_run [nl] s) = if run_has_nl s then Some nl else head s.
Proof.
  destruct s as [|c r]; [reflexivity|].
  rewrite sub_newline_cons. now destruct (run_has_nl (c :: r)).
Qed.

Lemma hd_sub_blank s :
  head (Re.sub Re.blank_run [sp] s) = if two_blanks s then Some sp else head s.
Proof.
  destruct s as [|c r]; [reflexivity|].
  rewrite sub_blank_cons. now destruct (two_blanks (c :: r)).
Qed.

(** ** Neighbour relations on strings *)

Lemma chain_cons R a t :
  chain R (a :: t) <-> (forall b, head t = Some b -> R a b) /\ chain R t.
Proof.
  cbn [chain]. destruct t as [|b t'].
  - split; intros [_ H]; (split; [|exact H]); [|exact I].
    intros b Hb. discriminate.
  - split; intros [H1 H2]; (split; [|exact H2]).
    + intros b' Hb. injection Hb as <-. exact H1.
    + apply H1. reflexivity.
Qed.

Lemma chain_app_r R l1 l2 : chain R (l1 ++ l2) -> chain R l2.
Proof.
  induction l1 as [|a l1 IH]; [trivial|].
  intros H. apply IH. exact (proj2 H).
Qed.

Lemma chain_app_l R l1 l2 : chain R (l1 ++ l2) -> chain R l1.
Proof.
  induction l1 as [|a l1 IH]; [intros _; exact I|].
  rewrite <- app_comm_cons. rewrite !chain_cons. intros [H1 H2]. split.
  - intros b Hb. apply H1. destruct l1; [discriminate|exact Hb].
  - apply IH, H2.
Qed.

Lemma lstrip_suffix s : exists l, s = l ++ lstrip s.
Proof.
  induction s as [|c r [l IH]]; [now exists []|]. simpl.
  destruct (is_space c).
  - exists (c :: l). simpl. now f_equal.
  - now exists [].
Qed.

Lemma drop_blanks_suffix s : exists l, s = l ++ drop_blanks s.
Proof.
  induction s as [|c r [l IH]]; [now exists []|]. simpl.
  destruct (is_blank c).
  - exists (c :: l). simpl. now f_equal.
  - now exists [].
Qed.

Lemma rstrip_prefix s : exists l, s = rstrip s ++ l.
Proof.
  unfold rstrip. destruct (lstrip_suffix (rev s)) as [l Hl].
  exists (rev l). rewrite <- rev_app_distr, <- Hl. symmetry. apply rev_involutive.
Qed.

Lemma chain_strip R s : chain R s -> chain R (strip s).
Proof.
  intros H. unfold strip.
  destruct (lstrip_suffix s) as [l1 H1].
  destruct (rstrip_prefix (lstrip s)) as [l2 H2].
  rewrite H1 in H. apply chain_app_r in H. rewrite H2 in H.
  now apply chain_app_l in H.
Qed.

Lemma lstrip_length s : length (lstrip s) <= length s.
Proof.
  induction s as [|c r IH]; simpl; [lia|].
  destruct (is_space c); simpl; lia.
Qed.

Lemma drop_blanks_length s : length (drop_blanks s) <= length s.
Proof.
  induction s as [|c r IH]; simpl; [lia|].
  destruct (is_blank c); simpl; lia.
Qed.

Lemma lstrip_head s c : head (lstrip s) = Some c -> is_space c = false.
Proof.
  induction s as [|a r IH]; simpl; [discriminate|].
  destruct (is_space a) eqn:Ha; [exact IH|].
  simpl. intros [= <-]. exact Ha.
Qed.

Lemma drop_blanks_head s c : head (drop_blanks s) = Some c -> is_blank c = false.
Proof.
  induction s as [|a r IH]; simpl; [discriminate|].
  destruct (is_blank a) eqn:Ha; [exact IH|].
  simpl. intros [= <-]. exact Ha.
Qed.

Lemma lstrip_idem s : lstrip (lstrip s) = lstrip s.
Proof.
  induction s as [|c r IH]; [reflexivity|]. simpl.
  destruct (is_space c) eqn:Hc; [exact IH|]. simpl. now rewrite Hc.
Qed.

Lemma run_has_nl_head s :
  run_has_nl s = true -> exists c r, s = c :: r /\ is_space c = true.
Proof.
  destruct s as [|c r]; [discriminate|]. simpl.
  intros H. apply andb_true_iff in H as [H _]. eauto.
Qed.

Lemma run_has_nl_lstrip s : run_has_nl (lstrip s) = false.
Proof.
  destruct (run_has_nl (lstrip s)) eqn:H; [|reflexivity].
  apply run_has_nl_head in H as (c & r & Hs & Hc).
  assert (Hh : head (lstrip s) = Some c) by now rewrite Hs.
  apply lstrip_head in Hh. congruence.
Qed.

Lemma two_blanks_drop_blanks s : two_blanks (drop_blanks s) = false.
Proof.
  destruct (drop_blanks s) as [|a t] eqn:E; [reflexivity|].
  assert (Hh : head (drop_blanks s) = Some a) by now rewrite E.
  apply drop_blanks_head in Hh. destruct t; simpl; [reflexivity|now rewrite Hh].
Qed.

(** ** Strings that [clean] leaves alone *)

Lemma nl_isolated_run s :
  nl_isolated s -> run_has_nl s = true ->
  exists r, s = nl :: r /\ lstrip r = r.
Proof.
  unfold nl_isolated. induction s as [|c r IH]; [discriminate|].
  rewrite chain_cons. intros [Hc Hr] H.
  cbn [run_has_nl] in H. apply andb_true_iff in H as [Hs H].
  destruct (is_nl c) eqn:Hn.
  - exists r. split; [f_equal; now apply is_nl_eq|].
    destruct r as [|b r']; [reflexivity|].
    destruct (Hc b eq_refl) as [Hb _]. simpl. now rewrite (Hb eq_refl).
  - simpl in H. destruct (IH Hr H) as (r' & -> & _).
    destruct (Hc nl eq_refl) as [_ Hb]. rewrite Hb in Hs; [discriminate|reflexivity].
Qed.

Lemma sub_newline_fixed s :
  nl_isolated s -> Re.sub Re.newline_run [nl] s = s.
Proof.
  induction s as [|c r IH]; [reflexivity|].
  intros H. rewrite sub_newline_cons.
  assert (Hr : nl_isolated r) by exact (proj2 H).
  destruct (run_has_nl (c :: r)) eqn:E.
  - destruct (nl_isolated_run _ H E) as (r' & [= -> <-] & Hl).
    rewrite Hl. f_equal. now apply IH.
  - f_equal. now apply IH.
Qed.

Lemma sub_blank_fixed s :
  blank_single s -> Re.sub Re.blank_run [sp] s = s.
Proof.
  induction s as [|c r IH]; [reflexivity|].
  intros H. rewrite sub_blank_cons.
  destruct (two_blanks (c :: r)) eqn:E.
  - destruct r as [|b r']; [discriminate|]. simpl in E.
    destruct H as [H _]. congruence.
  - f_equal. apply IH. exact (proj2 H).
Qed.

Lemma strip_fixed s : trimmed s -> strip s = s.
Proof.
  intros [H1 H2]. unfold strip, rstrip. rewrite H1, H2. apply rev_involutive.
Qed.

(** ** What each stage of [clean] establishes *)

Lemma sub_newline_isolated s : nl_isolated (Re.sub Re.newline_run [nl] s).
Proof.
  remember (length s) as n eqn:Hn. revert s Hn.
  induction n as [n IH] using lt_wf_ind. intros s Hn.
  destruct s as [|c r]; [exact I|].
  rewrite sub_newline_cons. unfold nl_isolated in *.
  destruct (run_has_nl (c :: r)) eqn:E; apply chain_cons; split.
  - intros b Hb. rewrite hd_sub_newline, run_has_nl_lstrip in Hb.
    apply lstrip_head in Hb. split; intros H; [exact Hb|].
    apply is_nl_space in H. congruence.
  - eapply IH; [|reflexivity]. subst n. simpl.
    pose proof (lstrip_length r). lia.
  - intros b Hb. rewrite hd_sub_newline in Hb. cbn [run_has_nl] in E.
    destruct (run_has_nl r) eqn:Er.
    + injection Hb as <-. rewrite orb_true_r, andb_true_r in E.
      split; intros H; [|exact E]. apply is_nl_space in H. congruence.
    + destruct r as [|b' r']; [discriminate|]. injection Hb as ->.
      cbn [run_has_nl] in Er. split; intros H.
      * pose proof (is_nl_space _ H) as H'. rewrite H', H in E. discriminate.
      * pose proof (is_nl_space _ H) as H'. rewrite H', H in Er. discriminate.
  - eapply IH; [|reflexivity]. subst n. simpl. lia.
Qed.

Lemma nl_isolated_blanks c r d :
  nl_isolated (c :: r) -> is_blank c = true ->
  head (drop_blanks r) = Some d -> is_nl d = false.
Proof.
  unfold nl_isolated. revert c. induction r as [|b r IH]; intros c H Hc Hd.
  - discriminate.
  - apply chain_cons in H as [H1 H2]. cbn [drop_blanks] in Hd.
    destruct (is_blank b) eqn:Hb.
    + exact (IH b H2 Hb Hd).
    + injection Hd as <-. destruct (H1 b eq_refl) as [_ Hn].
      destruct (is_nl b); [|reflexivity].
      apply is_blank_space in Hc. rewrite Hn in Hc; [discriminate|reflexivity].
Qed.

Lemma sub_blank_isolated s :
  nl_isolated s -> nl_isolated (Re.sub Re.blank_run [sp] s).
Proof.
  remember (length s) as n eqn:Hn. revert s Hn.
  induction n as [n IH] using lt_wf_ind. intros s Hn Hs.
  destruct s as [|c r]; [exact I|].
  rewrite sub_blank_cons.
  assert (Hr : nl_isolated r) by exact (proj2 Hs).
  destruct (two_blanks (c :: r)) eqn:E; apply chain_cons; split.
  - intros d Hd. rewrite hd_sub_blank, two_blanks_drop_blanks in Hd.
    destruct r as [|b r']; [discriminate|]. cbn [two_blanks] in E.
    apply andb_true_iff in E as [_ Eb].
    pose proof (nl_isolated_blanks b r' d Hr Eb) as Hnl.
    cbn [drop_blanks] in Hd. rewrite Eb in Hd. specialize (Hnl Hd).
    split; [discriminate|congruence].
  - destruct (drop_blanks_suffix r) as [l Hl].
    eapply IH; [|reflexivity|].
    + subst n. simpl. pose proof (drop_blanks_length r). lia.
    + unfold nl_isolated in *. rewrite Hl in Hr. now apply chain_app_r in Hr.
  - intros d Hd. rewrite hd_sub_blank in Hd.
    unfold nl_isolated in Hs. apply chain_cons in Hs as [Hs _].
    destruct (two_blanks r) eqn:Er.
    + injection Hd as <-. destruct r as [|b [|b' r']]; try discriminate.
      cbn [two_blanks] in Er. apply andb_true_iff in Er as [Eb _].
      destruct (Hs b eq_refl) as [Hcb _]. apply is_blank_space in Eb.
      split; [|discriminate]. intros Hc. rewrite Hcb in Eb; [discriminate|exact Hc].
    + exact (Hs d Hd).
  - eapply IH; [|reflexivity|exact Hr]. subst n. simpl. lia.
Qed.

Lemma sub_blank_single s : blank_single (Re.sub Re.blank_run [sp] s).
Proof.
  remember (length s) as n eqn:Hn. revert s Hn.
  induction n as [n IH] using lt_wf_ind. intros s Hn.
  destruct s as [|c r]; [exact I|].
  rewrite sub_blank_cons. unfold blank_single in *.
  destruct (two_blanks (c :: r)) eqn:E; apply chain_cons; split.
  - intros d Hd. rewrite hd_sub_blank, two_blanks_drop_blanks in Hd.
    apply drop_blanks_head in Hd. rewrite Hd. apply andb_false_r.
  - eapply IH; [|reflexivity]. subst n. simpl.
    pose proof (drop_blanks_length r). lia.
  - intros d Hd. rewrite hd_sub_blank in Hd.
    destruct (two_blanks r) eqn:Er.
    + injection Hd as <-. destruct r as [|b [|b' r']]; try discriminate.
      cbn [two_blanks] in E, Er. apply andb_true_iff in Er as [Eb _].
      rewrite Eb, andb_true_r in E. now rewrite E.
    + destruct r as [|b r']; [discriminate|]. injection Hd as ->. exact E.
  - eapply IH; [|reflexivity]. subst n. simpl. lia.
Qed.

Lemma lstrip_snoc l c : is_space c = false -> lstrip (l ++ [c]) = lstrip l ++ [c].
Proof.
  intros Hc. induction l as [|a l IH]; simpl; [now rewrite Hc|].
  destruct (is_space a); [exact IH|reflexivity].
Qed.

Lemma rstrip_cons c s : is_space c = false -> rstrip (c :: s) = c :: rstrip s.
Proof.
  intros Hc. unfold rstrip. simpl. rewrite lstrip_snoc by exact Hc.
  now rewrite rev_app_distr.
Qed.

Lemma strip_trimmed s : trimmed (strip s).
Proof.
  unfold trimmed, strip. split.
  - destruct (lstrip s) as [|c r] eqn:E; [reflexivity|].
    assert (Hc : is_space c = false) by (apply (lstrip_head s); now rewrite E).
    rewrite rstrip_cons by exact Hc. simpl. now rewrite Hc.
  - unfold rstrip. rewrite rev_involutive. apply lstrip_idem.
Qed.

(** C8. [clean] is idempotent: cleaning an already cleaned string changes
    nothing, for every string. *)
Theorem clean_idempotent (s : str) : clean (clean s) = clean s.
Proof.
  assert (Hiso : nl_isolated (clean s)).
  { apply chain_strip, sub_blank_isolated, sub_newline_isolated. }
  assert (Hbl : blank_single (clean s)).
  { apply chain_strip, sub_blank_single. }
  assert (Htr : trimmed (clean s)) by apply strip_trimmed.
  unfold clean at 1.
  rewrite (sub_newline_fixed _ Hiso), (sub_blank_fixed _ Hbl).
  exact (strip_fixed _ Htr).
Qed.

(** ** [clean] and concatenation *)

Lemma lstrip_app s a t :
  is_space a = false -> lstrip (s ++ a :: t) = lstrip s ++ a :: t.
Proof.
  intros Ha. induction s as [|c s IH]; simpl; [now rewrite Ha|].
  destruct (is_space c); [exact IH|reflexivity].
Qed.

Lemma drop_blanks_app s a t :
  is_blank a = false -> drop_blanks (s ++ a :: t) = drop_blanks s ++ a :: t.
Proof.
  intros Ha. induction s as [|c s IH]; simpl; [now rewrite Ha|].
  destruct (is_blank c); [exact IH|reflexivity].
Qed.

Lemma run_has_nl_app s a t :
  is_space a = false -> run_has_nl (s ++ a :: t) = run_has_nl s.
Proof.
  intros Ha. induction s as [|c s IH]; simpl; [now rewrite Ha|now rewrite IH].
Qed.

Lemma two_blanks_app s a t :
  is_blank a = false -> two_blanks (s ++ a :: t) = two_blanks s.
Proof.
  intros Ha. destruct s as [|c [|d s]]; simpl.
  - rewrite Ha. now destruct t.
  - rewrite Ha. apply andb_false_r.
  - reflexivity.
Qed.

Lemma not_space_not_blank a : is_space a = false -> is_blank a = false.
Proof.
  intros H. destruct (is_blank a) eqn:E; [|reflexivity].
  apply is_blank_space in E. congruence.
Qed.

(** A character that is no whitespace cuts the first substitution in two. *)
Lemma sub_newline_split s a t :
  is_space a = false ->
  Re.sub Re.newline_run [nl] (s ++ a :: t)
  = Re.sub Re.newline_run [nl] s ++ a :: Re.sub Re.newline_run [nl] t.
Proof.
  intros Ha. remember (length s) as n eqn:Hn. revert s Hn.
  induction n as [n IH] using lt_wf_ind. intros s Hn.
  destruct s as [|c r].
  - cbn [app]. rewrite sub_newline_cons. cbn [run_has_nl]. now rewrite Ha.
  - rewrite <- app_comm_cons, !sub_newline_cons.
    rewrite app_comm_cons, run_has_nl_app by exact Ha.
    destruct (run_has_nl (c :: r)).
    + rewrite lstrip_app by exact Ha. cbn [app]. f_equal.
      eapply IH; [|reflexivity]. subst n. simpl. pose proof (lstrip_length r). lia.
    + cbn [app]. f_equal. eapply IH; [|reflexivity]. subst n. simpl. lia.
Qed.

(** A character that is neither space nor tab cuts the second one in two. *)
Lemma sub_blank_split s a t :
  is_blank a = false ->
  Re.sub Re.blank_run [sp] (s ++ a :: t)
  = Re.sub Re.blank_run [sp] s ++ a :: Re.sub Re.blank_run [sp] t.
Proof.
  intros Ha. remember (length s) as n eqn:Hn. revert s Hn.
  induction n as [n IH] using lt_wf_ind. intros s Hn.
  destruct s as [|c r].
  - cbn [app]. rewrite sub_blank_cons.
    replace (two_blanks (a :: t)) with false; [reflexivity|].
    simpl. rewrite Ha. now destruct t.
  - rewrite <- app_comm_cons, !sub_blank_cons.
    rewrite app_comm_cons, two_blanks_app by exact Ha.
    destruct (two_blanks (c :: r)).
    + rewrite drop_blanks_app by exact Ha. cbn [app]. f_equal.
      eapply IH; [|reflexivity]. subst n. simpl.
      pose proof (drop_blanks_length r). lia.
    + cbn [app]. f_equal. eapply IH; [|reflexivity]. subst n. simpl. lia.
Qed.

Lemma collapse_split s a t :
  is_space a = false -> collapse (s ++ a :: t) = collapse s ++ a :: collapse t.
Proof.
  intros Ha. unfold collapse.
  rewrite sub_newline_split by exact Ha.
  apply sub_blank_split, not_space_not_blank, Ha.
Qed.

Lemma blank_only_cons c s :
  blank_only (c :: s) <-> is_space c = true /\ blank_only s.
Proof. unfold blank_only. simpl. apply andb_true_iff. Qed.

Lemma blank_only_app s t : blank_only (s ++ t) <-> blank_only s /\ blank_only t.
Proof.
  unfold blank_only. rewrite forallb_app. apply andb_true_iff.
Qed.

Lemma blank_only_lstrip s : blank_only s -> lstrip s = [].
Proof.
  induction s as [|c s IH]; [reflexivity|].
  rewrite blank_only_cons. intros [Hc Hs]. simpl. rewrite Hc. now apply IH.
Qed.

Lemma blank_only_suffix s l : blank_only (l ++ s) -> blank_only s.
Proof. rewrite blank_only_app. now intros [_ H]. Qed.

Lemma sub_newline_blank_only s :
  blank_only s -> blank_only (Re.sub Re.newline_run [nl] s).
Proof.
  remember (length s) as n eqn:Hn. revert s Hn.
  induction n as [n IH] using lt_wf_ind. intros s Hn Hs.
  destruct s as [|c r]; [exact Hs|].
  apply blank_only_cons in Hs as [Hc Hr].
  rewrite sub_newline_cons. destruct (run_has_nl (c :: r)).
  - apply blank_only_cons. split; [reflexivity|].
    destruct (lstrip_suffix r) as [l Hl].
    eapply IH; [|reflexivity|].
    + subst n. simpl. pose proof (lstrip_length r). lia.
    + rewrite Hl in Hr. now apply blank_only_suffix in Hr.
  - apply blank_only_cons. split; [exact Hc|].
    eapply IH; [|reflexivity|exact Hr]. subst n. simpl. lia.
Qed.

Lemma sub_blank_blank_only s :
  blank_only s -> blank_only (Re.sub Re.blank_run [sp] s).
Proof.
  remember (length s) as n eqn:Hn. revert s Hn.
  induction n as [n IH] using lt_wf_ind. intros s Hn Hs.
  destruct s as [|c r]; [exact Hs|].
  apply blank_only_cons in Hs as [Hc Hr].
  rewrite sub_blank_cons. destruct (two_blanks (c :: r)).
  - apply blank_only_cons. split; [reflexivity|].
    destruct (drop_blanks_suffix r) as [l Hl].
    eapply IH; [|reflexivity|].
    + subst n. simpl. pose proof (drop_blanks_length r). lia.
    + rewrite Hl in Hr. now apply blank_only_suffix in Hr.
  - apply blank_only_cons. split; [exact Hc|].
    eapply IH; [|reflexivity|exact Hr]. subst n. simpl. lia.
Qed.

Lemma collapse_blank_only s : blank_only s -> blank_only (collapse s).
Proof. intros H. now apply sub_blank_blank_only, sub_newline_blank_only. Qed.

Lemma lstrip_blank_app w s : blank_only w -> lstrip (w ++ s) = lstrip s.
Proof.
  induction w as [|c w IH]; [reflexivity|].
  rewrite blank_only_cons. intros [Hc Hw]. simpl. rewrite Hc. now apply IH.
Qed.

Lemma blank_only_rev s : blank_only (rev s) <-> blank_only s.
Proof.
  induction s as [|c s IH]; [reflexivity|]. cbn [rev].
  rewrite blank_only_app, IH, !blank_only_cons.
  assert (blank_only []) by reflexivity. tauto.
Qed.

Lemma rstrip_blank_only w : blank_only w -> rstrip w = [].
Proof.
  intros H. unfold rstrip. rewrite blank_only_lstrip; [reflexivity|].
  now apply blank_only_rev.
Qed.

Lemma rstrip_app s a t :
  is_space a = false -> rstrip (s ++ a :: t) = s ++ a :: rstrip t.
Proof.
  intros Ha. unfold rstrip.
  assert (E : rev (s ++ a :: t) = rev t ++ a :: rev s).
  { rewrite rev_app_distr. cbn [rev]. now rewrite <- app_assoc. }
  rewrite E, lstrip_app by exact Ha.
  rewrite rev_app_distr. cbn [rev]. rewrite rev_involutive.
  now rewrite <- app_assoc.
Qed.

(** Either a string is whitespace only, or it has a first character that
    is not. *)
Lemma first_nonspace s :
  blank_only s \/
  exists w a t, s = w ++ a :: t /\ blank_only w /\ is_space a = false.
Proof.
  induction s as [|c s IH]; [now left|].
  destruct (is_space c) eqn:Hc.
  - destruct IH as [IH|(w & a & t & -> & Hw & Ha)].
    + left. now apply blank_only_cons.
    + right. exists (c :: w), a, t. repeat split; [|exact Ha].
      now apply blank_only_cons.
  - right. exists [], c, s. now repeat split.
Qed.

(** ... and then it has a last one too. *)
Lemma last_nonspace s :
  blank_only s \/
  exists p b w, s = p ++ b :: w /\ blank_only w /\ is_space b = false.
Proof.
  destruct (first_nonspace (rev s)) as [H|(w & a & t & E & Hw & Ha)].
  - left. now apply blank_only_rev.
  - right. exists (rev t), a, (rev w). repeat split; [| |exact Ha].
    + rewrite <- (rev_involutive s), E, rev_app_distr. cbn [rev].
      now rewrite <- app_assoc.
    + now apply blank_only_rev.
Qed.

Lemma clean_unfold s : clean s = rstrip (lstrip (collapse s)).
Proof. reflexivity. Qed.

Lemma clean_blank_only s : blank_only s -> clean s = [].
Proof.
  intros H. rewrite clean_unfold.
  now rewrite (blank_only_lstrip _ (collapse_blank_only _ H)).
Qed.

Lemma clean_first w a t :
  blank_only w -> is_space a = false ->
  clean (w ++ a :: t) = a :: rstrip (collapse t).
Proof.
  intros Hw Ha. rewrite clean_unfold, collapse_split by exact Ha.
  rewrite lstrip_blank_app by now apply collapse_blank_only.
  cbn [lstrip]. rewrite Ha. now apply rstrip_cons.
Qed.

Lemma rstrip_collapse_last p b w :
  blank_only w -> is_space b = false ->
  rstrip (collapse (p ++ b :: w)) = collapse p ++ [b].
Proof.
  intros Hw Hb. rewrite collapse_split, rstrip_app by exact Hb.
  now rewrite (rstrip_blank_only _ (collapse_blank_only _ Hw)).
Qed.

Lemma rstrip_collapse_blank t v :
  blank_only v -> rstrip (collapse (t ++ v)) = rstrip (collapse t).
Proof.
  intros Hv. destruct (last_nonspace t) as [Ht|(p & b & w & -> & Hw & Hb)].
  - rewrite !rstrip_blank_only; [reflexivity| |];
      apply collapse_blank_only; [exact Ht|now apply blank_only_app].
  - rewrite <- app_assoc, <- app_comm_cons.
    rewrite !rstrip_collapse_last; [reflexivity|exact Hw|exact Hb| |exact Hb].
    now apply blank_only_app.
Qed.

Lemma rstrip_collapse_le t w :
  blank_only w -> length (rstrip (collapse t)) <= length (collapse (t ++ w)).
Proof.
  intros Hw. destruct (last_nonspace t) as [Ht|(p & b & w' & -> & Hw' & Hb)].
  - rewrite rstrip_blank_only by now apply collapse_blank_only. simpl. lia.
  - rewrite rstrip_collapse_last by assumption.
    rewrite <- app_assoc, <- app_comm_cons, collapse_split by exact Hb.
    rewrite !length_app. simpl. lia.
Qed.

Lemma rstrip_collapse_app t v :
  length (rstrip (collapse t)) + length (clean v)
  <= length (rstrip (collapse (t ++ v))).
Proof.
  destruct (first_nonspace v) as [Hv|(w & a & t2 & -> & Hw & Ha)].
  - rewrite clean_blank_only, rstrip_collapse_blank by exact Hv. simpl. lia.
  - rewrite clean_first by assumption.
    rewrite app_assoc, collapse_split, rstrip_app by exact Ha.
    pose proof (rstrip_collapse_le t w Hw).
    rewrite length_app. simpl. lia.
Qed.

(** The cleaned length of a concatenation is at least the sum of the
    cleaned lengths of its parts. *)
Lemma clean_app_length u v :
  length (clean u) + length (clean v) <= length (clean (u ++ v)).
Proof.
  destruct (first_nonspace u) as [Hu|(w & a & t & -> & Hw & Ha)].
  - rewrite (clean_blank_only u Hu).
    destruct (first_nonspace v) as [Hv|(w & a & t & -> & Hw & Ha)].
    + rewrite !clean_blank_only; [simpl; lia| |exact Hv].
      now apply blank_only_app.
    + assert (Huw : blank_only (u ++ w)) by now apply blank_only_app.
      rewrite app_assoc, (clean_first (u ++ w)), (clean_first w) by assumption.
      simpl. lia.
  - rewrite <- app_assoc, <- app_comm_cons, !clean_first by assumption.
    pose proof (rstrip_collapse_app t v). simpl. lia.
Qed.

(** ** Trees *)

Lemma elem_tree_ind (P : elem -> Prop) :
  (forall i t a x c tl, Forall P c -> P (Elem i t a x c tl)) ->
  forall e, P e.
Proof.
  intros H. fix IH 1. intros [i t a x c tl]. apply H.
  induction c as [|k c IHc]; constructor; [apply IH|exact IHc].
Qed.

Lemma descendants_children e k : In k (children e) -> In k (descendants e).
Proof.
  destruct e as [i t a x c tl]. cbn [children descendants].
  intros Hk. apply in_flat_map. exists k. split; [exact Hk|now left].
Qed.

Lemma sublist_map {A B} (f : A -> B) (l1 l2 : list A) :
  sublist l1 l2 -> sublist (map f l1) (map f l2).
Proof.
  induction 1; simpl; [constructor|now apply sublist_skip|now apply sublist_cons].
Qed.

Lemma sublist_flat_map_in {A B} (f : A -> list B) (k : A) (c : list A) :
  In k c -> sublist (f k) (flat_map f c).
Proof.
  induction c as [|k' c IH]; [intros []|].
  intros [->|Hk]; cbn [flat_map].
  - apply sublist_inserts_r. reflexivity.
  - apply sublist_inserts_l. now apply IH.
Qed.

(** The nodes of a subtree keep their order in the whole tree. *)
Lemma iter_sublist root g : In g (iter root) -> sublist (iter g) (iter root).
Proof.
  induction root as [i t a x c tl IH] using elem_tree_ind.
  intros [<-|Hg]; [reflexivity|].
  cbn [descendants] in Hg. apply in_flat_map in Hg as (k & Hk & Hg).
  rewrite List.Forall_forall in IH.
  unfold iter at 2. cbn [descendants]. apply sublist_cons.
  etransitivity; [apply (IH k Hk Hg)|].
  apply (sublist_flat_map_in (fun k => k :: descendants k) k c Hk).
Qed.

Lemma wf_subtree root g : wf root -> In g (iter root) -> wf g.
Proof.
  unfold wf. intros H Hg.
  eapply sublist_NoDup; [exact H|]. apply sublist_map, iter_sublist, Hg.
Qed.

Lemma existsb_uid u c :
  existsb (fun k => uid k =? u) c = true -> exists k, In k c /\ uid k = u.
Proof.
  intros H. apply existsb_exists in H as (k & Hk & E).
  exists k. split; [exact Hk|now apply Nat.eqb_eq].
Qed.

(** [parent_in] finds a node of the tree that has a child with the
    identifier asked for. *)
Lemma parent_in_spec root u p :
  parent_in root u = Some p ->
  In p (iter root) /\ exists k, In k (children p) /\ uid k = u.
Proof.
  induction root as [i t a x c tl IH] using elem_tree_ind.
  cbn [parent_in].
  destruct (existsb (fun k => uid k =? u) c) eqn:E.
  - intros [= <-]. split; [now left|]. now apply existsb_uid.
  - clear E. intros H.
    assert (Hc : exists k, In k c /\ parent_in k u = Some p).
    { clear IH. induction c as [|k c IHc]; [discriminate|].
      destruct (parent_in k u) eqn:Ek.
      - exists k. split; [now left|congruence].
      - destruct (IHc H) as (k' & Hk' & Hp). exists k'. split; [now right|exact Hp]. }
    destruct Hc as (k & Hk & Hp).
    rewrite List.Forall_forall in IH. destruct (IH k Hk Hp) as [Hin Hch].
    split; [|exact Hch]. right. cbn [descendants].
    apply in_flat_map. exists k. split; [exact Hk|exact Hin].
Qed.

(** In a tree with unique identifiers a node is not its own child. *)
Lemma parent_in_neq root u p :
  wf root -> parent_in root u = Some p -> uid p <> u.
Proof.
  intros Hwf Hp. apply parent_in_spec in Hp as (Hin & k & Hk & <-).
  pose proof (wf_subtree root p Hwf Hin) as Hwp. unfold wf, iter in Hwp.
  cbn [map] in Hwp. apply NoDup_cons in Hwp as [Hni _].
  intros E. apply Hni. rewrite E. apply list_elem_of_In, in_map.
  now apply descendants_children.
Qed.

(** ** The candidates dict *)

Lemma dict_get_set_eq {V} k (v : V) d : Dict.get k (Dict.set k v d) = Some v.
Proof.
  induction d as [|[k' v'] d IH]; simpl.
  - now rewrite Nat.eqb_refl.
  - destruct (k' =? k) eqn:E; simpl; [now rewrite Nat.eqb_refl|now rewrite E].
Qed.

Lemma dict_get_set_ne {V} k k' (v : V) d :
  k <> k' -> Dict.get k' (Dict.set k v d) = Dict.get k' d.
Proof.
  intros Hne. induction d as [|[k0 v0] d IH]; simpl.
  - apply Nat.eqb_neq in Hne. now rewrite Hne.
  - destruct (k0 =? k) eqn:E; simpl.
    + apply Nat.eqb_eq in E. subst k0. apply Nat.eqb_neq in Hne. now rewrite Hne.
    + destruct (k0 =? k'); [reflexivity|exact IH].
Qed.

Lemma score_before_ensure n st :
  exists c, Dict.get (uid n) (fst (ensure n st)) = Some c
            /\ content_score c = score_before n (fst st).
Proof.
  destruct st as [cs ordered]. unfold ensure, score_before, Dict.mem. cbn [fst].
  destruct (Dict.get (uid n) cs) as [c|] eqn:E; cbn [fst].
  - exists c. now rewrite E.
  - exists (score_node n). now rewrite dict_get_set_eq.
Qed.

Lemma get_ensure_ne n k st :
  uid n <> k -> Dict.get k (fst (ensure n st)) = Dict.get k (fst st).
Proof.
  destruct st as [cs ordered]. unfold ensure. intros Hne.
  destruct (Dict.mem (uid n) cs); cbn [fst]; [reflexivity|].
  now apply dict_get_set_ne.
Qed.

Lemma get_add_score_eq k x cs c :
  Dict.get k cs = Some c ->
  exists c', Dict.get k (add_score k x cs) = Some c'
             /\ content_score c' = (content_score c + x)%Q.
Proof.
  intros H. unfold add_score. rewrite H. eexists. rewrite dict_get_set_eq.
  split; reflexivity.
Qed.

Lemma get_add_score_ne k k' x cs :
  k <> k' -> Dict.get k' (add_score k x cs) = Dict.get k' cs.
Proof.
  intros Hne. unfold add_score. destruct (Dict.get k cs); [|reflexivity].
  now apply dict_get_set_ne.
Qed.

Lemma paragraph_score_commas inner :
  (paragraph_score inner
   == 2 + inject_Z (Z.of_nat (count_chr comma inner))
        + Qmin (Z.of_nat (length inner) # 100) 3)%Q.
Proof.
  unfold paragraph_score, split_len.
  rewrite Nat2Z.inj_succ, <- Z.add_1_l, inject_Z_plus. ring.
Qed.

(** ** The scorer *)

(** C1 (as the code has it). For a paragraph-like element with a parent and
    cleaned text of at least [MIN_LEN] characters, the scorer adds to the
    parent candidate the per-paragraph score, which is
    [2 + (number of commas) + min(len/100, 3)] (the count of comma-separated
    pieces is one more than the count of commas), and adds exactly half of
    the same amount to the grandparent candidate when there is one. *)
Theorem score_paragraph_adds (root : elem) (MIN_LEN : nat) (cs : candidates)
    (ordered : list elem) (el parent_node : elem) :
  wf root ->
  parent_in root (uid el) = Some parent_node ->
  MIN_LEN <= length (clean (text_content el)) ->
  let inner := clean (text_content el) in
  let cs' := fst (score_paragraph root MIN_LEN (cs, ordered) el) in
  (paragraph_score inner
   == 2 + inject_Z (Z.of_nat (count_chr comma inner))
        + Qmin (Z.of_nat (length inner) # 100) 3)%Q
  /\ (exists c, Dict.get (uid parent_node) cs' = Some c
                /\ content_score c
                   = (score_before parent_node cs + paragraph_score inner)%Q)
  /\ (forall g, parent_in root (uid parent_node) = Some g ->
        exists c, Dict.get (uid g) cs' = Some c
                  /\ content_score c
                     = (score_before g cs + paragraph_score inner / 2)%Q).
Proof.
  intros Hwf Hp Hlen inner cs'. split; [apply paragraph_score_commas|].
  subst cs'. unfold score_paragraph. rewrite Hp.
  fold inner. apply Nat.ltb_ge in Hlen. fold inner in Hlen. rewrite Hlen.
  set (x := paragraph_score inner).
  set (st1 := ensure parent_node (cs, ordered)).
  destruct (score_before_ensure parent_node (cs, ordered)) as (c1 & Hc1 & Hs1).
  fold st1 in Hc1. cbn [fst] in Hs1.
  destruct (parent_in root (uid parent_node)) as [g|] eqn:Hg.
  - pose proof (parent_in_neq root _ g Hwf Hg) as Hne.
    set (st2 := ensure g st1).
    destruct (score_before_ensure g st1) as (c2 & Hc2 & Hs2). fold st2 in Hc2.
    assert (Hp2 : Dict.get (uid parent_node) (fst st2) = Some c1).
    { unfold st2. now rewrite get_ensure_ne. }
    assert (Hs2' : content_score c2 = score_before g cs).
    { rewrite Hs2. unfold score_before, st1.
      now rewrite (get_ensure_ne parent_node (uid g) (cs, ordered)) by congruence. }
    destruct st2 as [cs2 ord2]. cbn [fst] in *.
    destruct (get_add_score_eq (uid parent_node) x cs2 c1 Hp2) as (c1' & Hc1' & Hs1').
    split.
    + exists c1'. split; [|congruence].
      now rewrite get_add_score_ne.
    + intros g' [= <-].
      assert (Hg3 : Dict.get (uid g) (add_score (uid parent_node) x cs2) = Some c2).
      { rewrite get_add_score_ne by congruence. exact Hc2. }
      destruct (get_add_score_eq (uid g) (x / 2)%Q _ c2 Hg3) as (c2' & Hc2' & Hs2'').
      exists c2'. split; [exact Hc2'|congruence].
  - destruct st1 as [cs1 ord1]. cbn [fst] in *.
    destruct (get_add_score_eq (uid parent_node) x cs1 c1 Hc1) as (c1' & Hc1' & Hs1').
    split; [|discriminate].
    exists c1'. split; [exact Hc1'|congruence].
Qed.

Lemma wf_doc_one_paragraph : wf doc_one_paragraph.
Proof. apply (bool_decide_eq_true_1 _). vm_compute. reflexivity. Qed.

Lemma score_paragraph_adds_witness :
  let inner := clean (text_content p_one) in
  let cs' := fst (score_paragraph doc_one_paragraph 25 ([], []) p_one) in
  (paragraph_score inner
   == 2 + inject_Z (Z.of_nat (count_chr comma inner))
        + Qmin (Z.of_nat (length inner) # 100) 3)%Q
  /\ (exists c, Dict.get (uid div_one) cs' = Some c
                /\ content_score c
                   = (score_before div_one [] + paragraph_score inner)%Q)
  /\ (forall g, parent_in doc_one_paragraph (uid div_one) = Some g ->
        exists c, Dict.get (uid g) cs' = Some c
                  /\ content_score c
                     = (score_before g [] + paragraph_score inner / 2)%Q).
Proof.
  apply (score_paragraph_adds doc_one_paragraph 25 [] [] p_one div_one).
  - apply wf_doc_one_paragraph.
  - vm_compute. reflexivity.
  - vm_compute. lia.
Defined.

(** C1 as the specification words it fails: for one paragraph of 25 letters
    and no comma under a fresh [<div>], the parent's score grows by 2.25,
    not by [1 + 0 + 0.25]. *)
Lemma score_paragraph_not_spec :
  exists c,
    Dict.get (uid div_one)
      (fst (score_paragraph doc_one_paragraph 25 ([], []) p_one)) = Some c
    /\ content_score c == 29 # 4
    /\ ~ (content_score c
          == score_before div_one []
             + spec_content_score (clean (text_content p_one)))%Q.
Proof.
  eexists. split; [vm_compute; reflexivity|]. split.
  - vm_compute. reflexivity.
  - intros H. vm_compute in H. discriminate H.
Qed.

(** ** Link density *)

Lemma fold_left_text l n :
  fold_left (fun acc i => acc + text_length i) l n = n + sum_text l.
Proof.
  revert n. induction l as [|i l IH]; intros n; simpl; [lia|].
  rewrite IH. lia.
Qed.

Lemma link_length_sum e : link_length e = sum_text (findall e "a").
Proof. unfold link_length. now rewrite fold_left_text. Qed.

Lemma sum_text_app l1 l2 : sum_text (l1 ++ l2) = sum_text l1 + sum_text l2.
Proof. induction l1 as [|i l1 IH]; simpl; [reflexivity|]. rewrite IH. lia. Qed.

Lemma children_links_le (c : list elem) :
  Forall (fun k => no_nested_links k = true -> link_length k <= text_length k) c ->
  forallb (fun d => negb (has_tag "a" d)
                    || match findall d "a" with [] => true | _ => false end)
          (flat_map (fun k => k :: descendants k) c) = true ->
  sum_text (filter (fun d => has_tag "a" d = true)
                   (flat_map (fun k => k :: descendants k) c))
  <= length (clean (flat_map (fun k => text_content k ++ tail k) c)).
Proof.
  induction c as [|k c IHc]; intros IH Hq; [simpl; lia|].
  apply Forall_cons_iff in IH as [IHk IH].
  cbn [flat_map] in *. rewrite forallb_app in Hq.
  apply andb_true_iff in Hq as [Hk Hq]. cbn [forallb] in Hk.
  apply andb_true_iff in Hk as [Hk Hd].
  rewrite filter_app, sum_text_app.
  specialize (IHc IH Hq).
  pose proof (clean_app_length (text_content k ++ tail k)
                (flat_map (fun k => text_content k ++ tail k) c)) as H1.
  pose proof (clean_app_length (text_content k) (tail k)) as H2.
  assert (Hle : sum_text (filter (fun d => has_tag "a" d = true) (k :: descendants k))
                <= text_length k).
  { rewrite filter_cons. change (filter _ (descendants k)) with (findall k "a").
    destruct (decide (has_tag "a" k = true)) as [Ha|Ha].
    - rewrite Ha in Hk. cbn [negb orb] in Hk.
      destruct (findall k "a"); [simpl; lia|discriminate].
    - rewrite <- link_length_sum. apply IHk. exact Hd. }
  unfold text_length in Hle. lia.
Qed.

(** Without a link inside a link, the text of the links is part of the
    text of the element. *)
Lemma link_length_le e :
  no_nested_links e = true -> link_length e <= text_length e.
Proof.
  induction e as [i t a x c tl IH] using elem_tree_ind.
  intros Hq. rewrite link_length_sum. unfold findall, no_nested_links in *.
  cbn [descendants] in *.
  pose proof (children_links_le c IH Hq) as H.
  unfold text_length. cbn [text_content].
  pose proof (clean_app_length x (flat_map (fun k => text_content k ++ tail k) c)).
  lia.
Qed.

Lemma pos_of_nat_max n : Z.pos (Pos.of_nat (Nat.max n 1)) = Z.of_nat (Nat.max n 1).
Proof.
  rewrite <- positive_nat_Z, Nat2Pos.id; [reflexivity|lia].
Qed.

(** C7 (as the code has it). The link density of every element is at least
    0; it is at most 1 for every element in which no [<a>] lies inside
    another [<a>]. *)
Theorem link_density_bounds (e : elem) :
  (0 <= get_link_density e)%Q
  /\ (no_nested_links e = true -> (get_link_density e <= 1)%Q).
Proof.
  unfold get_link_density, Qle. cbn [Qnum Qden]. split.
  - lia.
  - intros H. apply link_length_le in H.
    rewrite pos_of_nat_max. lia.
Qed.

Lemma link_density_bounds_witness :
  no_nested_links div_one_link = true
  /\ (0 <= get_link_density div_one_link)%Q
  /\ (get_link_density div_one_link <= 1)%Q.
Proof.
  split; [vm_compute; reflexivity|].
  destruct (link_density_bounds div_one_link) as [H0 H1].
  split; [exact H0|]. apply H1. vm_compute. reflexivity.
Defined.

(** C7 as stated fails: with a link inside a link the inner text is counted
    twice, and the density of [<div><a>x<b><a>yy</a></b></a></div>] is
    5/3. *)
Lemma link_density_above_one :
  get_link_density div_nested_links == 5 # 3
  /\ ~ (get_link_density div_nested_links <= 1)%Q.
Proof.
  split; [vm_compute; reflexivity|].
  intros H. vm_compute in H. apply H. reflexivity.
Qed.

(** ** The sanitizer *)

Lemma lookup_uid_uid root u el : lookup_uid root u = Some el -> uid el = u.
Proof.
  unfold lookup_uid. intros H. apply find_some in H as [_ H].
  now apply Nat.eqb_eq.
Qed.

(** With [x = 1] a sibling loop stops at the first sibling that has text:
    [i =+ 1] makes the counter 1 there. *)
Lemma scan_siblings_first i acc sibs :
  scan_siblings 1 i acc sibs = acc ++ first_nonempty sibs.
Proof.
  unfold first_nonempty. revert i acc.
  induction sibs as [|sib rest IH]; intros i acc; cbn [scan_siblings List.find].
  - now rewrite app_nil_r.
  - destruct (0 <? text_length sib); [reflexivity|apply IH].
Qed.

Lemma sibling_lengths_spec root u :
  sibling_lengths root u
  = first_nonempty (itersiblings root u)
    ++ first_nonempty (itersiblings_preceding root u).
Proof. unfold sibling_lengths. now rewrite !scan_siblings_first. Qed.

Lemma first_nonempty_length sibs : length (first_nonempty sibs) <= 1.
Proof. unfold first_nonempty. destruct (List.find _ sibs); simpl; lia. Qed.

Lemma judge_embeds MIN_LEN root el weight allowed :
  removal_reason MIN_LEN el weight = Some too_many_embeds ->
  judge MIN_LEN root el weight allowed
  = if spec_rescue root (uid el)
    then (false, allowed ∪ list_to_set (map uid (tags el ["table"; "ul"; "div"])))
    else (true, allowed).
Proof.
  intros H. unfold judge, spec_rescue. rewrite H, sibling_lengths_spec.
  set (l := first_nonempty _ ++ first_nonempty _).
  destruct (1000 <? list_sum l) eqn:E; [|now rewrite andb_false_r].
  rewrite andb_true_r. destruct l; [discriminate|reflexivity].
Qed.

(** Any other reason removes the element whatever its siblings are. *)
Lemma judge_other MIN_LEN root el weight allowed r :
  removal_reason MIN_LEN el weight = Some r -> r <> too_many_embeds ->
  judge MIN_LEN root el weight allowed = (true, allowed).
Proof.
  intros H Hr. unfold judge. rewrite H. now destruct r.
Qed.

(** C2 (as the code has it). When the last rule of the chain (too many
    [<embed>]s) marks a [<table>], [<ul>] or [<div>] for removal, the
    sibling rescue runs before the removal: it looks at no more than the
    first following and the first preceding sibling whose [text_length] is
    positive, and if their text lengths sum to more than 1000 the element
    stays and its descendant [table]/[ul]/[div] elements join the allowed
    set; otherwise the element is dropped. *)
Theorem sibling_rescue_embeds (MIN_LEN : nat) (cs : candidates) (node : elem)
    (allowed : gset nat) (u : nat) (el : elem) :
  u ∉ allowed ->
  lookup_uid node u = Some el ->
  Qltb (inject_Z (class_weight el) + candidate_score cs u) 0 = false ->
  count_chr comma (text_content el) < 10 ->
  removal_reason MIN_LEN el (class_weight el) = Some too_many_embeds ->
  length (sibling_lengths node u) <= 2
  /\ sibling_lengths node u
     = first_nonempty (itersiblings node u)
       ++ first_nonempty (itersiblings_preceding node u)
  /\ clean_conditionally MIN_LEN cs (node, allowed) u
     = if 1000 <? list_sum (sibling_lengths node u)
       then (node,
             allowed ∪ list_to_set (map uid (tags el ["table"; "ul"; "div"])))
       else (drop_tree u node, allowed).
Proof.
  intros Hal Hel Hw Hc Hr. split; [|split].
  - rewrite sibling_lengths_spec, length_app.
    pose proof (first_nonempty_length (itersiblings node u)).
    pose proof (first_nonempty_length (itersiblings_preceding node u)). lia.
  - apply sibling_lengths_spec.
  - unfold clean_conditionally.
    rewrite bool_decide_eq_false_2 by exact Hal.
    rewrite Hel, Hw. apply Nat.ltb_lt in Hc. rewrite Hc.
    rewrite (judge_embeds _ _ _ _ _ Hr), (lookup_uid_uid _ _ _ Hel).
    unfold spec_rescue. rewrite <- sibling_lengths_spec.
    now destruct (1000 <? list_sum (sibling_lengths node u)).
Qed.

Lemma sibling_rescue_embeds_witness :
  length (sibling_lengths article_embeds 2) <= 2
  /\ sibling_lengths article_embeds 2
     = first_nonempty (itersiblings article_embeds 2)
       ++ first_nonempty (itersiblings_preceding article_embeds 2)
  /\ clean_conditionally 25 [] (article_embeds, ∅) 2
     = if 1000 <? list_sum (sibling_lengths article_embeds 2)
       then (article_embeds,
             ∅ ∪ list_to_set (map uid (tags div_embeds ["table"; "ul"; "div"])))
       else (drop_tree 2 article_embeds, ∅).
Proof.
  apply (sibling_rescue_embeds 25 [] article_embeds ∅ 2 div_embeds).
  - apply not_elem_of_empty.
  - vm_compute. reflexivity.
  - vm_compute. reflexivity.
  - vm_compute. lia.
  - vm_compute. reflexivity.
Defined.

(** C2 as stated fails twice.  A [<div>] that is too short (the fourth
    rule) between siblings of 1001 and 1 characters is dropped although the
    rescue condition holds; and when the rescue does run, for a [<div>] with
    two [<embed>]s, the allowed set receives the descendant [<ul>] but not
    the [<div>] itself. *)
Lemma sibling_rescue_only_for_embeds :
  (removal_reason 25 div_short (class_weight div_short) = Some too_short
   /\ spec_rescue article_short 2 = true
   /\ lookup_uid article_short 2 = Some div_short
   /\ lookup_uid (fst (clean_conditionally 25 [] (article_short, ∅) 2)) 2 = None)
  /\ (removal_reason 25 div_embeds (class_weight div_embeds) = Some too_many_embeds
      /\ spec_rescue article_embeds 2 = true
      /\ fst (clean_conditionally 25 [] (article_embeds, ∅) 2) = article_embeds
      /\ elements (snd (clean_conditionally 25 [] (article_embeds, ∅) 2)) = [6]
      /\ 2 ∉ snd (clean_conditionally 25 [] (article_embeds, ∅) 2)).
Proof.
  split; [repeat split; vm_compute; reflexivity|].
  repeat split; try (vm_compute; reflexivity).
  intros H. apply elem_of_elements in H.
  assert (E : elements (snd (clean_conditionally 25 [] (article_embeds, ∅) 2)) = [6])
    by (vm_compute; reflexivity).
  rewrite E in H. apply list_elem_of_singleton in H. discriminate H.
Qed.

(** ** The meta collector *)

Section CollectorProofs.

Import Document.

Variable fragment_fromstring : str -> option elem.
Variable domain : option str.

Lemma fold_addMeta_raise l e :
  fold_left (addMeta_step fragment_fromstring domain) l (Raise e) = Raise e.
Proof. induction l as [|m l IH]; [reflexivity|exact IH]. Qed.

Lemma fold_addProps_raise html l e :
  fold_left (addProps_step fragment_fromstring html) l (Raise e) = Raise e.
Proof. induction l as [|m l IH]; [reflexivity|exact IH]. Qed.

Lemma uid_set_uid n e : uid (set_uid n e) = n.
Proof. now destruct e. Qed.

(** One step of the meta pass on a [<meta>] of the property set whose
    content differs from what [dedupe] holds and parses. *)
Lemma addMeta_step_new c meta el prop content e :
  meta_prop el = Some prop ->
  in_list prop METAPROPS = true ->
  strip (assoc (lit "content") (attrib el)) domain = Some content ->
  dedupe_get (dedupe_key prop) (dedupe c) <> Some content ->
  fragment_fromstring (p_html "meta" prop content) = Some e ->
  addMeta_step fragment_fromstring domain (Ok (c, meta)) el
  = Ok ({| dedupe := <[dedupe_key prop := Some content]> (dedupe c);
           base := insert0 (set_uid (fresh c) e) (base c);
           fresh := S (fresh c) |},
        Some (set_uid (fresh c) e)).
Proof.
  intros Hp Hin Hc Hd He. unfold addMeta_step. cbn [mbind exc_bind].
  rewrite Hp, Hin, Hc. rewrite bool_decide_eq_true_2 by exact Hd.
  rewrite He. reflexivity.
Qed.

(** ... and on one whose content is what [dedupe] holds already. *)
Lemma addMeta_step_same c meta el prop content :
  meta_prop el = Some prop ->
  in_list prop METAPROPS = true ->
  strip (assoc (lit "content") (attrib el)) domain = Some content ->
  dedupe_get (dedupe_key prop) (dedupe c) = Some content ->
  addMeta_step fragment_fromstring domain (Ok (c, meta)) el
  = Ok ({| dedupe := <[dedupe_key prop := Some content]> (dedupe c);
           base := base c; fresh := fresh c |}, meta).
Proof.
  intros Hp Hin Hc Hd. unfold addMeta_step. cbn [mbind exc_bind].
  rewrite Hp, Hin, Hc. rewrite bool_decide_eq_false_2; [reflexivity|].
  intros H. now apply H.
Qed.

Lemma dedupe_get_insert key v d : dedupe_get key (<[key := v]> d) = v.
Proof. unfold dedupe_get. now rewrite lookup_insert_eq. Qed.

Lemma dedupe_get_empty key : dedupe_get key ∅ = None.
Proof. unfold dedupe_get. now rewrite lookup_empty. Qed.

(** C4. A fragment that fails to parse is meant to be passed over without
    an exception.  In the code [base.insert(0, meta)] stands after the
    [try], so when the first [<meta>] of the property set fails to parse,
    [meta] is unbound and [UnboundLocalError] leaves [addMeta] and
    [collectMetaTags]. *)
Theorem addMeta_first_failure_escapes (html : elem) (n : nat) (el : elem)
    (rest : list elem) (prop content : str) :
  findall html "meta" = el :: rest ->
  meta_prop el = Some prop ->
  in_list prop METAPROPS = true ->
  strip (assoc (lit "content") (attrib el)) domain = Some content ->
  fragment_fromstring (p_html "meta" prop content) = None ->
  addMeta fragment_fromstring domain html {| dedupe := ∅; base := []; fresh := n |}
  = Raise UnboundLocalError
  /\ collectMetaTags fragment_fromstring domain html n = Raise UnboundLocalError.
Proof.
  intros Hl Hp Hin Hc Hf.
  assert (H : addMeta fragment_fromstring domain html
                {| dedupe := ∅; base := []; fresh := n |} = Raise UnboundLocalError).
  { unfold addMeta. rewrite Hl. cbn [fold_left].
    replace (addMeta_step fragment_fromstring domain
               (Ok ({| dedupe := ∅; base := []; fresh := n |}, None)) el)
      with (@Raise (collector * option elem) UnboundLocalError).
    - now rewrite fold_addMeta_raise.
    - unfold addMeta_step. cbn [mbind exc_bind].
      rewrite Hp, Hin, Hc. cbn [dedupe]. rewrite dedupe_get_empty.
      rewrite bool_decide_eq_true_2 by discriminate.
      now rewrite Hf. }
  split; [exact H|]. unfold collectMetaTags. now rewrite H.
Qed.

(** The dict after one step of the meta pass that has come back. *)
Lemma addMeta_step_dedupe c meta el c' meta' :
  addMeta_step fragment_fromstring domain (Ok (c, meta)) el = Ok (c', meta') ->
  dedupe c'
  = match meta_prop el with
    | Some prop =>
        if in_list prop METAPROPS
        then <[dedupe_key prop := strip (assoc (lit "content") (attrib el)) domain]>
               (dedupe c)
        else dedupe c
    | None => dedupe c
    end.
Proof.
  unfold addMeta_step. cbn [mbind exc_bind].
  destruct (meta_prop el) as [prop|]; [|now intros [= <- _]].
  destruct (in_list prop METAPROPS); [|now intros [= <- _]].
  destruct (bool_decide _).
  - destruct (strip _ domain) as [content|].
    + destruct (fragment_fromstring _) as [e|].
      * cbn. now intros [= <- _].
      * destruct meta as [m|]; cbn; [now intros [= <- _]|discriminate].
    + destruct meta as [m|]; cbn; [now intros [= <- _]|discriminate].
  - cbn. now intros [= <- _].
Qed.

Lemma dedupe_get_insert_ne k k' v d :
  k' <> k -> dedupe_get k (<[k' := v]> d) = dedupe_get k d.
Proof. intros H. unfold dedupe_get. now rewrite lookup_insert_ne. Qed.

(** A [<meta>] outside the property set changes nothing. *)
Lemma addMeta_step_outside st el :
  (forall prop, meta_prop el = Some prop -> in_list prop METAPROPS = false) ->
  addMeta_step fragment_fromstring domain (Ok st) el = Ok st.
Proof.
  intros H. destruct st as [c meta]. unfold addMeta_step. cbn [mbind exc_bind].
  destruct (meta_prop el) as [prop|]; [|reflexivity].
  now rewrite (H prop eq_refl).
Qed.

Lemma fold_addMeta_outside l st :
  (forall el prop, In el l -> meta_prop el = Some prop ->
                   in_list prop METAPROPS = false) ->
  fold_left (addMeta_step fragment_fromstring domain) l (Ok st) = Ok st.
Proof.
  induction l as [|el l IH]; intros H; [reflexivity|]. cbn [fold_left].
  rewrite addMeta_step_outside; [|intros prop; apply H; now left].
  apply IH. intros el' prop Hin. apply H. now right.
Qed.

(** A run that has come back had come back at every point before. *)
Lemma fold_addMeta_prefix l l' st r :
  fold_left (addMeta_step fragment_fromstring domain) (l ++ l') st = Ok r ->
  exists r0, fold_left (addMeta_step fragment_fromstring domain) l st = Ok r0.
Proof.
  rewrite fold_left_app.
  destruct (fold_left _ l st) as [r0|e]; [eauto|].
  now rewrite fold_addMeta_raise.
Qed.

(** Tags of other keys leave the entry of a key as it is. *)
Lemma fold_addMeta_keeps k l st st' :
  (forall el prop, In el l -> meta_prop el = Some prop ->
                   in_list prop METAPROPS = true -> dedupe_key prop <> k) ->
  fold_left (addMeta_step fragment_fromstring domain) l (Ok st) = Ok st' ->
  dedupe_get k (dedupe (fst st')) = dedupe_get k (dedupe (fst st)).
Proof.
  revert st. induction l as [|el l IH]; intros st H Hf.
  - now injection Hf as <-.
  - cbn [fold_left] in Hf.
    destruct (addMeta_step fragment_fromstring domain (Ok st) el) as [st1|e] eqn:E;
      [|now rewrite fold_addMeta_raise in Hf].
    rewrite (IH st1); [|intros el' prop Hin; apply H; now right|exact Hf].
    destruct st as [c meta], st1 as [c1 meta1]. cbn [fst].
    rewrite (addMeta_step_dedupe _ _ _ _ _ E).
    destruct (meta_prop el) as [prop|] eqn:Ep; [|reflexivity].
    destruct (in_list prop METAPROPS) eqn:Ei; [|reflexivity].
    apply dedupe_get_insert_ne. apply (H el prop); [now left|exact Ep|exact Ei].
Qed.

(** After a tag of the property set the dict holds its content under its
    key; tags of other keys after it leave that as it is. *)
Lemma fold_addMeta_recorded l1 m mid st r prop content :
  meta_prop m = Some prop ->
  in_list prop METAPROPS = true ->
  strip (assoc (lit "content") (attrib m)) domain = Some content ->
  (forall el prop', In el mid -> meta_prop el = Some prop' ->
                    in_list prop' METAPROPS = true ->
                    dedupe_key prop' <> dedupe_key prop) ->
  fold_left (addMeta_step fragment_fromstring domain) (l1 ++ m :: mid) st = Ok r ->
  dedupe_get (dedupe_key prop) (dedupe (fst r)) = Some content.
Proof.
  intros Hp Hin Hc Hmid Hf. rewrite fold_left_app in Hf. cbn [fold_left] in Hf.
  destruct (fold_left _ l1 st) as [[cb mb]|e];
    [|cbn in Hf; now rewrite fold_addMeta_raise in Hf].
  destruct (addMeta_step fragment_fromstring domain (Ok (cb, mb)) m)
    as [[ca ma]|e] eqn:E; [|now rewrite fold_addMeta_raise in Hf].
  rewrite (fold_addMeta_keeps _ mid (ca, ma) r Hmid Hf). cbn [fst].
  rewrite (addMeta_step_dedupe _ _ _ _ _ E), Hp, Hin, Hc.
  apply dedupe_get_insert.
Qed.

(** C6 (as the code has it). Two [<meta>] tags of the property set with
    the same dedupe key, anywhere among the [<meta>] tags of a document.
    [dedupe] keeps the last content of a key, so when no tag of that key
    stands between the two, the second is compared with the first: with
    the same content (after the optional domain strip) it adds no [<p>],
    with another content it adds its [<p>] in front.  When all the other
    [<meta>] tags are outside the property set, the container ends with
    one [<p>] for identical contents and with both, the second in front,
    for different ones. *)
Theorem meta_dedupe (html : elem) (l1 mid l2 : list elem) (m1 m2 : elem)
    (prop1 prop2 content1 content2 : str) :
  findall html "meta" = l1 ++ m1 :: mid ++ m2 :: l2 ->
  meta_prop m1 = Some prop1 ->
  meta_prop m2 = Some prop2 ->
  in_list prop1 METAPROPS = true ->
  in_list prop2 METAPROPS = true ->
  dedupe_key prop1 = dedupe_key prop2 ->
  strip (assoc (lit "content") (attrib m1)) domain = Some content1 ->
  strip (assoc (lit "content") (attrib m2)) domain = Some content2 ->
  (forall c0 c meta,
     (forall el prop, In el mid -> meta_prop el = Some prop ->
                      in_list prop METAPROPS = true ->
                      dedupe_key prop <> dedupe_key prop1) ->
     fold_left (addMeta_step fragment_fromstring domain) (l1 ++ m1 :: mid)
               (Ok (c0, None)) = Ok (c, meta) ->
     (content1 = content2 ->
      exists c',
        addMeta_step fragment_fromstring domain (Ok (c, meta)) m2 = Ok (c', meta)
        /\ base c' = base c /\ fresh c' = fresh c)
     /\ (content1 <> content2 ->
         forall p2, fragment_fromstring (p_html "meta" prop2 content2) = Some p2 ->
         exists c',
           addMeta_step fragment_fromstring domain (Ok (c, meta)) m2
           = Ok (c', Some (set_uid (fresh c) p2))
           /\ base c' = insert0 (set_uid (fresh c) p2) (base c)))
  /\ (forall n p1 p2,
        (forall el prop, In el (l1 ++ mid ++ l2) -> meta_prop el = Some prop ->
                         in_list prop METAPROPS = false) ->
        fragment_fromstring (p_html "meta" prop1 content1) = Some p1 ->
        fragment_fromstring (p_html "meta" prop2 content2) = Some p2 ->
        exists c,
          addMeta fragment_fromstring domain html
            {| dedupe := ∅; base := []; fresh := n |} = Ok c
          /\ (content1 = content2 -> base c = [set_uid n p1])
          /\ (content1 <> content2 -> base c = [set_uid (S n) p2; set_uid n p1])).
Proof.
  intros Hl Hp1 Hp2 Hin1 Hin2 Hk Hc1 Hc2. split.
  - intros c0 c meta Hmid Hf.
    pose proof (fold_addMeta_recorded l1 m1 mid _ _ prop1 content1
                  Hp1 Hin1 Hc1 Hmid Hf) as Hd.
    cbn [fst] in Hd. rewrite Hk in Hd. split.
    + intros E. subst content2.
      rewrite (addMeta_step_same _ meta m2 prop2 content1 Hp2 Hin2 Hc2 Hd).
      eexists. split; [reflexivity|]. split; reflexivity.
    + intros E p2 Hf2.
      rewrite (addMeta_step_new _ meta m2 prop2 content2 p2 Hp2 Hin2 Hc2);
        [|rewrite Hd; congruence|exact Hf2].
      eexists. split; [reflexivity|]. reflexivity.
  - intros n p1 p2 Hout Hf1 Hf2.
    assert (Ho1 : forall el prop, In el l1 -> meta_prop el = Some prop ->
                                  in_list prop METAPROPS = false).
    { intros el prop Hel. apply Hout. apply in_or_app. now left. }
    assert (Ho2 : forall el prop, In el mid -> meta_prop el = Some prop ->
                                  in_list prop METAPROPS = false).
    { intros el prop Hel. apply Hout. apply in_or_app. right.
      apply in_or_app. now left. }
    assert (Ho3 : forall el prop, In el l2 -> meta_prop el = Some prop ->
                                  in_list prop METAPROPS = false).
    { intros el prop Hel. apply Hout. apply in_or_app. right.
      apply in_or_app. now right. }
    unfold addMeta. rewrite Hl, fold_left_app, (fold_addMeta_outside l1 _ Ho1).
    cbn [fold_left].
    rewrite (addMeta_step_new _ _ m1 prop1 content1 p1 Hp1 Hin1 Hc1); cycle 1.
    { cbn [dedupe]. rewrite dedupe_get_empty. discriminate. }
    { exact Hf1. }
    cbn [dedupe base fresh]. unfold insert0 at 1. rewrite filter_nil.
    rewrite fold_left_app, (fold_addMeta_outside mid _ Ho2). cbn [fold_left].
    destruct (decide (content1 = content2)) as [E|E].
    + rewrite (addMeta_step_same _ _ m2 prop2 content2 Hp2 Hin2 Hc2); cycle 1.
      { cbn [dedupe]. rewrite <- Hk, dedupe_get_insert. now f_equal. }
      rewrite (fold_addMeta_outside l2 _ Ho3).
      cbn [mbind exc_bind fst]. eexists. split; [reflexivity|].
      cbn [base]. split; [reflexivity|]. intros H. now destruct H.
    + rewrite (addMeta_step_new _ _ m2 prop2 content2 p2 Hp2 Hin2 Hc2); cycle 1.
      { cbn [dedupe]. rewrite <- Hk, dedupe_get_insert. congruence. }
      { exact Hf2. }
      rewrite (fold_addMeta_outside l2 _ Ho3).
      cbn [mbind exc_bind fst]. eexists. split; [reflexivity|].
      cbn [base fresh]. split; [intros H; now destruct E|]. intros _.
      unfold insert0. rewrite filter_cons_True, filter_nil; [reflexivity|].
      rewrite !uid_set_uid. lia.
Qed.

(** The dict after one step of the itemprop pass that has come back. *)
Lemma addProps_step_dedupe html c el c' :
  addProps_step fragment_fromstring html (Ok c) el = Ok c' ->
  dedupe c' = dedupe c
  \/ exists itemprop v,
       assoc (lit "itemprop") (attrib el) = Some itemprop
       /\ dedupe c' = <[itemprop := v]> (dedupe c).
Proof.
  unfold addProps_step. cbn [mbind exc_bind].
  destruct (assoc (lit "itemprop") (attrib el)) as [itemprop|];
    [|intros [= <-]; now left].
  destruct (in_list itemprop ITEMPROPS); [|intros [= <-]; now left].
  destruct (existsb _ _); [intros [= <-]; now left|].
  destruct (bool_decide _).
  - destruct (fragment_fromstring _) as [e|]; cbn; [|discriminate].
    intros [= <-]. right. eauto.
  - cbn. intros [= <-]. right. eauto.
Qed.

(** Elements of other [itemprop] names leave the entry of a key as it
    is. *)
Lemma fold_addProps_keeps html k l c c' :
  (forall el, In el l -> assoc (lit "itemprop") (attrib el) <> Some k) ->
  fold_left (addProps_step fragment_fromstring html) l (Ok c) = Ok c' ->
  dedupe_get k (dedupe c') = dedupe_get k (dedupe c).
Proof.
  revert c. induction l as [|el l IH]; intros c H Hf.
  - now injection Hf as <-.
  - cbn [fold_left] in Hf.
    destruct (addProps_step fragment_fromstring html (Ok c) el) as [c1|e] eqn:E;
      [|now rewrite fold_addProps_raise in Hf].
    rewrite (IH c1); [|intros el' Hin; apply H; now right|exact Hf].
    destruct (addProps_step_dedupe _ _ _ _ E) as [->|(ip & v & Hip & ->)];
      [reflexivity|].
    apply dedupe_get_insert_ne. intros ->. apply (H el); [now left|exact Hip].
Qed.

(** C10 (as the code has it). [addProps] reads the [dedupe] dict that
    [addMeta] has filled.  Take a [<meta>] of the property set that is the
    last of its key, and an element whose [itemprop] name is that key,
    whose content is the content of the [<meta>], and which is the first
    element of that [itemprop] name: it adds no [<p>] to the container.
    If it is the only element with an [itemprop], the container holds what
    the meta pass left. *)
Theorem itemprop_shares_dedupe (html : elem) (n : nat) (l1 l2 : list elem)
    (m : elem) (prop content : str) (e1 e2 : list elem) (el : elem)
    (cm c : collector) :
  findall html "meta" = l1 ++ m :: l2 ->
  meta_prop m = Some prop ->
  in_list prop METAPROPS = true ->
  strip (assoc (lit "content") (attrib m)) domain = Some content ->
  (forall el' prop', In el' l2 -> meta_prop el' = Some prop' ->
                     in_list prop' METAPROPS = true ->
                     dedupe_key prop' <> dedupe_key prop) ->
  with_itemprop html = e1 ++ el :: e2 ->
  assoc (lit "itemprop") (attrib el) = Some (dedupe_key prop) ->
  itemprop_content el = content ->
  (forall el', In el' e1 ->
               assoc (lit "itemprop") (attrib el') <> Some (dedupe_key prop)) ->
  addMeta fragment_fromstring domain html
    {| dedupe := ∅; base := []; fresh := n |} = Ok cm ->
  fold_left (addProps_step fragment_fromstring html) e1 (Ok cm) = Ok c ->
  (exists c',
     addProps_step fragment_fromstring html (Ok c) el = Ok c'
     /\ base c' = base c /\ fresh c' = fresh c)
  /\ (e1 = [] -> e2 = [] ->
      collectMetaTags fragment_fromstring domain html n = Ok (base cm)).
Proof.
  intros Hl Hp Hin Hc Hl2 Hw Hi Hcontent He1 Hm Hf.
  assert (Hd : dedupe_get (dedupe_key prop) (dedupe c) = Some content).
  { rewrite (fold_addProps_keeps html _ e1 cm c He1 Hf).
    unfold addMeta in Hm. rewrite Hl in Hm.
    destruct (fold_left _ (l1 ++ m :: l2) _) as [r|e] eqn:E; [|discriminate].
    cbn in Hm. injection Hm as <-.
    exact (fold_addMeta_recorded l1 m l2 _ r prop content Hp Hin Hc Hl2 E). }
  assert (H : exists c',
             addProps_step fragment_fromstring html (Ok c) el = Ok c'
             /\ base c' = base c /\ fresh c' = fresh c).
  { unfold addProps_step. cbn [mbind exc_bind]. rewrite Hi.
    destruct (in_list (dedupe_key prop) ITEMPROPS); [|eauto].
    destruct (existsb _ _); [eauto|].
    rewrite bool_decide_eq_false_2.
    - cbn [mbind exc_bind]. eexists. split; [reflexivity|]. split; reflexivity.
    - rewrite Hd, Hcontent. intros E. now apply E. }
  split; [exact H|]. intros -> ->.
  injection Hf as <-. destruct H as (c' & H & Hb & _).
  unfold collectMetaTags. rewrite Hm. cbn [mbind exc_bind].
  unfold addProps. rewrite Hw. cbn [app fold_left]. rewrite H.
  cbn [mbind exc_bind]. now rewrite Hb.
Qed.

End CollectorProofs.

Import Document.

Lemma addMeta_first_failure_escapes_witness :
  addMeta plain_fragment None page_broken {| dedupe := ∅; base := []; fresh := 100 |}
  = Raise UnboundLocalError
  /\ collectMetaTags plain_fragment None page_broken 100 = Raise UnboundLocalError.
Proof.
  apply (addMeta_first_failure_escapes plain_fragment None page_broken 100
           meta_broken [meta_tag 11 "name" "keywords" "a, b"]
           (lit "description") (lit "Read more </p" ++ [nl] ++ lit "> here"));
    vm_compute; reflexivity.
Defined.

(** Once a [<meta>] has parsed, a later one that does not is passed over:
    [meta] still holds the earlier [<p>], which is first in the container
    already. *)
Example addMeta_later_failure_skipped :
  collectMetaTags plain_fragment None
    (page [meta_tag 11 "name" "keywords" "a, b"; meta_broken] []) 100
  = Ok [Elem 100 (lit "p") [(lit "class", lit "econtextmax meta keywords")]
          (lit "a, b") [] []].
Proof. vm_compute. reflexivity. Qed.

Lemma meta_dedupe_witness :
  (exists c',
     addMeta_step plain_fragment None
       (Ok ({| dedupe := <[lit "title" := Some (lit "X")]> ∅;
               base := [Elem 100 (lit "p") [(lit "class", lit "econtextmax meta og:title")]
                          (lit "X") [] []];
               fresh := 101 |},
            Some (Elem 100 (lit "p") [(lit "class", lit "econtextmax meta og:title")]
                       (lit "X") [] [])))
       (meta_tag 11 "property" "title" "Y")
     = Ok (c', Some (Elem 101 (lit "p") [(lit "class", lit "econtextmax meta title")]
                          (lit "Y") [] []))
     /\ base c'
        = [Elem 101 (lit "p") [(lit "class", lit "econtextmax meta title")] (lit "Y") [] [];
           Elem 100 (lit "p") [(lit "class", lit "econtextmax meta og:title")] (lit "X") [] []])
  /\ exists c,
       addMeta plain_fragment None page_among
         {| dedupe := ∅; base := []; fresh := 100 |} = Ok c
       /\ base c
          = [Elem 101 (lit "p") [(lit "class", lit "econtextmax meta title")] (lit "Y") [] [];
             Elem 100 (lit "p") [(lit "class", lit "econtextmax meta og:title")] (lit "X") [] []].
Proof.
  destruct (meta_dedupe plain_fragment None page_among
              [meta_charset] [meta_viewport] []
              (meta_tag 10 "name" "og:title" "X") (meta_tag 11 "property" "title" "Y")
              (lit "og:title") (lit "title") (lit "X") (lit "Y")
              eq_refl eq_refl eq_refl eq_refl eq_refl eq_refl eq_refl eq_refl)
    as [H1 H2].
  split.
  - destruct (H1 {| dedupe := ∅; base := []; fresh := 100 |}
                 {| dedupe := <[lit "title" := Some (lit "X")]> ∅;
                    base := [Elem 100 (lit "p")
                               [(lit "class", lit "econtextmax meta og:title")]
                               (lit "X") [] []];
                    fresh := 101 |}
                 (Some (Elem 100 (lit "p")
                          [(lit "class", lit "econtextmax meta og:title")]
                          (lit "X") [] []))) as [_ Hd].
    + intros el prop [<-|[]]. vm_compute. intros [= <-]. discriminate.
    + vm_compute. reflexivity.
    + destruct (Hd ltac:(discriminate)
                   (Elem 0 (lit "p") [(lit "class", lit "econtextmax meta title")]
                         (lit "Y") [] []) eq_refl) as (c' & Hs & Hb).
      exists c'. split; [exact Hs|exact Hb].
  - destruct (H2 100
                 (Elem 0 (lit "p") [(lit "class", lit "econtextmax meta og:title")]
                       (lit "X") [] [])
                 (Elem 0 (lit "p") [(lit "class", lit "econtextmax meta title")]
                       (lit "Y") [] [])) as (c & Hc & _ & Hb).
    + intros el prop [<-|[<-|[]]]; vm_compute; [discriminate|].
      intros [= <-]. reflexivity.
    + reflexivity.
    + reflexivity.
    + exists c. split; [exact Hc|]. apply Hb. discriminate.
Defined.

(** C6 as stated fails: on [page_interleaved] the first and the third
    [<meta>] have the key "title" and the content "Foo", and each of them
    gets a [<p>]: when the third is reached, [dedupe] holds "Bar", the
    content of the second. *)
Lemma meta_dedupe_interleaved :
  meta_prop (meta_tag 10 "name" "title" "Foo") = Some (lit "title")
  /\ meta_prop (meta_tag 12 "name" "twitter:title" "Foo") = Some (lit "twitter:title")
  /\ dedupe_key (lit "title") = dedupe_key (lit "twitter:title")
  /\ collectMetaTags plain_fragment None page_interleaved 100
     = Ok [Elem 102 (lit "p") [(lit "class", lit "econtextmax meta twitter:title")]
             (lit "Foo") [] [];
           Elem 101 (lit "p") [(lit "class", lit "econtextmax meta og:title")]
             (lit "Bar") [] [];
           Elem 100 (lit "p") [(lit "class", lit "econtextmax meta title")]
             (lit "Foo") [] []].
Proof. repeat split; vm_compute; reflexivity. Qed.

(** Scenario S3: the same property twice with the same content gives one
    [<p>]. *)
Example meta_dedupe_same :
  collectMetaTags plain_fragment None page_same 100
  = Ok [Elem 100 (lit "p") [(lit "class", lit "econtextmax meta og:title")]
          (lit "X") [] []].
Proof. vm_compute. reflexivity. Qed.

Lemma itemprop_shares_dedupe_witness :
  exists cm c,
    addMeta plain_fragment None page_itemprop_among
      {| dedupe := ∅; base := []; fresh := 100 |} = Ok cm
    /\ fold_left (addProps_step plain_fragment page_itemprop_among) [span_brand] (Ok cm)
       = Ok c
    /\ length (base cm) = 2 /\ length (base c) = 3
    /\ exists c',
         addProps_step plain_fragment page_itemprop_among (Ok c) span_description = Ok c'
         /\ base c' = base c /\ fresh c' = fresh c.
Proof.
  destruct (addMeta plain_fragment None page_itemprop_among
              {| dedupe := ∅; base := []; fresh := 100 |}) as [cm|e] eqn:Em;
    [|vm_compute in Em; discriminate Em].
  destruct (fold_left (addProps_step plain_fragment page_itemprop_among)
              [span_brand] (Ok cm)) as [c|e] eqn:Ec;
    [|pose proof Em as E; vm_compute in E; injection E as <-;
      vm_compute in Ec; discriminate Ec].
  exists cm, c. split; [reflexivity|]. split; [exact Ec|].
  split; [pose proof Em as E; vm_compute in E; injection E as <-; reflexivity|].
  split; [pose proof Em as E; vm_compute in E; injection E as <-;
          pose proof Ec as E; vm_compute in E; injection E as <-; reflexivity|].
  refine (proj1 (itemprop_shares_dedupe plain_fragment None page_itemprop_among 100
                   [meta_charset] [meta_tag 11 "name" "keywords" "a, b"]
                   (meta_tag 10 "property" "og:description" "A fine widget")
                   (lit "og:description") (lit "A fine widget")
                   [span_brand] [] span_description cm c
                   eq_refl eq_refl eq_refl eq_refl _ eq_refl eq_refl eq_refl _ Em Ec)).
  - intros el' prop' [<-|[]]. vm_compute. intros [= <-] _. discriminate.
  - intros el' [<-|[]]. vm_compute. discriminate.
Defined.

(** The one element with an [itemprop] on [page_itemprop] adds nothing to
    the [<p>] of the [<meta>]. *)
Example itemprop_alone :
  collectMetaTags plain_fragment None page_itemprop 100
  = Ok [Elem 100 (lit "p") [(lit "class", lit "econtextmax meta og:description")]
          (lit "A fine widget") [] []].
Proof. vm_compute. reflexivity. Qed.

(** C10 as stated fails: on [page_itemprop_between] the second element has
    the [itemprop] name and the content of the [<meta>], and still gets a
    [<p>]: the element before it has put "Other" under that key. *)
Lemma itemprop_between_added :
  assoc (lit "itemprop") (attrib span_widget)
  = Some (dedupe_key (lit "description"))
  /\ itemprop_content span_widget = lit "A fine widget"
  /\ collectMetaTags plain_fragment None page_itemprop_between 100
     = Ok [Elem 102 (lit "p") [(lit "class", lit "econtextmax itemprop description")]
             (lit "A fine widget") [] [];
           Elem 101 (lit "p") [(lit "class", lit "econtextmax itemprop description")]
             (lit "Other") [] [];
           Elem 100 (lit "p") [(lit "class", lit "econtextmax meta description")]
             (lit "A fine widget") [] []].
Proof. repeat split; vm_compute; reflexivity. Qed.

(** ** The domain strip *)

Lemma chr_eqb_refl c : chr_eqb c c = true.
Proof. apply Ascii.eqb_refl. Qed.

Lemma startswith_app p s : startswith (p ++ s) p = true.
Proof.
  induction p as [|c p IH]; [now destruct s|].
  simpl. now rewrite chr_eqb_refl.
Qed.

Lemma endswith_app p s : endswith (s ++ p) p = true.
Proof. unfold endswith. rewrite rev_app_distr. apply startswith_app. Qed.

Lemma lower_app a b : lower (a ++ b) = lower a ++ lower b.
Proof. apply map_app. Qed.

Lemma lower_length a : length (lower a) = length a.
Proof. apply length_map. Qed.



(** Scenario S6 through the collector. *)
Example meta_domain_stripped :
  collectMetaTags plain_fragment (Some (lit "amazon.com "))
    (page [meta_tag 10 "name" "description" "amazon.com Foo"] []) 100
  = Ok [Elem 100 (lit "p") [(lit "class", lit "econtextmax meta description")]
          (lit "Foo") [] []].
Proof. vm_compute. reflexivity. Qed.


(** ** The best candidate *)

Lemma head_insert_desc c l :
  head (insert_desc c l)
  = match head l with
    | None => Some c
    | Some d => if Qle_bool (content_score d) (content_score c) then Some c
                else Some d
    end.
Proof.
  destruct l as [|d r]; [reflexivity|]. simpl.
  now destruct (Qle_bool (content_score d) (content_score c)).
Qed.

Lemma head_sorted_desc l : head (sorted_desc l) = first_max l.
Proof.
  induction l as [|c r IH]; [reflexivity|].
  cbn [sorted_desc fold_right first_max].
  rewrite head_insert_desc. fold (sorted_desc r). now rewrite IH.
Qed.

Lemma select_best_candidate_first_max cs :
  select_best_candidate cs = first_max (Dict.values cs).
Proof.
  unfold select_best_candidate. rewrite <- head_sorted_desc.
  now destruct (sorted_desc (Dict.values cs)).
Qed.

(** The selector takes the candidate that was inserted first among those
    with the highest score: the ones before it score less, the ones after
    it do not score more. *)
Lemma first_max_spec l b :
  first_max l = Some b ->
  exists l1 l2, l = l1 ++ b :: l2
    /\ (forall c, In c l1 -> (content_score c < content_score b)%Q)
    /\ (forall c, In c l2 -> (content_score c <= content_score b)%Q).
Proof.
  revert b. induction l as [|c r IH]; [discriminate|].
  intros b. cbn [first_max].
  destruct (first_max r) as [b'|] eqn:E.
  - destruct (IH b' eq_refl) as (l1 & l2 & -> & H1 & H2).
    destruct (Qle_bool (content_score b') (content_score c)) eqn:Hle.
    + intros [= <-]. exists [], (l1 ++ b' :: l2). split; [reflexivity|].
      split; [intros ? []|]. apply Qle_bool_iff in Hle.
      intros d Hd. apply in_app_or in Hd as [Hd|[<-|Hd]].
      * apply Qlt_le_weak. eapply Qlt_le_trans; [apply H1, Hd|exact Hle].
      * exact Hle.
      * eapply Qle_trans; [apply H2, Hd|exact Hle].
    + intros [= <-]. exists (c :: l1), l2. split; [reflexivity|].
      split; [|exact H2]. intros d [<-|Hd]; [|apply H1, Hd].
      apply Qnot_le_lt. intros Hc. apply Qle_bool_iff in Hc. congruence.
  - intros [= <-]. destruct r as [|c' r'].
    + exists [], []. repeat split; intros ? [].
    + cbn [first_max] in E. destruct (first_max r'); [|discriminate].
      destruct (Qle_bool _ _); discriminate.
Qed.

(** ** The driver *)

Section DriverProofs.

Import Document.

Variable _parse : exc elem.
Variable fragment_fromstring : str -> option elem.
Variable domain : option str.
Variable MIN_LEN : nat.
Variable retry_length : nat.
Variable fresh_uid : nat.
Variable remove_unlikely_candidates : elem -> exc elem.
Variable transform_misused_divs_into_paragraphs : elem -> exc elem.
Variable get_article : elem -> candidates -> candidate -> bool -> exc elem.
Variable sanitize : elem -> candidates -> exc elem.
Variable get_clean_html : elem -> str.

Local Abbreviation html_ := (_html _parse fragment_fromstring domain fresh_uid).
Local Abbreviation finish_ := (finish retry_length sanitize get_clean_html).
Local Abbreviation prepare_ :=
  (prepare remove_unlikely_candidates transform_misused_divs_into_paragraphs).
Local Abbreviation decide_ :=
  (decide_turn MIN_LEN retry_length get_article sanitize get_clean_html).
Local Abbreviation turn_ :=
  (turn_on MIN_LEN retry_length remove_unlikely_candidates
     transform_misused_divs_into_paragraphs get_article sanitize get_clean_html).
Local Abbreviation pass_ :=
  (pass _parse fragment_fromstring domain MIN_LEN retry_length fresh_uid
     remove_unlikely_candidates transform_misused_divs_into_paragraphs
     get_article sanitize get_clean_html).
Local Abbreviation loop_ :=
  (loop _parse fragment_fromstring domain MIN_LEN retry_length fresh_uid
     remove_unlikely_candidates transform_misused_divs_into_paragraphs
     get_article sanitize get_clean_html).
Local Abbreviation summary_ :=
  (summary _parse fragment_fromstring domain MIN_LEN retry_length fresh_uid
     remove_unlikely_candidates transform_misused_divs_into_paragraphs
     get_article sanitize get_clean_html).

Lemma finish_lenient article cs :
  finish_ false article cs = (node ← sanitize article cs; Ok (Break node)).
Proof. reflexivity. Qed.

Lemma finish_continue ruthless article cs r :
  finish_ ruthless article cs = Ok (Continue r) ->
  ruthless = true /\ r = false
  /\ exists node, sanitize article cs = Ok node
                  /\ length (get_clean_html node) < retry_length.
Proof.
  unfold finish. destruct (sanitize article cs) as [node|e]; [|discriminate].
  cbn [mbind exc_bind].
  destruct ruthless; cbn [andb]; [|discriminate].
  destruct (retry_length <=? length (get_clean_html node)) eqn:E; [discriminate|].
  intros [= <-]. apply Nat.leb_gt in E. eauto.
Qed.

(** A turn asks for another one only when pruning was on, turns pruning
    off, and does so because no best candidate was found or because the
    cleaned article is shorter than [retry_length]. *)
Lemma decide_continue html_partial ruthless html r :
  decide_ html_partial ruthless html = Ok (Continue r) ->
  ruthless = true /\ r = false
  /\ (select_best_candidate (score_paragraphs html MIN_LEN) = None
      \/ exists best article node,
           select_best_candidate (score_paragraphs html MIN_LEN) = Some best
           /\ get_article html (score_paragraphs html MIN_LEN) best html_partial
              = Ok article
           /\ sanitize article (score_paragraphs html MIN_LEN) = Ok node
           /\ length (get_clean_html node) < retry_length).
Proof.
  unfold decide_turn.
  destruct (select_best_candidate (score_paragraphs html MIN_LEN)) as [best|].
  - destruct (get_article _ _ _ _) as [article|e] eqn:Ea; [|discriminate].
    cbn [mbind exc_bind]. intros H.
    apply finish_continue in H as (-> & -> & node & Hs & Hl).
    split; [reflexivity|]. split; [reflexivity|]. right. eauto 10.
  - destruct ruthless.
    + intros [= <-]. auto.
    + intros H. apply finish_continue in H as (H & _). discriminate.
Qed.

Lemma turn_continue html_partial ruthless html r :
  turn_ html_partial ruthless html = Ok (Continue r) ->
  ruthless = true /\ r = false.
Proof.
  unfold turn_on. destruct (prepare _ _ _ _) as [h|e]; [|discriminate].
  cbn [mbind exc_bind]. intros H.
  apply decide_continue in H as (-> & -> & _). auto.
Qed.

Lemma pass_continue html_partial ruthless m m' r :
  pass_ html_partial ruthless m = (m', Ok (Continue r)) ->
  ruthless = true /\ r = false.
Proof.
  unfold pass. destruct (html_ m) as [m0 [h|e]]; [|discriminate].
  intros [= _ H]. now apply turn_continue in H.
Qed.

(** The retry is the last turn. *)
Lemma loop_lenient fuel html_partial m :
  exists x, loop_ (S fuel) html_partial false m = ([false], Some x).
Proof.
  cbn [loop]. destruct (pass_ html_partial false m) as [m' [t|e]] eqn:E.
  - destruct t as [r|node].
    + apply pass_continue in E as [E _]. discriminate.
    + eauto.
  - eauto.
Qed.

Lemma loop_ruthless fuel html_partial m :
  exists trace x,
    loop_ (S (S fuel)) html_partial true m = (trace, Some x)
    /\ (trace = [true]
        \/ trace = [true; false]
           /\ exists m', pass_ html_partial true m = (m', Ok (Continue false))).
Proof.
  cbn [loop]. destruct (pass_ html_partial true m) as [m' [t|e]] eqn:E.
  - destruct t as [r|node].
    + pose proof (pass_continue _ _ _ _ _ E) as [_ ->].
      destruct (loop_lenient fuel html_partial m') as [x Hx].
      cbn [loop] in Hx. rewrite Hx.
      exists [true; false], x. split; [reflexivity|]. right. eauto.
    + exists [true], (m', Ok node). auto.
  - exists [true], (m', Raise e). auto.
Qed.

(** A turn that does not raise has [self.metaTags] set, so the insert after
    the loop always has a container to insert. *)
Lemma html_ok_meta m m' h : html_ m = (m', Ok h) -> exists md, m' = Some md.
Proof.
  unfold _html. destruct _parse as [html|e]; [|discriminate].
  destruct m as [md|].
  - intros [= <- _]. eauto.
  - destruct (collectMetaTags _ _ _ _) as [ps|e]; [|discriminate].
    intros [= <- _]. eauto.
Qed.

Lemma pass_ok_meta html_partial ruthless m m' t :
  pass_ html_partial ruthless m = (m', Ok t) -> exists md, m' = Some md.
Proof.
  unfold pass. destruct (html_ m) as [m0 [h|e]] eqn:E; [|discriminate].
  intros [= <- _]. eapply html_ok_meta, E.
Qed.

Lemma loop_ok_meta fuel html_partial ruthless m trace mf node :
  loop_ fuel html_partial ruthless m = (trace, Some (mf, Ok node)) ->
  exists md, mf = Some md.
Proof.
  revert ruthless m trace. induction fuel as [|fuel IH]; intros ruthless m trace.
  - discriminate.
  - cbn [loop].
    destruct (pass_ html_partial ruthless m) as [m' [[r|node']|e]] eqn:E.
    + destruct (loop_ fuel html_partial r m') as [t o] eqn:El.
      intros [= _ ->]. eapply IH, El.
    + intros [= _ <- _]. eapply pass_ok_meta, E.
    + discriminate.
Qed.

(** The other direction: a turn with pruning on that finds no best
    candidate, or whose cleaned article is shorter than [retry_length],
    does ask for the second turn. *)
Lemma decide_retries html_partial html :
  (select_best_candidate (score_paragraphs html MIN_LEN) = None
   \/ exists best article node,
        select_best_candidate (score_paragraphs html MIN_LEN) = Some best
        /\ get_article html (score_paragraphs html MIN_LEN) best html_partial
           = Ok article
        /\ sanitize article (score_paragraphs html MIN_LEN) = Ok node
        /\ length (get_clean_html node) < retry_length) ->
  decide_ html_partial true html = Ok (Continue false).
Proof.
  unfold decide_turn. intros [->|(best & article & node & -> & -> & Hs & Hl)];
    [reflexivity|].
  cbn [mbind exc_bind]. unfold finish. rewrite Hs. cbn [mbind exc_bind].
  apply Nat.leb_gt in Hl. now rewrite Hl.
Qed.

(** What the loop hands on is what its last turn ended with. *)
Lemma loop_first_turn fuel html_partial m m' :
  (forall node, pass_ html_partial true m = (m', Ok (Break node)) ->
                loop_ (S fuel) html_partial true m = ([true], Some (m', Ok node)))
  /\ (forall e, pass_ html_partial true m = (m', Raise e) ->
                loop_ (S fuel) html_partial true m = ([true], Some (m', Raise e))).
Proof. split; intros x H; cbn [loop]; now rewrite H. Qed.

Lemma loop_second_turn fuel html_partial m m' m'' :
  pass_ html_partial true m = (m', Ok (Continue false)) ->
  (forall node, pass_ html_partial false m' = (m'', Ok (Break node)) ->
                loop_ (S (S fuel)) html_partial true m
                = ([true; false], Some (m'', Ok node)))
  /\ (forall e, pass_ html_partial false m' = (m'', Raise e) ->
                loop_ (S (S fuel)) html_partial true m
                = ([true; false], Some (m'', Raise e))).
Proof. intros H1. split; intros x H2; cbn [loop]; now rewrite H1, H2. Qed.


(** More fuel changes nothing once the loop has ended. *)
Lemma loop_fuel_mono f f' html_partial ruthless m trace x :
  loop_ f html_partial ruthless m = (trace, Some x) -> f <= f' ->
  loop_ f' html_partial ruthless m = (trace, Some x).
Proof.
  revert f' ruthless m trace. induction f as [|f IH]; intros f' ruthless m trace H Hle.
  - discriminate.
  - destruct f' as [|f']; [lia|]. cbn [loop] in *.
    destruct (pass_ html_partial ruthless m) as [m' [[r|node]|e]]; try exact H.
    destruct (loop_ f html_partial r m') as [t o] eqn:E.
    injection H as <- ->.
    rewrite (IH f' r m' t E); [reflexivity|lia].
Qed.

Lemma summary_fuel f f' html_partial m r :
  summary_ f html_partial m = Some r -> f <= f' ->
  summary_ f' html_partial m = Some r.
Proof.
  unfold summary. intros H Hle.
  destruct (loop_ f html_partial true m) as [t [x|]] eqn:E; [|discriminate].
  now rewrite (loop_fuel_mono f f' _ _ _ _ _ E Hle).
Qed.

(** What [_html] leaves in [self.metaTags] is what it would compute again. *)
Lemma html_again m : html_ (fst (html_ m)) = html_ m.
Proof.
  unfold _html. destruct _parse as [html|e]; [|reflexivity].
  destruct m as [md|]; [reflexivity|].
  now destruct (collectMetaTags _ _ _ _) as [ps|e].
Qed.

Lemma pass_state html_partial ruthless m :
  fst (pass_ html_partial ruthless m) = fst (html_ m).
Proof. unfold pass. now destruct (html_ m) as [m0 [h|e]]. Qed.

Lemma pass_again html_partial ruthless m :
  pass_ html_partial ruthless (fst (html_ m)) = pass_ html_partial ruthless m.
Proof. unfold pass. now rewrite html_again. Qed.

Lemma loop_again fuel html_partial ruthless m :
  loop_ fuel html_partial ruthless (fst (html_ m))
  = loop_ fuel html_partial ruthless m.
Proof.
  destruct fuel as [|fuel]; [reflexivity|]. cbn [loop].
  now rewrite pass_again.
Qed.

Lemma loop_state fuel html_partial ruthless m trace mf x :
  loop_ fuel html_partial ruthless m = (trace, Some (mf, x)) ->
  mf = fst (html_ m).
Proof.
  revert ruthless m trace. induction fuel as [|fuel IH]; intros ruthless m trace.
  - discriminate.
  - cbn [loop]. pose proof (pass_state html_partial ruthless m) as Hs.
    destruct (pass_ html_partial ruthless m) as [m' [[r|node]|e]]; cbn [fst] in Hs.
    + destruct (loop_ fuel html_partial r m') as [t o] eqn:E.
      intros [= _ ->]. apply IH in E. rewrite E, Hs.
      now rewrite html_again.
    + now intros [= _ <- _].
    + now intros [= _ <- _].
Qed.

Lemma summary_state fuel html_partial m m1 o1 :
  summary_ fuel html_partial m = Some (m1, o1) -> m1 = fst (html_ m).
Proof.
  unfold summary.
  destruct (loop_ fuel html_partial true m) as [t [[mf [node|e]]|]] eqn:E;
    [| |discriminate]; apply loop_state in E.
  - destruct mf; now intros [= <- _].
  - now intros [= <- _].
Qed.

Lemma summary_never_escapes fuel html_partial m mf e :
  summary_ fuel html_partial m <> Some (mf, Escaped e).
Proof.
  unfold summary.
  destruct (loop_ fuel html_partial true m) as [t [[m' [node|e']]|]] eqn:E;
    [| |discriminate].
  - destruct (loop_ok_meta _ _ _ _ _ _ _ E) as [md ->]. discriminate.
  - discriminate.
Qed.

(** *** Any iteration order *)

Lemma first_max_none l : first_max l = None -> l = [].
Proof.
  destruct l as [|c r]; [reflexivity|]. cbn [first_max].
  destruct (first_max r); [|discriminate].
  destruct (Qle_bool _ _); discriminate.
Qed.

Lemma first_max_top l b :
  first_max l = Some b ->
  In b l /\ forall c, In c l -> Qle_bool (content_score c) (content_score b) = true.
Proof.
  intros H. apply first_max_spec in H as (l1 & l2 & -> & H1 & H2). split.
  - apply in_or_app. right. now left.
  - intros c Hc. apply Qle_bool_iff.
    apply in_app_or in Hc as [Hc|[<-|Hc]].
    + apply Qlt_le_weak, H1, Hc.
    + apply Qle_refl.
    + apply H2, Hc.
Qed.

(** With one candidate alone at the top, the order in which the dict
    yields its values does not change the choice. *)
Lemma first_max_any_order l l' b :
  Permutation l' l ->
  first_max l = Some b ->
  length (filter (fun c => Qle_bool (content_score b) (content_score c) = true) l) = 1 ->
  first_max l' = Some b.
Proof.
  intros Hp Hb Hone. apply first_max_top in Hb as [Hin Htop].
  destruct (first_max l') as [b'|] eqn:E.
  - apply first_max_top in E as [Hin' Htop'].
    assert (H1 : In b (filter (fun c => Qle_bool (content_score b) (content_score c) = true) l)).
    { apply list_elem_of_In, list_elem_of_filter. split.
      - apply Qle_bool_iff, Qle_refl.
      - now apply list_elem_of_In. }
    assert (H2 : In b' (filter (fun c => Qle_bool (content_score b) (content_score c) = true) l)).
    { apply list_elem_of_In, list_elem_of_filter. split.
      - apply Htop'. eapply Permutation_in; [symmetry; exact Hp|exact Hin].
      - apply list_elem_of_In. eapply Permutation_in; [exact Hp|exact Hin']. }
    destruct (filter _ l) as [|x [|y r]]; [discriminate| |discriminate].
    destruct H1 as [<-|[]], H2 as [<-|[]]. reflexivity.
  - apply first_max_none in E. subst l'. apply Permutation_nil in Hp.
    subst l. destruct Hin.
Qed.

Lemma select_any_order values cs :
  iteration_order values -> single_top cs = true ->
  AnyOrder.select_best_candidate values cs = select_best_candidate cs.
Proof.
  intros Hv Hs. rewrite select_best_candidate_first_max.
  unfold AnyOrder.select_best_candidate.
  replace (match sorted_desc (values cs) with
           | [] => None
           | best_candidate :: _ => Some best_candidate
           end) with (head (sorted_desc (values cs)))
    by now destruct (sorted_desc (values cs)).
  rewrite head_sorted_desc. unfold single_top in Hs.
  destruct (first_max (Dict.values cs)) as [b|] eqn:E.
  - apply Nat.eqb_eq in Hs. exact (first_max_any_order _ _ b (Hv cs) E Hs).
  - apply first_max_none in E. specialize (Hv cs). rewrite E in Hv.
    symmetry in Hv. apply Permutation_nil in Hv. now rewrite Hv.
Qed.

Section AnyOrderProofs.

Variable values : candidates -> list candidate.
Hypothesis values_order : iteration_order values.

(** In each tree that is scored one candidate alone is at the top. *)
Hypothesis one_top :
  forall ruthless html0 html,
    _parse = Ok html0 -> prepare_ ruthless html0 = Ok html ->
    single_top (score_paragraphs html MIN_LEN) = true.

Local Abbreviation any_decide :=
  (AnyOrder.decide_turn values MIN_LEN retry_length get_article sanitize
     get_clean_html).
Local Abbreviation any_pass :=
  (AnyOrder.pass values _parse fragment_fromstring domain MIN_LEN retry_length
     fresh_uid remove_unlikely_candidates transform_misused_divs_into_paragraphs
     get_article sanitize get_clean_html).
Local Abbreviation any_loop :=
  (AnyOrder.loop values _parse fragment_fromstring domain MIN_LEN retry_length
     fresh_uid remove_unlikely_candidates transform_misused_divs_into_paragraphs
     get_article sanitize get_clean_html).
Local Abbreviation any_summary :=
  (AnyOrder.summary values _parse fragment_fromstring domain MIN_LEN retry_length
     fresh_uid remove_unlikely_candidates transform_misused_divs_into_paragraphs
     get_article sanitize get_clean_html).

Lemma html_parsed m m' h : html_ m = (m', Ok h) -> _parse = Ok h.
Proof.
  unfold _html. destruct _parse as [html|e]; [|discriminate].
  destruct m as [md|]; [now intros [= _ ->]|].
  destruct (collectMetaTags _ _ _ _); [now intros [= _ ->]|discriminate].
Qed.

Lemma any_decide_eq html_partial ruthless html :
  single_top (score_paragraphs html MIN_LEN) = true ->
  any_decide html_partial ruthless html = decide_ html_partial ruthless html.
Proof.
  intros H. unfold AnyOrder.decide_turn, decide_turn.
  now rewrite (select_any_order values _ values_order H).
Qed.

Lemma any_pass_eq html_partial ruthless m :
  any_pass html_partial ruthless m = pass_ html_partial ruthless m.
Proof.
  unfold AnyOrder.pass, pass.
  destruct (html_ m) as [m' [h|e]] eqn:E; [|reflexivity].
  apply html_parsed in E. f_equal. unfold AnyOrder.turn_on, turn_on.
  destruct (prepare_ ruthless h) as [html|e] eqn:Ep; [|reflexivity].
  cbn [mbind exc_bind]. apply any_decide_eq. exact (one_top ruthless h html E Ep).
Qed.

Lemma any_loop_eq fuel html_partial ruthless m :
  any_loop fuel html_partial ruthless m = loop_ fuel html_partial ruthless m.
Proof.
  revert ruthless m. induction fuel as [|fuel IH]; intros ruthless m;
    [reflexivity|].
  cbn [AnyOrder.loop loop]. rewrite any_pass_eq.
  destruct (pass_ html_partial ruthless m) as [m' [[r|node]|e]]; try reflexivity.
  now rewrite IH.
Qed.

Lemma any_summary_eq fuel html_partial m :
  any_summary fuel html_partial m = summary_ fuel html_partial m.
Proof. unfold AnyOrder.summary, summary. now rewrite any_loop_eq. Qed.

End AnyOrderProofs.

Lemma summary_comes_back fuel html_partial m :
  2 <= fuel -> exists mf o, summary_ fuel html_partial m = Some (mf, o).
Proof.
  intros Hf. destruct fuel as [|[|fuel]]; [lia|lia|].
  destruct (loop_ruthless fuel html_partial m) as (trace & x & Hl & _).
  unfold summary. rewrite Hl. cbn [snd].
  destruct x as [mf [node|e]]; [destruct mf|]; eauto.
Qed.


End DriverProofs.


(** On [doc_one_paragraph] the first turn finds 25 characters, fewer than
    [retry_length], and the second turn ends the loop. *)
Example sample_trace : fst (Sample.loop 2 true None) = [true; false].
Proof. vm_compute. reflexivity. Qed.


(** On [doc_one_paragraph] the two orders do differ: the [<div>] and the
    [<body>] are candidates, with different scores. *)
Example sample_orders_differ :
  map (fun c => uid (cand_elem c)) (Dict.values (score_paragraphs doc_one_paragraph 25))
  = [2; 1]
  /\ map (fun c => uid (cand_elem c))
         (values_reversed (score_paragraphs doc_one_paragraph 25))
     = [1; 2].
Proof. split; vm_compute; reflexivity. Qed.


(** * Further properties *)

(** ** [clean] and [text_length] *)

(** X1. What [clean] returns has no whitespace at either end, no two
    neighbouring characters of [[ \t]], and no newline next to another
    whitespace character. *)
Theorem clean_normal_form (s : str) :
  trimmed (clean s) /\ blank_single (clean s) /\ nl_isolated (clean s).
Proof.
  split; [apply strip_trimmed|]. split.
  - apply chain_strip, sub_blank_single.
  - apply chain_strip, sub_blank_isolated, sub_newline_isolated.
Qed.

Lemma sub_newline_length s : length (Re.sub Re.newline_run [nl] s) <= length s.
Proof.
  remember (length s) as n eqn:Hn. revert s Hn.
  induction n as [n IH] using lt_wf_ind. intros s Hn.
  destruct s as [|c r]; [simpl; lia|].
  rewrite sub_newline_cons. pose proof (lstrip_length r) as Hl.
  destruct (run_has_nl (c :: r)); cbn [length].
  - specialize (IH (length (lstrip r))). simpl in Hn.
    specialize (IH ltac:(lia) _ eq_refl). lia.
  - specialize (IH (length r)). simpl in Hn.
    specialize (IH ltac:(lia) _ eq_refl). lia.
Qed.

Lemma sub_blank_length s : length (Re.sub Re.blank_run [sp] s) <= length s.
Proof.
  remember (length s) as n eqn:Hn. revert s Hn.
  induction n as [n IH] using lt_wf_ind. intros s Hn.
  destruct s as [|c r]; [simpl; lia|].
  rewrite sub_blank_cons. pose proof (drop_blanks_length r) as Hl.
  destruct (two_blanks (c :: r)); cbn [length].
  - specialize (IH (length (drop_blanks r))). simpl in Hn.
    specialize (IH ltac:(lia) _ eq_refl). lia.
  - specialize (IH (length r)). simpl in Hn.
    specialize (IH ltac:(lia) _ eq_refl). lia.
Qed.

Lemma strip_length s : length (Py.strip s) <= length s.
Proof.
  unfold Py.strip, rstrip. rewrite length_rev.
  pose proof (lstrip_length (rev (lstrip s))) as H1.
  rewrite length_rev in H1. pose proof (lstrip_length s). lia.
Qed.

(** X2. Cleaning never makes a string longer. *)
Theorem clean_length_le (s : str) : length (clean s) <= length s.
Proof.
  unfold clean.
  pose proof (strip_length (Re.sub Re.blank_run [sp] (Re.sub Re.newline_run [nl] s))).
  pose proof (sub_blank_length (Re.sub Re.newline_run [nl] s)).
  pose proof (sub_newline_length s). lia.
Qed.

(** X3. The cleaned text is empty exactly when the text holds nothing but
    whitespace; so [text_length] is 0 exactly for elements without visible
    text. *)
Theorem clean_empty_iff (s : str) : clean s = [] <-> blank_only s.
Proof.
  split.
  - intros H. destruct (first_nonspace s) as [Hs|(w & a & t & -> & Hw & Ha)];
      [exact Hs|].
    rewrite clean_first in H by assumption. discriminate.
  - apply clean_blank_only.
Qed.

Lemma clean_infix_length u v w :
  length (clean v) <= length (clean (u ++ v ++ w)).
Proof.
  pose proof (clean_app_length u (v ++ w)).
  pose proof (clean_app_length v w). lia.
Qed.

Lemma text_length_child e k : In k (children e) -> text_length k <= text_length e.
Proof.
  destruct e as [i t a x c tl]. cbn [children]. intros Hk.
  apply in_split in Hk as (c1 & c2 & ->).
  unfold text_length. cbn [text_content].
  rewrite flat_map_app. cbn [flat_map]. rewrite <- !app_assoc.
  pose proof (clean_infix_length
                (x ++ flat_map (fun k => text_content k ++ tail k) c1)
                (text_content k)
                (tail k ++ flat_map (fun k => text_content k ++ tail k) c2)) as H.
  rewrite <- !app_assoc in H. exact H.
Qed.

(** X4. [text_length] grows towards the root: an element has at least the
    text length of each of its descendants. *)
Theorem text_length_descendant (e d : elem) :
  In d (descendants e) -> text_length d <= text_length e.
Proof.
  induction e as [i t a x c tl IH] using elem_tree_ind.
  cbn [descendants]. intros Hd. apply in_flat_map in Hd as (k & Hk & Hd).
  pose proof (text_length_child (Elem i t a x c tl) k Hk) as Hle.
  destruct Hd as [<-|Hd]; [exact Hle|].
  rewrite List.Forall_forall in IH. specialize (IH k Hk Hd). lia.
Qed.

Lemma text_length_descendant_witness :
  In p_one (descendants doc_one_paragraph)
  /\ text_length p_one <= text_length doc_one_paragraph.
Proof.
  assert (H : In p_one (descendants doc_one_paragraph)).
  { vm_compute. right. right. left. reflexivity. }
  split; [exact H|]. exact (text_length_descendant doc_one_paragraph p_one H).
Defined.

(** ** The candidates the scorer builds *)

Lemma dict_get_none {V} k (d : Dict.t V) :
  Dict.get k d = None <-> ~ In k (map fst d).
Proof.
  induction d as [|[k' v] d IH]; simpl; [tauto|].
  destruct (k' =? k) eqn:E.
  - apply Nat.eqb_eq in E. split; [discriminate|]. intros H. destruct H. now left.
  - apply Nat.eqb_neq in E. rewrite IH. tauto.
Qed.

Lemma dict_get_in {V} k (v : V) d : Dict.get k d = Some v -> In (k, v) d.
Proof.
  induction d as [|[k' v'] d IH]; simpl; [discriminate|].
  destruct (k' =? k) eqn:E.
  - apply Nat.eqb_eq in E. intros [= <-]. left. now subst.
  - intros H. right. now apply IH.
Qed.

Lemma dict_in_get {V} k (v : V) d :
  NoDup (map fst d) -> In (k, v) d -> Dict.get k d = Some v.
Proof.
  induction d as [|[k' v'] d IH]; simpl; [intros _ []|].
  intros Hn [[= -> ->]|H].
  - now rewrite Nat.eqb_refl.
  - apply NoDup_cons in Hn as [Hni Hn].
    destruct (k' =? k) eqn:E; [|now apply IH].
    apply Nat.eqb_eq in E. subst k'. destruct Hni.
    apply list_elem_of_In. now apply (in_map fst) in H.
Qed.

Lemma dict_set_new {V} k (v : V) d :
  Dict.get k d = None -> Dict.set k v d = d ++ [(k, v)].
Proof.
  induction d as [|[k' v'] d IH]; simpl; [reflexivity|].
  destruct (k' =? k); [discriminate|]. intros H. now rewrite IH.
Qed.

Lemma dict_set_keys {V} k (v v0 : V) d :
  Dict.get k d = Some v0 -> map fst (Dict.set k v d) = map fst d.
Proof.
  induction d as [|[k' v'] d IH]; simpl; [discriminate|].
  destruct (k' =? k) eqn:E.
  - apply Nat.eqb_eq in E. now subst.
  - intros H. simpl. now rewrite IH.
Qed.

Lemma dict_set_in {V} k (v : V) d k' v' :
  In (k', v') (Dict.set k v d) -> (k', v') = (k, v) \/ In (k', v') d.
Proof.
  induction d as [|[k0 v0] d IH]; simpl.
  - intros [H|[]]. now left.
  - destruct (k0 =? k).
    + intros [H|H]; [now left|right; now right].
    + intros [H|H]; [right; now left|].
      destruct (IH H) as [?|?]; [now left|right; now right].
Qed.

Lemma aligned_set k c c0 cs ordered :
  aligned cs ordered -> Dict.get k cs = Some c0 -> cand_elem c = cand_elem c0 ->
  aligned (Dict.set k c cs) ordered.
Proof.
  unfold aligned. intros H. induction H as [|[k' c'] e cs' ord' [Hk He] H IH];
    simpl; [discriminate|].
  destruct (k' =? k) eqn:E.
  - apply Nat.eqb_eq in E. intros [= <-] Hc. constructor; [|exact H].
    simpl in *. split; congruence.
  - intros Hg Hc. constructor; [now split|]. now apply IH.
Qed.

Section ScorerInvariant.

Variable root : elem.
Variable MIN_LEN : nat.

Local Abbreviation paragraphs := (tags root ["p"; "pre"; "td"]).
Local Abbreviation scorer_inv := (scorer_state root MIN_LEN).

Lemma ensure_inv n st el :
  scorer_inv st -> In el paragraphs -> MIN_LEN <= text_length el ->
  near root el n -> scorer_inv (ensure n st).
Proof.
  intros (Ha & Hn & Hc) Hel Hlen Hnear. destruct st as [cs ordered].
  unfold ensure, Dict.mem. cbn [fst snd] in *.
  destruct (Dict.get (uid n) cs) as [c|] eqn:E; [now repeat split|].
  rewrite dict_set_new by exact E. unfold scorer_state. cbn [fst snd].
  split; [|split].
  - apply Forall2_app; [exact Ha|]. repeat constructor.
  - rewrite map_app. cbn [map fst]. apply NoDup_app. split; [exact Hn|].
    split; [|apply NoDup_singleton].
    intros k Hk Hk'. apply list_elem_of_singleton in Hk'. subst k.
    apply dict_get_none in E. apply E. now apply list_elem_of_In.
  - intros k c Hin. apply in_app_or in Hin as [Hin|[[= <- <-]|[]]].
    + now apply (Hc k).
    + exists el. auto.
Qed.

Lemma add_score_inv k x st :
  scorer_inv st -> scorer_inv (add_score k x (fst st), snd st).
Proof.
  intros (Ha & Hn & Hc). unfold add_score. cbn [fst snd].
  destruct (Dict.get k (fst st)) as [c0|] eqn:E; [|now repeat split].
  unfold scorer_state. cbn [fst snd]. split; [|split].
  - now apply (aligned_set _ _ c0).
  - now rewrite (dict_set_keys _ _ c0).
  - intros k' c' Hin. apply dict_set_in in Hin as [[= -> ->]|Hin].
    + cbn [cand_elem]. apply (Hc k). now apply dict_get_in.
    + now apply (Hc k').
Qed.

Lemma score_paragraph_inv st el :
  scorer_inv st -> In el paragraphs -> scorer_inv (score_paragraph root MIN_LEN st el).
Proof.
  intros Hst Hel. unfold score_paragraph.
  destruct (parent_in root (uid el)) as [p|] eqn:Hp; [|exact Hst].
  fold (text_length el).
  destruct (text_length el <? MIN_LEN) eqn:Hlen; [exact Hst|].
  apply Nat.ltb_ge in Hlen.
  assert (H1 : scorer_inv (ensure p st)).
  { apply (ensure_inv _ _ el); auto. now left. }
  destruct (parent_in root (uid p)) as [g|] eqn:Hg.
  - assert (H2 : scorer_inv (ensure g (ensure p st))).
    { apply (ensure_inv _ _ el); auto. right. eauto. }
    destruct (ensure g (ensure p st)) as [cs ordered].
    pose proof (add_score_inv (uid p) (paragraph_score (clean (text_content el)))
                  _ H2) as H3.
    cbn [fst snd] in H3.
    exact (add_score_inv (uid g) _ _ H3).
  - destruct (ensure p st) as [cs ordered].
    exact (add_score_inv (uid p) _ _ H1).
Qed.

Lemma fold_score_inv l st :
  scorer_inv st -> (forall el, In el l -> In el paragraphs) ->
  scorer_inv (fold_left (score_paragraph root MIN_LEN) l st).
Proof.
  revert st. induction l as [|el l IH]; intros st Hst Hl; [exact Hst|].
  cbn [fold_left]. apply IH.
  - apply score_paragraph_inv; [exact Hst|]. apply Hl. now left.
  - intros e He. apply Hl. now right.
Qed.

Lemma raw_scores_inv : scorer_state root MIN_LEN (raw_scores root MIN_LEN).
Proof.
  apply fold_score_inv; [|auto].
  split; [constructor|]. split; [constructor|]. intros ? ? [].
Qed.

End ScorerInvariant.

(** When the entries and [ordered] go side by side and no key comes twice,
    the second loop scales every entry once. *)
Lemma fold_scale pre cs ordered :
  aligned cs ordered -> NoDup (map fst (pre ++ cs)) ->
  fold_left scale_by_link_density ordered (pre ++ cs)
  = pre ++ map (fun kc => (fst kc, scaled (snd kc))) cs.
Proof.
  intros H. revert pre. unfold aligned in H.
  induction H as [|[k c] e cs' ord' [Hk He] H IH]; intros pre Hn.
  - reflexivity.
  - cbn [fold_left map fst snd] in *. subst k.
    assert (Hni : ~ In (uid e) (map fst pre)).
    { rewrite map_app in Hn. apply NoDup_app in Hn as (_ & Hd & _).
      intros Hin. apply (Hd (uid e)); [now apply list_elem_of_In|].
      cbn [map fst]. left. }
    assert (Hget : Dict.get (uid e) (pre ++ (uid e, c) :: cs') = Some c).
    { clear -Hni. induction pre as [|[k' v'] pre IHp]; simpl.
      - now rewrite Nat.eqb_refl.
      - destruct (k' =? uid e) eqn:E.
        + apply Nat.eqb_eq in E. destruct Hni. now left.
        + apply IHp. intros Hin. apply Hni. now right. }
    assert (Hset : forall v, Dict.set (uid e) v (pre ++ (uid e, c) :: cs')
                             = (pre ++ [(uid e, v)]) ++ cs').
    { intros v. clear -Hni. induction pre as [|[k' v'] pre IHp]; simpl.
      - now rewrite Nat.eqb_refl.
      - destruct (k' =? uid e) eqn:E.
        + apply Nat.eqb_eq in E. destruct Hni. now left.
        + f_equal. apply IHp. intros Hin. apply Hni. now right. }
    unfold scale_by_link_density at 2. rewrite Hget, Hset.
    rewrite IH.
    + rewrite <- app_assoc. cbn [app]. unfold scaled. now rewrite He.
    + rewrite <- app_assoc. cbn [app].
      rewrite map_app in *. cbn [map fst] in *. exact Hn.
Qed.

Lemma score_paragraphs_scaled root MIN_LEN :
  score_paragraphs root MIN_LEN
  = map (fun kc => (fst kc, scaled (snd kc))) (fst (raw_scores root MIN_LEN)).
Proof.
  destruct (raw_scores_inv root MIN_LEN) as (Ha & Hn & _).
  unfold score_paragraphs. fold (raw_scores root MIN_LEN).
  destruct (raw_scores root MIN_LEN) as [cs ordered]. cbn [fst snd] in *.
  exact (fold_scale [] cs ordered Ha Hn).
Qed.

Lemma map_fst_scaled (cs : candidates) :
  map fst (map (fun kc => (fst kc, scaled (snd kc))) cs) = map fst cs.
Proof. rewrite map_map. reflexivity. Qed.

Lemma score_paragraphs_candidates_aux (root : elem) (MIN_LEN : nat) :
  NoDup (map fst (score_paragraphs root MIN_LEN))
  /\ forall k c, In (k, c) (score_paragraphs root MIN_LEN) ->
       uid (cand_elem c) = k
       /\ exists el, In el (tags root ["p"; "pre"; "td"])
                     /\ MIN_LEN <= text_length el
                     /\ near root el (cand_elem c).
Proof.
  rewrite score_paragraphs_scaled.
  destruct (raw_scores_inv root MIN_LEN) as (Ha & Hn & Hc).
  split; [now rewrite map_fst_scaled|].
  intros k c Hin. apply in_map_iff in Hin as ([k0 c0] & [= <- <-] & Hin).
  cbn [fst snd scaled cand_elem]. split; [|now apply (Hc k0)].
  unfold aligned in Ha. clear -Ha Hin.
  induction Ha as [|[k' c'] e cs' ord' [Hk He] H IH]; [destruct Hin|].
  destruct Hin as [[= -> ->]|Hin]; [|now apply IH].
  simpl in *. congruence.
Qed.

(** X5. The candidates [score_paragraphs] returns: no element has two
    entries, the entry of an element holds that element, and every
    candidate is the parent or the grandparent of a [<p>], [<pre>] or
    [<td>] whose cleaned text has at least [MIN_LEN] characters. *)
Theorem score_paragraphs_candidates (root : elem) (MIN_LEN : nat) :
  NoDup (map fst (score_paragraphs root MIN_LEN))
  /\ forall k c, In (k, c) (score_paragraphs root MIN_LEN) ->
       uid (cand_elem c) = k
       /\ exists el, In el (tags root ["p"; "pre"; "td"])
                     /\ MIN_LEN <= text_length el
                     /\ near root el (cand_elem c).
Proof. apply score_paragraphs_candidates_aux. Qed.

Lemma dict_get_app_some {V} k (v : V) d d' :
  Dict.get k d = Some v -> Dict.get k (d ++ d') = Some v.
Proof.
  induction d as [|[k' v'] d IH]; simpl; [discriminate|].
  destruct (k' =? k); [trivial|exact IH].
Qed.

Lemma get_ensure_some n st k c :
  Dict.get k (fst st) = Some c -> Dict.get k (fst (ensure n st)) = Some c.
Proof.
  destruct st as [cs ordered]. unfold ensure, Dict.mem. cbn [fst].
  destruct (Dict.get (uid n) cs) eqn:E; cbn [fst]; [trivial|].
  rewrite dict_set_new by exact E. apply dict_get_app_some.
Qed.

Lemma paragraph_score_ge inner : (2 <= paragraph_score inner)%Q.
Proof.
  rewrite paragraph_score_commas.
  assert (H1 : (0 <= inject_Z (Z.of_nat (count_chr comma inner)))%Q).
  { change 0%Q with (inject_Z 0). rewrite <- Zle_Qle. lia. }
  assert (H2 : (0 <= Qmin (Z.of_nat (length inner) # 100) 3)%Q).
  { apply Q.min_glb; [|discriminate]. unfold Qle. simpl. lia. }
  pose proof (Qplus_le_compat _ _ _ _ (Qplus_le_compat 2 2 _ _ (Qle_refl 2) H1) H2) as H.
  now rewrite !Qplus_0_r in H.
Qed.

Lemma get_add_score_ge k' x cs k c :
  (0 <= x)%Q -> Dict.get k cs = Some c ->
  exists c', Dict.get k (add_score k' x cs) = Some c'
             /\ (content_score c <= content_score c')%Q
             /\ cand_elem c' = cand_elem c.
Proof.
  intros Hx Hc. destruct (Nat.eq_dec k' k) as [->|Hne].
  - destruct (get_add_score_eq k x cs c Hc) as (c' & Hc' & Hs).
    exists c'. split; [exact Hc'|]. split.
    + rewrite Hs. rewrite <- (Qplus_0_r (content_score c)) at 1.
      apply Qplus_le_compat; [apply Qle_refl|exact Hx].
    + unfold add_score in Hc'. rewrite Hc, dict_get_set_eq in Hc'.
      now injection Hc' as <-.
  - exists c. rewrite get_add_score_ne by exact Hne.
    split; [exact Hc|]. split; [apply Qle_refl|reflexivity].
Qed.

Lemma score_paragraph_ge root MIN_LEN st el k c :
  Dict.get k (fst st) = Some c ->
  exists c', Dict.get k (fst (score_paragraph root MIN_LEN st el)) = Some c'
             /\ (content_score c <= content_score c')%Q
             /\ cand_elem c' = cand_elem c.
Proof.
  intros Hc. unfold score_paragraph.
  assert (Hsame : exists c', Dict.get k (fst st) = Some c'
                    /\ (content_score c <= content_score c')%Q
                    /\ cand_elem c' = cand_elem c).
  { exists c. split; [exact Hc|]. split; [apply Qle_refl|reflexivity]. }
  destruct (parent_in root (uid el)) as [p|]; [|exact Hsame].
  destruct (_ <? MIN_LEN); [exact Hsame|]. clear Hsame.
  set (x := paragraph_score (clean (text_content el))).
  assert (Hx : (0 <= x)%Q).
  { eapply Qle_trans; [|apply paragraph_score_ge]. discriminate. }
  assert (Hx2 : (0 <= x / 2)%Q).
  { apply Qle_shift_div_l; [reflexivity|]. now rewrite Qmult_0_l. }
  pose proof (get_ensure_some p st k c Hc) as H1.
  destruct (parent_in root (uid p)) as [g|].
  - pose proof (get_ensure_some g _ k c H1) as H2.
    destruct (ensure g (ensure p st)) as [cs ordered]. cbn [fst] in *.
    destruct (get_add_score_ge (uid p) x cs k c Hx H2) as (c1 & Hc1 & Hs1 & He1).
    destruct (get_add_score_ge (uid g) (x / 2)%Q _ k c1 Hx2 Hc1) as (c2 & Hc2 & Hs2 & He2).
    exists c2. split; [exact Hc2|]. split; [|congruence].
    eapply Qle_trans; eassumption.
  - destruct (ensure p st) as [cs ordered]. cbn [fst] in *.
    exact (get_add_score_ge (uid p) x cs k c Hx H1).
Qed.

Lemma score_paragraphs_never_lower_aux root MIN_LEN l cs ordered k c :
  Dict.get k cs = Some c ->
  exists c',
    Dict.get k (fst (fold_left (score_paragraph root MIN_LEN) l (cs, ordered)))
    = Some c'
    /\ (content_score c <= content_score c')%Q
    /\ cand_elem c' = cand_elem c.
Proof.
  change cs with (fst (cs, ordered)) at 1.
  generalize (cs, ordered). clear cs ordered. revert c.
  induction l as [|el l IH]; intros c st Hc.
  - exists c. split; [exact Hc|]. split; [apply Qle_refl|reflexivity].
  - cbn [fold_left].
    destruct (score_paragraph_ge root MIN_LEN st el k c Hc) as (c1 & Hc1 & Hs1 & He1).
    destruct (IH c1 _ Hc1) as (c2 & Hc2 & Hs2 & He2).
    exists c2. split; [exact Hc2|]. split; [|congruence].
    eapply Qle_trans; eassumption.
Qed.

(** X6. The first loop of the scorer never lowers a score: whatever
    paragraphs are counted after a candidate got its entry, the entry stays,
    for the same element, with a score that is at least what it was. *)
Theorem score_paragraphs_never_lower (root : elem) (MIN_LEN : nat)
    (l : list elem) (cs : candidates) (ordered : list elem)
    (k : nat) (c : candidate) :
  Dict.get k cs = Some c ->
  exists c',
    Dict.get k (fst (fold_left (score_paragraph root MIN_LEN) l (cs, ordered)))
    = Some c'
    /\ (content_score c <= content_score c')%Q
    /\ cand_elem c' = cand_elem c.
Proof. apply score_paragraphs_never_lower_aux. Qed.

Lemma score_paragraphs_never_lower_witness :
  exists c',
    Dict.get 1 (fst (fold_left (score_paragraph doc_two 25) [p_long; p_short]
                       ([(1, score_node div_two)], [div_two])))
    = Some c'
    /\ (content_score (score_node div_two) <= content_score c')%Q
    /\ cand_elem c' = cand_elem (score_node div_two).
Proof.
  apply (score_paragraphs_never_lower doc_two 25 [p_long; p_short]
           [(1, score_node div_two)] [div_two] 1 (score_node div_two)).
  vm_compute. reflexivity.
Defined.

Lemma dict_get_map_scaled k (cs : candidates) :
  Dict.get k (map (fun kc => (fst kc, scaled (snd kc))) cs)
  = option_map scaled (Dict.get k cs).
Proof.
  induction cs as [|[k' c'] cs IH]; [reflexivity|]. simpl.
  destruct (k' =? k); [reflexivity|exact IH].
Qed.

(** X7. The second loop of the scorer scales every candidate exactly once:
    its final score is the score the first loop gave it times
    [1 - link_density] of its element. *)
Theorem score_paragraphs_scaled_once (root : elem) (MIN_LEN : nat)
    (k : nat) (c : candidate) :
  Dict.get k (fst (raw_scores root MIN_LEN)) = Some c ->
  exists c',
    Dict.get k (score_paragraphs root MIN_LEN) = Some c'
    /\ content_score c'
       = (content_score c * (1 - get_link_density (cand_elem c)))%Q
    /\ cand_elem c' = cand_elem c.
Proof.
  intros H. rewrite score_paragraphs_scaled, dict_get_map_scaled, H.
  exists (scaled c). repeat split.
Qed.

Lemma score_paragraphs_scaled_once_witness :
  exists c',
    Dict.get 1 (score_paragraphs doc_two 25) = Some c'
    /\ content_score c' == 951 # 100
    /\ uid (cand_elem c') = 1.
Proof.
  destruct (Dict.get 1 (fst (raw_scores doc_two 25))) as [c|] eqn:E;
    [|vm_compute in E; discriminate E].
  destruct (score_paragraphs_scaled_once doc_two 25 1 c E) as (c' & Hc' & Hs & He).
  exists c'. split; [exact Hc'|].
  vm_compute in E. injection E as <-.
  rewrite Hs, He. split; vm_compute; reflexivity.
Defined.

Lemma score_paragraph_parent_entry root MIN_LEN st el p :
  parent_in root (uid el) = Some p -> MIN_LEN <= text_length el ->
  exists c, Dict.get (uid p) (fst (score_paragraph root MIN_LEN st el)) = Some c.
Proof.
  intros Hp Hlen. unfold score_paragraph. rewrite Hp.
  apply Nat.ltb_ge in Hlen. unfold text_length in Hlen. rewrite Hlen.
  destruct (score_before_ensure p st) as (c1 & Hc1 & _).
  set (x := paragraph_score (clean (text_content el))).
  assert (Hx : (0 <= x)%Q).
  { eapply Qle_trans; [|apply paragraph_score_ge]. discriminate. }
  assert (Hx2 : (0 <= x / 2)%Q).
  { apply Qle_shift_div_l; [reflexivity|]. now rewrite Qmult_0_l. }
  destruct (parent_in root (uid p)) as [g|].
  - pose proof (get_ensure_some g _ _ _ Hc1) as H2.
    destruct (ensure g (ensure p st)) as [cs ordered]. cbn [fst] in *.
    destruct (get_add_score_ge (uid p) x cs _ _ Hx H2) as (c2 & Hc2 & _).
    destruct (get_add_score_ge (uid g) (x / 2)%Q _ _ _ Hx2 Hc2) as (c3 & Hc3 & _).
    eauto.
  - destruct (ensure p st) as [cs ordered]. cbn [fst] in *.
    destruct (get_add_score_ge (uid p) x cs _ _ Hx Hc1) as (c2 & Hc2 & _).
    eauto.
Qed.

(** X8. The scorer returns no candidate at all exactly when no [<p>],
    [<pre>] or [<td>] of the tree has both a parent and a cleaned text of at
    least [MIN_LEN] characters. *)
Theorem score_paragraphs_empty_iff (root : elem) (MIN_LEN : nat) :
  score_paragraphs root MIN_LEN = []
  <-> forall el, In el (tags root ["p"; "pre"; "td"]) ->
        parent_in root (uid el) = None \/ text_length el < MIN_LEN.
Proof.
  split.
  - intros Hempty el Hel.
    destruct (parent_in root (uid el)) as [p|] eqn:Hp; [|now left].
    destruct (Nat.lt_ge_cases (text_length el) MIN_LEN) as [Hlt|Hge]; [now right|].
    exfalso. apply in_split in Hel as (l1 & l2 & Hl).
    rewrite score_paragraphs_scaled in Hempty. apply map_eq_nil in Hempty.
    unfold raw_scores in Hempty. rewrite Hl, fold_left_app in Hempty.
    cbn [fold_left] in Hempty.
    set (st1 := fold_left (score_paragraph root MIN_LEN) l1 ([], [])) in Hempty.
    destruct (score_paragraph_parent_entry root MIN_LEN st1 el p Hp Hge) as [c Hc].
    destruct (score_paragraph root MIN_LEN st1 el) as [cs ordered] eqn:E.
    destruct (score_paragraphs_never_lower_aux root MIN_LEN l2 cs ordered (uid p) c Hc)
      as (c' & Hc' & _).
    rewrite Hempty in Hc'. discriminate.
  - intros H. destruct (score_paragraphs root MIN_LEN) as [|[k c] r] eqn:E;
      [reflexivity|].
    destruct (score_paragraphs_candidates_aux root MIN_LEN) as [_ Hc].
    destruct (Hc k c) as (_ & el & Hel & Hlen & Hnear).
    { rewrite E. now left. }
    destruct (H el Hel) as [Hp|Hlt]; [|lia].
    destruct Hnear as [Hn|(p & Hn & _)]; congruence.
Qed.

(** X9. [select_best_candidate] returns nothing exactly for an empty dict;
    otherwise it returns the candidate that was inserted first among those
    with the highest score: every candidate inserted before it scores
    strictly less, none inserted after it scores more. *)
Theorem select_best_candidate_spec (cs : candidates) :
  (select_best_candidate cs = None <-> cs = [])
  /\ forall b, select_best_candidate cs = Some b ->
       exists l1 l2, Dict.values cs = l1 ++ b :: l2
         /\ (forall c, In c l1 -> (content_score c < content_score b)%Q)
         /\ (forall c, In c l2 -> (content_score c <= content_score b)%Q).
Proof.
  rewrite select_best_candidate_first_max. split.
  - split.
    + destruct cs as [|[k c] r]; [reflexivity|].
      cbn [Dict.values map snd first_max].
      destruct (first_max (map snd r)); [|discriminate].
      destruct (Qle_bool _ _); discriminate.
    + intros ->. reflexivity.
  - apply first_max_spec.
Qed.

(** ** Dropping elements *)

Lemma label_set_tail e t : label (set_tail e t) = label e.
Proof. now destruct e. Qed.

Lemma descendants_set_tail e t : descendants (set_tail e t) = descendants e.
Proof. now destruct e. Qed.

Lemma label_drop_tree u e : label (drop_tree u e) = label e.
Proof.
  destruct e as [i t a x c tl]. cbn [drop_tree].
  now destruct (remove_child u x (map (drop_tree u) c)).
Qed.

Lemma descendants_kids e : descendants e = kids (children e).
Proof. now destruct e. Qed.

Lemma kids_cons k r : kids (k :: r) = k :: descendants k ++ kids r.
Proof. reflexivity. Qed.

Lemma labels_kids_cons k r :
  map label (kids (k :: r)) = label k :: labels k ++ map label (kids r).
Proof. rewrite kids_cons. cbn [map]. now rewrite map_app. Qed.

Lemma uids_kids_cons k r :
  map uid (kids (k :: r)) = uid k :: map uid (descendants k) ++ map uid (kids r).
Proof. rewrite kids_cons. cbn [map]. now rewrite map_app. Qed.

Lemma labels_remove_after u prev l :
  sublist (map label (kids (remove_after u prev l))) (map label (kids (prev :: l))).
Proof.
  revert prev. induction l as [|k r IH]; intros prev; [reflexivity|].
  cbn [remove_after]. destruct (uid k =? u).
  - rewrite !labels_kids_cons. unfold labels.
    rewrite descendants_set_tail, label_set_tail.
    apply sublist_skip. apply sublist_app; [reflexivity|].
    apply sublist_cons, sublist_inserts_l. reflexivity.
  - rewrite (labels_kids_cons prev (remove_after u k r)).
    rewrite (labels_kids_cons prev (k :: r)).
    apply sublist_skip. apply sublist_app; [reflexivity|]. apply IH.
Qed.

Lemma labels_remove_child u x c :
  sublist (map label (kids (snd (remove_child u x c)))) (map label (kids c)).
Proof.
  destruct c as [|k r]; [reflexivity|]. cbn [remove_child].
  destruct (uid k =? u); cbn [snd].
  - rewrite labels_kids_cons. apply sublist_cons, sublist_inserts_l. reflexivity.
  - apply labels_remove_after.
Qed.

Lemma drop_tree_children u e :
  children (drop_tree u e)
  = snd (remove_child u (text e) (map (drop_tree u) (children e))).
Proof.
  destruct e as [i t a x c tl]. cbn [drop_tree children text].
  now destruct (remove_child u x (map (drop_tree u) c)).
Qed.

(** Dropping takes elements away and leaves the others what they were. *)
Lemma labels_drop_tree u e : sublist (labels (drop_tree u e)) (labels e).
Proof.
  induction e as [i t a x c tl IH] using elem_tree_ind.
  unfold labels. rewrite !descendants_kids, drop_tree_children.
  cbn [children text].
  etransitivity; [apply labels_remove_child|].
  induction c as [|k c IHc]; [reflexivity|].
  apply Forall_cons_iff in IH as [IHk IH].
  cbn [map]. rewrite !labels_kids_cons, label_drop_tree. apply sublist_skip.
  apply sublist_app; [exact IHk|now apply IHc].
Qed.

Lemma sublist_in {A} (l1 l2 : list A) x : sublist l1 l2 -> In x l1 -> In x l2.
Proof.
  intros H Hx. apply list_elem_of_In. eapply sublist_subseteq; [exact H|].
  now apply list_elem_of_In.
Qed.

Lemma uids_labels e : uids e = map (fun l => fst (fst l)) (labels e).
Proof. unfold labels. rewrite map_map. reflexivity. Qed.

Lemma uids_drop_tree u e : sublist (uids (drop_tree u e)) (uids e).
Proof. rewrite !uids_labels. apply sublist_map, labels_drop_tree. Qed.

Lemma nodup_kids_cons k r :
  NoDup (map uid (kids (k :: r))) ->
  ~ In (uid k) (map uid (kids r)) /\ NoDup (uids k) /\ NoDup (map uid (kids r)).
Proof.
  rewrite uids_kids_cons. intros H. apply NoDup_cons in H as [Hni H].
  apply NoDup_app in H as (H1 & _ & H2).
  split; [|now split]. intros Hin. apply Hni.
  apply list_elem_of_In, in_or_app. now right.
Qed.

Lemma not_in_remove_after u prev l :
  NoDup (map uid (kids (prev :: l))) ->
  uid prev <> u -> ~ In u (uids prev) ->
  (forall k, In k l -> ~ In u (uids k)) ->
  ~ In u (map uid (kids (remove_after u prev l))).
Proof.
  revert prev. induction l as [|k r IH]; intros prev Hn Hp Hpd Hl.
  - cbn [remove_after]. rewrite uids_kids_cons. cbn [flat_map map].
    rewrite app_nil_r. intros [H|H]; [now apply Hp|now apply Hpd].
  - apply nodup_kids_cons in Hn as (_ & _ & Hn).
    cbn [remove_after]. destruct (uid k =? u) eqn:E.
    + apply Nat.eqb_eq in E. apply nodup_kids_cons in Hn as (Hk & _ & _).
      rewrite uids_kids_cons, descendants_set_tail.
      replace (uid (set_tail prev (tail prev ++ tail k))) with (uid prev)
        by now destruct prev.
      intros [H|H]; [now apply Hp|].
      apply in_app_or in H as [H|H]; [now apply Hpd|]. subst u. now apply Hk.
    + apply Nat.eqb_neq in E. rewrite uids_kids_cons.
      intros [H|H]; [now apply Hp|].
      apply in_app_or in H as [H|H]; [now apply Hpd|].
      revert H. apply IH; [exact Hn|exact E| |].
      * apply Hl. now left.
      * intros k' Hk'. apply Hl. now right.
Qed.

Lemma not_in_remove_child u x c :
  NoDup (map uid (kids c)) ->
  (forall k, In k c -> ~ In u (uids k)) ->
  ~ In u (map uid (kids (snd (remove_child u x c)))).
Proof.
  destruct c as [|k r]; [intros _ _ []|]. intros Hn Hl.
  cbn [remove_child]. destruct (uid k =? u) eqn:E; cbn [snd].
  - apply Nat.eqb_eq in E. apply nodup_kids_cons in Hn as (Hk & _ & _).
    now subst u.
  - apply Nat.eqb_neq in E. apply not_in_remove_after; [exact Hn|exact E| |].
    + apply Hl. now left.
    + intros k' Hk'. apply Hl. now right.
Qed.

(** In a tree without double identifiers, the dropped element is gone. *)
Lemma drop_tree_gone u e : NoDup (uids e) -> ~ In u (uids (drop_tree u e)).
Proof.
  induction e as [i t a x c tl IH] using elem_tree_ind.
  rewrite !descendants_kids, drop_tree_children. cbn [children text].
  intros Hn. apply not_in_remove_child.
  - eapply sublist_NoDup; [exact Hn|].
    clear -c. induction c as [|k c IHc]; [reflexivity|].
    cbn [map]. rewrite !uids_kids_cons.
    replace (uid (drop_tree u k)) with (uid k)
      by (pose proof (label_drop_tree u k) as H; now injection H).
    apply sublist_skip. apply sublist_app; [apply uids_drop_tree|exact IHc].
  - intros k' Hk'. apply in_map_iff in Hk' as (k & <- & Hk).
    rewrite List.Forall_forall in IH. apply (IH k Hk).
    clear -Hn Hk. induction c as [|k0 c IHc]; [destruct Hk|].
    apply nodup_kids_cons in Hn as (_ & H0 & Hn).
    destruct Hk as [->|Hk]; [exact H0|now apply IHc].
Qed.

Lemma labels_drop_all l node :
  sublist (labels (drop_all l node)) (labels node)
  /\ label (drop_all l node) = label node.
Proof.
  unfold drop_all. revert node. induction l as [|i l IH]; intros node;
    [split; reflexivity|].
  cbn [fold_left]. destruct (IH (drop_tree (uid i) node)) as [H1 H2]. split.
  - etransitivity; [exact H1|apply labels_drop_tree].
  - rewrite H2. apply label_drop_tree.
Qed.

Lemma drop_all_gone l node i :
  NoDup (uids node) -> In i l -> ~ In (uid i) (uids (drop_all l node)).
Proof.
  unfold drop_all. revert node. induction l as [|j l IH]; intros node Hn [];
    cbn [fold_left].
  - subst j. intros Hin.
    apply (drop_tree_gone (uid i) node Hn).
    eapply sublist_in; [|exact Hin].
    rewrite !uids_labels. apply sublist_map.
    apply (proj1 (labels_drop_all l (drop_tree (uid i) node))).
  - apply IH; [|assumption].
    eapply sublist_NoDup; [exact Hn|apply uids_drop_tree].
Qed.

Lemma wf_uids e : wf e -> NoDup (uids e).
Proof. unfold wf, iter. cbn [map]. intros H. now apply NoDup_cons in H as [_ H]. Qed.

(** After every descendant with a property of its tag and attributes is
    dropped, none is left. *)
Lemma drop_all_marked_gone (P : elem -> bool) l node d :
  (forall a b, label a = label b -> P a = P b) ->
  NoDup (uids node) ->
  (forall d0, In d0 (descendants node) -> P d0 = true -> In d0 l) ->
  In d (descendants (drop_all l node)) -> P d = false.
Proof.
  intros HP Hn Hall Hd. destruct (P d) eqn:E; [|reflexivity]. exfalso.
  destruct (labels_drop_all l node) as [Hsub _].
  assert (Hl : In (label d) (labels node)).
  { eapply sublist_in; [exact Hsub|]. exact (in_map label _ _ Hd). }
  apply in_map_iff in Hl as (d0 & Hl0 & Hd0).
  assert (Hin : In d0 l).
  { apply Hall; [exact Hd0|]. rewrite (HP _ _ Hl0). exact E. }
  apply (drop_all_gone _ node d0 Hn Hin).
  injection Hl0 as Hu _ _. rewrite Hu. exact (in_map uid _ _ Hd).
Qed.

Lemma has_tag_label name a b : label a = label b -> has_tag name a = has_tag name b.
Proof. unfold has_tag. intros [= _ -> _]. reflexivity. Qed.

Lemma drop_all_tag_gone l node d name :
  NoDup (uids node) ->
  (forall d0, In d0 (descendants node) -> has_tag name d0 = true -> In d0 l) ->
  In d (descendants (drop_all l node)) -> has_tag name d = false.
Proof. apply (drop_all_marked_gone (has_tag name)), has_tag_label. Qed.

Lemma in_tags node names name d :
  In name names -> In d (descendants node) -> has_tag name d = true ->
  In d (tags node names).
Proof.
  intros Hname Hd Ht. apply in_flat_map. exists name. split; [exact Hname|].
  apply list_elem_of_In, list_elem_of_filter. split; [exact Ht|].
  now apply list_elem_of_In.
Qed.

(** X10. After the bad tags are dropped (lines 236-240) no element with a
    tag of [BADTAGS] is left below the root, and every element that is left
    was there before, with the tag and the attributes it had. *)
Theorem drop_badtags_none_left (html : elem) :
  wf html ->
  (forall d name, In d (descendants (Document.drop_badtags html)) ->
                  In name Document.BADTAGS -> has_tag name d = false)
  /\ sublist (labels (Document.drop_badtags html)) (labels html)
  /\ label (Document.drop_badtags html) = label html.
Proof.
  intros Hwf. apply wf_uids in Hwf. split.
  - intros d name Hd Hname.
    apply (drop_all_tag_gone (tags html Document.BADTAGS) html d name Hwf);
      [|exact Hd].
    intros d0 Hd0 Ht. now apply (in_tags html Document.BADTAGS name).
  - apply (labels_drop_all (tags html Document.BADTAGS) html).
Qed.

Lemma wf_article_form : wf article_form.
Proof. apply (bool_decide_eq_true_1 _). vm_compute. reflexivity. Qed.

Lemma drop_badtags_none_left_witness :
  (forall d name, In d (descendants (Document.drop_badtags article_form)) ->
                  In name Document.BADTAGS -> has_tag name d = false)
  /\ sublist (labels (Document.drop_badtags article_form)) (labels article_form)
  /\ label (Document.drop_badtags article_form) = label article_form.
Proof. exact (drop_badtags_none_left article_form wf_article_form). Defined.

(** ** The sanitizer as a whole *)

Lemma labels_clean_conditionally MIN_LEN cs st u :
  sublist (labels (fst (clean_conditionally MIN_LEN cs st u))) (labels (fst st))
  /\ label (fst (clean_conditionally MIN_LEN cs st u)) = label (fst st).
Proof.
  assert (Hsame : sublist (labels (fst st)) (labels (fst st))
                  /\ label (fst st) = label (fst st)) by (split; reflexivity).
  destruct st as [node allowed]. unfold clean_conditionally. cbn [fst] in *.
  assert (Hdrop : forall a : gset nat,
             sublist (labels (fst (drop_tree u node, a))) (labels node)
             /\ label (fst (drop_tree u node, a)) = label node).
  { intros a. cbn [fst]. split; [apply labels_drop_tree|apply label_drop_tree]. }
  destruct (bool_decide _); [exact Hsame|].
  destruct (lookup_uid node u) as [el|]; [|exact Hsame].
  destruct (Qltb _ _); [apply Hdrop|].
  destruct (_ <? 10); [|exact Hsame].
  destruct (judge _ _ _ _ _) as [[|] a]; [apply Hdrop|exact Hsame].
Qed.

Lemma labels_fold_clean MIN_LEN cs l st :
  sublist (labels (fst (fold_left (clean_conditionally MIN_LEN cs) l st)))
          (labels (fst st))
  /\ label (fst (fold_left (clean_conditionally MIN_LEN cs) l st)) = label (fst st).
Proof.
  revert st. induction l as [|u l IH]; intros st; [split; reflexivity|].
  cbn [fold_left].
  destruct (IH (clean_conditionally MIN_LEN cs st u)) as [H1 H2].
  destruct (labels_clean_conditionally MIN_LEN cs st u) as [H3 H4].
  split; [etransitivity; eassumption|congruence].
Qed.

Lemma labels_clean_tables MIN_LEN cs node :
  sublist (labels (fst (clean_tables_lists_divs MIN_LEN cs node))) (labels node)
  /\ label (fst (clean_tables_lists_divs MIN_LEN cs node)) = label node.
Proof.
  unfold clean_tables_lists_divs.
  change node with (fst (node, (∅ : gset nat))) at 2 4.
  generalize (node, (∅ : gset nat)).
  induction ["table"; "ul"; "div"] as [|name names IH]; intros st;
    [split; reflexivity|].
  cbn [fold_left]. destruct (IH (clean_pass MIN_LEN cs st name)) as [H1 H2].
  destruct (labels_fold_clean MIN_LEN cs
              (map uid (rev (findall (fst st) name))) st) as [H3 H4].
  fold (clean_pass MIN_LEN cs st name) in H3, H4.
  split; [etransitivity; eassumption|congruence].
Qed.

Lemma labels_drop_if_empty n u :
  sublist (labels (drop_if_empty n u)) (labels n)
  /\ label (drop_if_empty n u) = label n.
Proof.
  unfold drop_if_empty. destruct (lookup_uid n u) as [el|]; [|split; reflexivity].
  destruct (Py.strip (text_content el)); [|split; reflexivity].
  split; [apply labels_drop_tree|apply label_drop_tree].
Qed.

Lemma labels_remove_empty node :
  sublist (labels (remove_empty node)) (labels node)
  /\ label (remove_empty node) = label node.
Proof.
  unfold remove_empty. generalize (map uid (rev (descendants node))).
  intros l. revert node. induction l as [|u l IH]; intros node;
    [split; reflexivity|].
  cbn [fold_left]. destruct (IH (drop_if_empty node u)) as [H1 H2].
  destruct (labels_drop_if_empty node u) as [H3 H4].
  split; [etransitivity; eassumption|congruence].
Qed.

(** X11. [sanitize] only takes elements away: every element of the tree it
    leaves was in the article, in the same order, with the tag and the
    attributes it had, and the root stays.  No [<form>], [<iframe>] or
    [<textarea>] is left. *)
Theorem sanitize_only_removes (MIN_LEN : nat) (cs : candidates) (node : elem) :
  wf node ->
  sublist (labels (sanitize_tree MIN_LEN cs node)) (labels node)
  /\ label (sanitize_tree MIN_LEN cs node) = label node
  /\ forall d name, In d (descendants (sanitize_tree MIN_LEN cs node)) ->
        In name ["form"; "iframe"; "textarea"] -> has_tag name d = false.
Proof.
  intros Hwf. apply wf_uids in Hwf. unfold sanitize_tree.
  set (to_drop := _ ++ tags node ["form"; "iframe"; "textarea"]).
  set (n1 := drop_all to_drop node).
  set (n2 := fst (clean_tables_lists_divs MIN_LEN cs n1)).
  destruct (labels_drop_all to_drop node) as [A1 A2]. fold n1 in A1, A2.
  destruct (labels_clean_tables MIN_LEN cs n1) as [B1 B2]. fold n2 in B1, B2.
  destruct (labels_remove_empty n2) as [C1 C2].
  assert (Hsub : sublist (labels (remove_empty n2)) (labels n1))
    by (etransitivity; eassumption).
  split; [etransitivity; eassumption|]. split; [congruence|].
  intros d name Hd Hname.
  destruct (has_tag name d) eqn:E; [|reflexivity]. exfalso.
  assert (Hl : In (label d) (labels n1)).
  { eapply sublist_in; [exact Hsub|]. exact (in_map label _ _ Hd). }
  apply in_map_iff in Hl as (d1 & Hl1 & Hd1).
  assert (Ht : has_tag name d1 = true).
  { clear - Hl1 E. unfold has_tag in *. injection Hl1 as _ Ht _.
    rewrite Ht. exact E. }
  assert (Hf : has_tag name d1 = false); [|congruence].
  apply (drop_all_tag_gone to_drop node d1 name Hwf); [|exact Hd1].
  intros d0 Hd0 Ht0. apply in_or_app. right.
  exact (in_tags node ["form"; "iframe"; "textarea"] name d0 Hname Hd0 Ht0).
Qed.

Lemma sanitize_only_removes_witness :
  sublist (labels (sanitize_tree 25 [] article_form)) (labels article_form)
  /\ label (sanitize_tree 25 [] article_form) = label article_form
  /\ forall d name, In d (descendants (sanitize_tree 25 [] article_form)) ->
        In name ["form"; "iframe"; "textarea"] -> has_tag name d = false.
Proof. exact (sanitize_only_removes 25 [] article_form wf_article_form). Defined.

(** On [article_form] the header with the class "comment", the form with its
    textarea and the empty paragraph go; the tail of the form stays as the
    tail of the header's place. *)
Example sanitize_article_form :
  map uid (descendants (sanitize_tree 25 [] article_form)) = [4; 5].
Proof. vm_compute. reflexivity. Qed.

(** X12. A [<table>], [<ul>] or [<div>] that any rule but the last marks
    for removal is dropped without a look at its siblings. *)
Theorem removal_without_rescue (MIN_LEN : nat) (cs : candidates) (node : elem)
    (allowed : gset nat) (u : nat) (el : elem) (r : reason) :
  u ∉ allowed ->
  lookup_uid node u = Some el ->
  Qltb (inject_Z (class_weight el) + candidate_score cs u) 0 = false ->
  count_chr comma (text_content el) < 10 ->
  removal_reason MIN_LEN el (class_weight el) = Some r ->
  r <> too_many_embeds ->
  clean_conditionally MIN_LEN cs (node, allowed) u = (drop_tree u node, allowed).
Proof.
  intros Hal Hel Hw Hc Hr Hne. unfold clean_conditionally.
  rewrite bool_decide_eq_false_2 by exact Hal.
  rewrite Hel, Hw. apply Nat.ltb_lt in Hc. rewrite Hc.
  now rewrite (judge_other _ _ _ _ _ r Hr Hne).
Qed.

Lemma removal_without_rescue_witness :
  clean_conditionally 25 [] (article_short, ∅) 2 = (drop_tree 2 article_short, ∅).
Proof.
  apply (removal_without_rescue 25 [] article_short ∅ 2 div_short too_short).
  - apply not_elem_of_empty.
  - vm_compute. reflexivity.
  - vm_compute. reflexivity.
  - vm_compute. lia.
  - vm_compute. reflexivity.
  - discriminate.
Defined.


(** ** The domain strip and the tag strip of the collector *)

Lemma startswith_take s p : startswith s p = true -> s = p ++ drop (length p) s.
Proof.
  revert s. induction p as [|c p IH]; intros s H; [reflexivity|].
  destruct s as [|y s]; [discriminate|]. cbn [startswith] in H.
  apply andb_true_iff in H as [Hc H]. apply Ascii.eqb_eq in Hc. subst y.
  cbn [length drop app]. f_equal. now apply IH.
Qed.

Lemma endswith_take s p :
  endswith s p = true -> s = take (length s - length p) s ++ p.
Proof.
  unfold endswith. intros H. apply startswith_take in H.
  apply (f_equal (@rev ascii)) in H.
  rewrite rev_involutive, rev_app_distr, rev_involutive in H.
  remember (rev (drop (length (rev p)) (rev s))) as x eqn:Hx. clear Hx.
  subst s. rewrite length_app, Nat.add_sub, take_app_length. reflexivity.
Qed.

Lemma lower_take n s : lower (take n s) = take n (lower s).
Proof. unfold lower. now rewrite <- fmap_take. Qed.

Lemma lower_drop n s : lower (drop n s) = drop n (lower s).
Proof. unfold lower. now rewrite <- fmap_drop. Qed.


Lemma one_some p k s n : Re.one p k s = Some n -> exists m, n = S m.
Proof.
  destruct s as [|c r]; [discriminate|]. cbn [Re.one].
  destruct (p c); [|discriminate]. destruct (k r); [|discriminate].
  intros [= <-]. eauto.
Qed.

Lemma lazy_closes r :
  Re.lazy_star (fun c => negb (is_nl c))
               (Re.one (fun c => code c =? 62) Re.accept) r = None
  <-> closes r = false.
Proof.
  induction r as [|x r IH]; [now split|].
  cbn [Re.lazy_star Re.one closes Re.accept].
  destruct (code x =? 62); [now split|]. cbn [fmap option_fmap option_map orb].
  destruct (negb (is_nl x)); cbn [andb]; [|now split].
  destruct (Re.lazy_star _ _ r); cbn [fmap option_fmap option_map].
  - split; [discriminate|]. intros H. apply IH in H. discriminate.
  - split; [|reflexivity]. intros _. now apply IH.
Qed.

(** [<.*?>] matches at the head of [c :: r] exactly when [c] is [<] and a
    [>] follows on the line. *)
Lemma tag_like_none c r :
  Re.tag_like (c :: r) = None <-> (code c = 60 -> closes r = false).
Proof.
  unfold Re.tag_like. cbn [Re.one]. destruct (code c =? 60) eqn:E.
  - apply Nat.eqb_eq in E.
    destruct (Re.lazy_star _ _ r) eqn:El; cbn [fmap option_fmap option_map].
    + split; [discriminate|]. intros H. apply H, lazy_closes in E.
      rewrite E in El. discriminate.
    + split; [|reflexivity]. intros _ _. now apply lazy_closes.
  - apply Nat.eqb_neq in E. split; [|reflexivity]. intros _ H. contradiction.
Qed.

Lemma tag_like_some c r n :
  Re.tag_like (c :: r) = Some n ->
  code c = 60 /\ closes r = true /\ exists m, n = S m.
Proof.
  intros H. destruct (one_some _ _ _ _ H) as [m ->].
  split; [|split; [|eauto]].
  - unfold Re.tag_like in H. cbn [Re.one] in H.
    destruct (code c =? 60) eqn:E; [now apply Nat.eqb_eq|discriminate].
  - destruct (closes r) eqn:E; [reflexivity|].
    assert (Hn : Re.tag_like (c :: r) = None) by now apply tag_like_none.
    congruence.
Qed.

Lemma strip_tags_cons c r :
  strip_tags (c :: r)
  = match Re.tag_like (c :: r) with
    | Some (S n) => strip_tags (drop n r)
    | _ => c :: strip_tags r
    end.
Proof.
  unfold strip_tags, Re.sub. cbn [Re.sub_from].
  destruct (Re.tag_like (c :: r)) as [[|n]|]; try reflexivity.
  cbn [app]. apply sub_from_drop.
Qed.

(** What is removed holds no line break, so a [>] that closes a line of
    the result closed it before. *)
Lemma closes_strip_tags s : closes (strip_tags s) = true -> closes s = true.
Proof.
  remember (length s) as n eqn:Hn. revert s Hn.
  induction n as [n IH] using lt_wf_ind. intros s Hn.
  destruct s as [|c r]; [easy|]. rewrite strip_tags_cons.
  destruct (Re.tag_like (c :: r)) as [k|] eqn:E.
  - apply tag_like_some in E as (Hc & Hr & m & ->). intros _.
    cbn [closes]. rewrite Hr, andb_true_r.
    assert (Hnl : is_nl c = false).
    { unfold is_nl. rewrite Hc. reflexivity. }
    rewrite Hnl. apply orb_true_r.
  - cbn [closes]. intros H. apply orb_true_iff in H as [H|H];
      [now rewrite H|].
    apply andb_true_iff in H as [H1 H2]. rewrite H1.
    rewrite (IH (length r)); [apply orb_true_r| |reflexivity|exact H2].
    subst n. simpl. lia.
Qed.

Lemma no_tag_strip_tags s : no_tag (strip_tags s).
Proof.
  remember (length s) as n eqn:Hn. revert s Hn.
  induction n as [n IH] using lt_wf_ind. intros s Hn.
  destruct s as [|c r]; [exact I|]. rewrite strip_tags_cons.
  destruct (Re.tag_like (c :: r)) as [k|] eqn:E.
  - apply tag_like_some in E as (_ & _ & m & ->).
    eapply IH; [|reflexivity]. subst n. rewrite length_drop. simpl. lia.
  - split.
    + intros Hc. destruct (closes (strip_tags r)) eqn:Er; [|reflexivity].
      apply closes_strip_tags in Er.
      pose proof (proj1 (tag_like_none c r) E Hc). congruence.
    + eapply IH; [|reflexivity]. subst n. simpl. lia.
Qed.

Lemma no_tag_fixed s : no_tag s -> strip_tags s = s.
Proof.
  induction s as [|c r IH]; [reflexivity|]. intros [Hc Hr].
  rewrite strip_tags_cons.
  rewrite (proj2 (tag_like_none c r) Hc). now rewrite IH.
Qed.

Lemma no_tag_drop i s : no_tag s -> no_tag (drop i s).
Proof.
  revert s. induction i as [|i IH]; intros s H; [exact H|].
  destruct s as [|c r]; [exact I|]. cbn [drop]. apply IH, H.
Qed.

Lemma strip_tags_length s : length (strip_tags s) <= length s.
Proof.
  assert (H : forall n s, length s <= n -> length (strip_tags s) <= length s).
  { clear s. induction n as [|n IH]; intros s Hn.
    - destruct s; [reflexivity|simpl in Hn; lia].
    - destruct s as [|c r]; [reflexivity|]. rewrite strip_tags_cons.
      cbn [length] in Hn.
      destruct (Re.tag_like (c :: r)) as [[|k]|] eqn:E; cbn [length].
      + specialize (IH r). lia.
      + specialize (IH (drop k r)). rewrite length_drop in IH. lia.
      + specialize (IH r). lia. }
  now apply (H (length s)).
Qed.

(** X14. After [re.sub("<.*?>", '', s)] the pattern matches nowhere in
    the text, so a second pass changes nothing; and the text is no longer
    than it was. *)
Theorem strip_tags_no_tag_left (s : str) :
  (forall i, Re.tag_like (drop i (strip_tags s)) = None)
  /\ strip_tags (strip_tags s) = strip_tags s
  /\ length (strip_tags s) <= length s.
Proof.
  split; [|split].
  - intros i. pose proof (no_tag_drop i _ (no_tag_strip_tags s)) as H.
    destruct (drop i (strip_tags s)) as [|c r]; [reflexivity|].
    apply tag_like_none, H.
  - apply no_tag_fixed, no_tag_strip_tags.
  - apply strip_tags_length.
Qed.

(** A [<] that closes only after a line break stays, with the text up to
    the [>]: the case behind the failure of the first paragraph. *)
Example strip_tags_line_break :
  strip_tags (lit "a <b>c</b" ++ [nl] ++ lit "> d") = lit "a c</b" ++ [nl] ++ lit "> d".
Proof. vm_compute. reflexivity. Qed.

(** ** [addMeta] after its first paragraph *)

Lemma addMeta_step_bound fragment_fromstring domain c m el :
  exists c' m',
    addMeta_step fragment_fromstring domain (Ok (c, Some m)) el = Ok (c', Some m').
Proof.
  unfold addMeta_step. cbn [mbind exc_bind].
  destruct (meta_prop el) as [prop|]; [|eauto].
  destruct (in_list prop METAPROPS); [|eauto].
  destruct (bool_decide _); [|cbn; eauto].
  destruct (Document.strip _ domain) as [content|]; [|cbn; eauto].
  destruct (fragment_fromstring _); cbn; eauto.
Qed.

Lemma fold_addMeta_bound fragment_fromstring domain l c m :
  exists c' m',
    fold_left (addMeta_step fragment_fromstring domain) l (Ok (c, Some m))
    = Ok (c', Some m').
Proof.
  revert c m. induction l as [|el l IH]; intros c m; [eauto|].
  cbn [fold_left].
  destruct (addMeta_step_bound fragment_fromstring domain c m el)
    as (c1 & m1 & ->).
  apply IH.
Qed.

(** X15. [addMeta] can fail only before its first paragraph: once one
    fragment has parsed, a later one that does not parse is passed over
    and the call comes back. *)
Theorem addMeta_fails_only_first (fragment_fromstring : str -> option elem)
    (domain : option str) (html : elem) (c c1 : collector) (m : elem)
    (l1 l2 : list elem) :
  findall html "meta" = l1 ++ l2 ->
  fold_left (addMeta_step fragment_fromstring domain) l1 (Ok (c, None))
  = Ok (c1, Some m) ->
  exists c', addMeta fragment_fromstring domain html c = Ok c'.
Proof.
  intros Hl H1. unfold addMeta. rewrite Hl, fold_left_app, H1.
  destruct (fold_addMeta_bound fragment_fromstring domain l2 c1 m)
    as (c' & m' & ->).
  cbn. eauto.
Qed.

Lemma addMeta_fails_only_first_witness :
  exists c',
    addMeta plain_fragment None page_later_broken
      {| dedupe := ∅; base := []; fresh := 100 |} = Ok c'.
Proof.
  eapply (addMeta_fails_only_first plain_fragment None page_later_broken _ _ _
            [meta_tag 11 "name" "keywords" "a, b"] [meta_broken]).
  - vm_compute. reflexivity.
  - cbv. reflexivity.
Defined.

(** The paragraph of the first [<meta>] is the only one: the second does
    not parse, and the insert puts the first one in again. *)
Example addMeta_later_broken :
  base <$> (match addMeta plain_fragment None page_later_broken
                    {| dedupe := ∅; base := []; fresh := 100 |} with
            | Ok c => Some c
            | Raise _ => None
            end)
  = Some [Elem 100 (lit "p") [(lit "class", lit "econtextmax meta keywords")]
            (lit "a, b") [] []].
Proof. vm_compute. reflexivity. Qed.

(** ** The turns of [summary] *)

Section DriverExtras.

Variable _parse : exc elem.
Variable fragment_fromstring : str -> option elem.
Variable domain : option str.
Variable MIN_LEN : nat.
Variable retry_length : nat.
Variable fresh_uid : nat.
Variable remove_unlikely_candidates : elem -> exc elem.
Variable transform_misused_divs_into_paragraphs : elem -> exc elem.
Variable get_article : elem -> candidates -> candidate -> bool -> exc elem.
Variable sanitize : elem -> candidates -> exc elem.
Variable get_clean_html : elem -> str.

Local Abbreviation html_ := (_html _parse fragment_fromstring domain fresh_uid).
Local Abbreviation finish_ := (finish retry_length sanitize get_clean_html).
Local Abbreviation prepare_ :=
  (prepare remove_unlikely_candidates transform_misused_divs_into_paragraphs).
Local Abbreviation decide_ :=
  (decide_turn MIN_LEN retry_length get_article sanitize get_clean_html).
Local Abbreviation pass_ :=
  (pass _parse fragment_fromstring domain MIN_LEN retry_length fresh_uid
     remove_unlikely_candidates transform_misused_divs_into_paragraphs
     get_article sanitize get_clean_html).
Local Abbreviation loop_ :=
  (loop _parse fragment_fromstring domain MIN_LEN retry_length fresh_uid
     remove_unlikely_candidates transform_misused_divs_into_paragraphs
     get_article sanitize get_clean_html).
Local Abbreviation summary_ :=
  (summary _parse fragment_fromstring domain MIN_LEN retry_length fresh_uid
     remove_unlikely_candidates transform_misused_divs_into_paragraphs
     get_article sanitize get_clean_html).

Lemma finish_break article cs node :
  finish_ true article cs = Ok (Break node) ->
  sanitize article cs = Ok node /\ retry_length <= length (get_clean_html node).
Proof.
  unfold finish. destruct (sanitize article cs) as [n|e]; cbn; [|discriminate].
  destruct (retry_length <=? length (get_clean_html n)) eqn:E; cbn;
    [|discriminate].
  intros [= <-]. split; [reflexivity|now apply Nat.leb_le].
Qed.

Lemma decide_break html_partial html node :
  decide_ html_partial true html = Ok (Break node) ->
  exists best article,
    select_best_candidate (score_paragraphs html MIN_LEN) = Some best
    /\ get_article html (score_paragraphs html MIN_LEN) best html_partial = Ok article
    /\ sanitize article (score_paragraphs html MIN_LEN) = Ok node
    /\ retry_length <= length (get_clean_html node).
Proof.
  unfold decide_turn.
  destruct (select_best_candidate _) as [best|]; [|discriminate].
  destruct (get_article _ _ _ _) as [article|e] eqn:Ea; cbn; [|discriminate].
  intros H. apply finish_break in H as [H1 H2]. eauto 6.
Qed.

Lemma pass_break html_partial m m' node :
  pass_ html_partial true m = (m', Ok (Break node)) ->
  exists html0 html best article,
    _parse = Ok html0
    /\ prepare_ true html0 = Ok html
    /\ select_best_candidate (score_paragraphs html MIN_LEN) = Some best
    /\ get_article html (score_paragraphs html MIN_LEN) best html_partial = Ok article
    /\ sanitize article (score_paragraphs html MIN_LEN) = Ok node
    /\ retry_length <= length (get_clean_html node).
Proof.
  unfold pass. destruct (html_ m) as [m0 [h|e]] eqn:Eh; [|discriminate].
  intros [= _ H]. unfold turn_on in H.
  destruct (prepare_ true h) as [html|e] eqn:Ep; cbn in H; [|discriminate].
  apply decide_break in H as (best & article & H1 & H2 & H3 & H4).
  exists h, html, best, article. repeat split; try assumption.
  unfold _html in Eh. destruct _parse as [h0|e0]; [|discriminate].
  destruct m as [md|]; [now injection Eh as _ ->|].
  destruct (collectMetaTags _ _ _ _); [now injection Eh as _ ->|discriminate].
Qed.

(** X16. When [summary] is content with its first turn, the one that
    removes unlikely candidates, the article grew from a best candidate and
    its cleaned text has at least [retry_length] characters. *)
Theorem first_turn_long_enough (fuel : nat) (html_partial : bool)
    (metaTags mf : option elem) (node : elem) :
  loop_ fuel html_partial true metaTags = ([true], Some (mf, Ok node)) ->
  retry_length <= length (get_clean_html node)
  /\ exists html0 html best article,
       _parse = Ok html0
       /\ prepare_ true html0 = Ok html
       /\ select_best_candidate (score_paragraphs html MIN_LEN) = Some best
       /\ get_article html (score_paragraphs html MIN_LEN) best html_partial
          = Ok article
       /\ sanitize article (score_paragraphs html MIN_LEN) = Ok node.
Proof.
  destruct fuel as [|fuel]; [discriminate|]. cbn [loop].
  destruct (pass_ html_partial true metaTags) as [m' [[r|node']|e]] eqn:E.
  - destruct fuel as [|fuel]; [discriminate|]. cbn [loop].
    destruct (pass_ html_partial r m') as [m2 [[r2|n2]|e2]];
      [|discriminate..].
    destruct (loop_ fuel html_partial r2 m2). discriminate.
  - intros [= <- <-].
    apply pass_break in E as (h0 & h & best & article & H1 & H2 & H3 & H4 & H5 & H6).
    split; [exact H6|]. exists h0, h, best, article. auto.
  - discriminate.
Qed.

(** X17. [summary] ends in one of two ways: with [Unparseable], or with
    the serialization of the tree the sanitizer left, the metadata
    container put into it.  The insert after the loop always has its
    container; and a container the [Document] held before the call is the
    one that is used. *)
Theorem summary_returns_or_unparseable (fuel : nat) (html_partial : bool)
    (metaTags mf : option elem) (o : outcome) :
  summary_ fuel html_partial metaTags = Some (mf, o) ->
  ((exists e, o = Unparseable e)
   \/ exists trace node md,
        loop_ fuel html_partial true metaTags = (trace, Some (mf, Ok node))
        /\ mf = Some md
        /\ o = Returned (get_clean_html (_addMetaTags node md)))
  /\ (forall md0, metaTags = Some md0 -> mf = Some md0).
Proof.
  intros H. split.
  - unfold summary in H.
    destruct (loop_ fuel html_partial true metaTags) as [t [[m' [node|e']]|]] eqn:E;
      [| |discriminate].
    + destruct (loop_ok_meta _ _ _ _ _ _ _ _ _ _ _ _ _ _ _ _ _ _ E) as [md ->].
      injection H as <- <-. right. exists t, node, md. auto.
    + injection H as <- <-. left. eauto.
  - intros md0 ->. apply summary_state in H. rewrite H.
    unfold _html. now destruct _parse.
Qed.

End DriverExtras.

Lemma first_turn_long_enough_witness :
  exists mf node,
    Document.loop Sample._parse Document.plain_fragment None 25 10 100
      Sample.remove_unlikely_candidates
      Sample.transform_misused_divs_into_paragraphs
      Sample.get_article Sample.sanitize Sample.get_clean_html
      2 false true None = ([true], Some (mf, Ok node))
    /\ 10 <= length (Sample.get_clean_html node).
Proof.
  destruct (Document.loop Sample._parse Document.plain_fragment None 25 10 100
              Sample.remove_unlikely_candidates
              Sample.transform_misused_divs_into_paragraphs
              Sample.get_article Sample.sanitize Sample.get_clean_html
              2 false true None) as [t o] eqn:E.
  pose proof E as E'. vm_compute in E'. injection E' as <- <-.
  eexists. eexists. split; [reflexivity|].
  exact (proj1 (first_turn_long_enough Sample._parse Document.plain_fragment None
                  25 10 100 Sample.remove_unlikely_candidates
                  Sample.transform_misused_divs_into_paragraphs
                  Sample.get_article Sample.sanitize Sample.get_clean_html
                  2 false None _ _ E)).
Defined.

Lemma summary_returns_or_unparseable_witness :
  exists mf o,
    Sample.summary 2 None = Some (mf, o)
    /\ ((exists e, o = Unparseable e)
        \/ exists trace node md,
             Sample.loop 2 true None = (trace, Some (mf, Ok node))
             /\ mf = Some md
             /\ o = Returned (Sample.get_clean_html (_addMetaTags node md))).
Proof.
  destruct (Sample.summary 2 None) as [[mf o]|] eqn:E;
    [|vm_compute in E; discriminate E].
  exists mf, o. split; [reflexivity|].
  exact (proj1 (summary_returns_or_unparseable Sample._parse
                  Document.plain_fragment None 25 250 100
                  Sample.remove_unlikely_candidates
                  Sample.transform_misused_divs_into_paragraphs
                  Sample.get_article Sample.sanitize Sample.get_clean_html
                  2 false None mf o E)).
Defined.

(** ** Where the metadata container goes *)

Lemma insert_first_absent u md e :
  ~ In u (map uid (iter e)) -> insert_first u md e = e.
Proof.
  induction e as [i t a x c tl IH] using elem_tree_ind. intros Hn.
  cbn [insert_first]. destruct (i =? u) eqn:E.
  - apply Nat.eqb_eq in E. exfalso. apply Hn. now left.
  - f_equal. rewrite List.Forall_forall in IH.
    rewrite <- (map_id c) at 2. apply map_ext_in. intros k Hk.
    apply IH; [exact Hk|]. intros Hin. apply Hn. right.
    apply in_map_iff in Hin as (d & Hd & Hin). apply in_map_iff.
    exists d. split; [exact Hd|]. cbn [descendants]. apply in_flat_map.
    exists k. split; [exact Hk|exact Hin].
Qed.

Lemma find_absent u l :
  ~ In u (map uid l) -> List.find (fun d => uid d =? u) l = None.
Proof.
  intros Hn. destruct (List.find _ l) as [d|] eqn:E; [|reflexivity].
  apply find_some in E as [Hd E]. apply Nat.eqb_eq in E. exfalso.
  apply Hn. rewrite <- E. now apply in_map.
Qed.

Lemma find_app_uid u (l1 l2 : list elem) :
  List.find (fun d => uid d =? u) (l1 ++ l2)
  = match List.find (fun d => uid d =? u) l1 with
    | Some d => Some d
    | None => List.find (fun d => uid d =? u) l2
    end.
Proof.
  induction l1 as [|d l1 IH]; [reflexivity|]. cbn [app List.find].
  destruct (uid d =? u); [reflexivity|exact IH].
Qed.

Lemma iter_kids c : kids c = flat_map iter c.
Proof. reflexivity. Qed.

Lemma lookup_insert_first e b md :
  NoDup (map uid (iter e)) -> In b (iter e) ->
  List.find (fun d => uid d =? uid b) (iter (insert_first (uid b) md e))
  = Some (Elem (uid b) (tag b) (attrib b) (text b) (md :: children b) (tail b)).
Proof.
  induction e as [i t a x c tl IH] using elem_tree_ind. intros Hn Hb.
  cbn [insert_first]. destruct (i =? uid b) eqn:E.
  - apply Nat.eqb_eq in E. unfold iter at 1. cbn [List.find uid].
    rewrite (proj2 (Nat.eqb_eq _ _) E).
    assert (Hbe : b = Elem i t a x c tl).
    { destruct Hb as [<-|Hb]; [reflexivity|]. exfalso.
      unfold iter in Hn. cbn [map uid] in Hn. apply NoDup_cons in Hn as [Hn _].
      apply Hn. rewrite E. apply list_elem_of_In. now apply in_map. }
    subst b. reflexivity.
  - unfold iter at 1. cbn [List.find uid]. rewrite E.
    destruct Hb as [<-|Hb]; [cbn [uid] in E; now rewrite Nat.eqb_refl in E|].
    unfold iter in Hn. cbn [map] in Hn. apply NoDup_cons in Hn as [_ Hn].
    cbn [descendants] in Hb, Hn |- *. clear E.
    rewrite List.Forall_forall in IH.
    induction c as [|k c IHc]; [destruct Hb|].
    cbn [map].
    change (kids (insert_first (uid b) md k :: map (insert_first (uid b) md) c))
      with (iter (insert_first (uid b) md k)
            ++ kids (map (insert_first (uid b) md) c)).
    rewrite find_app_uid.
    change (map uid (kids (k :: c)))
      with (map uid (iter k ++ kids c)) in Hn.
    rewrite map_app in Hn. apply NoDup_app in Hn as (Hk & Hdis & Hc).
    change (kids (k :: c)) with (iter k ++ kids c) in Hb.
    apply in_app_or in Hb as [Hb|Hb].
    + rewrite (IH k (or_introl eq_refl) Hk Hb). reflexivity.
    + assert (Hnk : ~ In (uid b) (map uid (iter k))).
      { intros Hin. apply (Hdis (uid b)); apply list_elem_of_In;
          [exact Hin|now apply in_map]. }
      rewrite (insert_first_absent _ _ _ Hnk).
      rewrite (find_absent _ _ Hnk).
      apply IHc; [|exact Hc|exact Hb].
      intros k' Hk'. apply IH. now right.
Qed.

(** X18. [_addMetaTags] makes the container the first child of the first
    [<body>] of the tree, or of the root when there is none; the text and
    the children that element had come after it. *)
Theorem addMetaTags_first_child (html md : elem) :
  wf html ->
  let base := match findall html "body" with
              | b :: _ => b
              | [] => html
              end in
  lookup_uid (_addMetaTags html md) (uid base)
  = Some (Elem (uid base) (tag base) (attrib base) (text base)
               (md :: children base) (tail base)).
Proof.
  intros Hwf base. unfold lookup_uid, _addMetaTags. fold base.
  apply lookup_insert_first; [exact Hwf|].
  subst base. destruct (findall html "body") as [|b l] eqn:E; [now left|].
  right. assert (Hb : In b (findall html "body")) by (rewrite E; now left).
  unfold findall in Hb. apply list_elem_of_In, list_elem_of_filter in Hb as [_ Hb].
  now apply list_elem_of_In.
Qed.

Lemma wf_doc_one : wf doc_one_paragraph.
Proof. apply (bool_decide_eq_true_1 _). vm_compute. reflexivity. Qed.

Lemma addMetaTags_first_child_witness :
  lookup_uid (_addMetaTags doc_one_paragraph (metaDiv 100 [])) 1
  = Some (Elem 1 (lit "body") [] [] [metaDiv 100 []; div_one] []).
Proof. exact (addMetaTags_first_child doc_one_paragraph (metaDiv 100 []) wf_doc_one). Defined.

(** ** The article around the best candidate *)

Lemma uid_inj_in (l : list elem) a b :
  NoDup (map uid l) -> In a l -> In b l -> uid a = uid b -> a = b.
Proof.
  induction l as [|x l IH]; [intros _ []|]. cbn [map]. intros Hn Ha Hb E.
  apply NoDup_cons in Hn as [Hx Hn].
  destruct Ha as [<-|Ha], Hb as [<-|Hb]; [reflexivity| | |now apply IH].
  - exfalso. apply Hx. rewrite E. apply list_elem_of_In. now apply in_map.
  - exfalso. apply Hx. rewrite <- E. apply list_elem_of_In. now apply in_map.
Qed.

Lemma near_in_tree root el n : near root el n -> In n (iter root).
Proof.
  intros [H|(p & _ & H)]; now apply parent_in_spec in H.
Qed.

(** The element of a candidate is among its own siblings. *)
Lemma in_siblings html n : wf html -> In n (iter html) -> In n (siblings html n).
Proof.
  intros Hwf Hn. unfold siblings.
  destruct (parent_in html (uid n)) as [p|] eqn:E; [|now left].
  apply parent_in_spec in E as (Hp & k & Hk & Hu).
  assert (Hkin : In k (iter html)).
  { eapply sublist_in; [apply iter_sublist, Hp|].
    right. now apply descendants_children. }
  now rewrite <- (uid_inj_in (iter html) k n Hwf Hkin Hn Hu).
Qed.

Lemma best_in_candidates cs best :
  select_best_candidate cs = Some best -> exists k, In (k, best) cs.
Proof.
  rewrite select_best_candidate_first_max. intros H.
  apply first_max_spec in H as (l1 & l2 & Hv & _).
  assert (Hin : In best (Dict.values cs)).
  { rewrite Hv. apply in_or_app. right. now left. }
  unfold Dict.values in Hin. apply in_map_iff in Hin as ([k c] & <- & Hin).
  eauto.
Qed.

(** X19. The article [get_article] builds for the best candidate of
    [score_paragraphs] holds the element of that candidate; what it holds
    besides are siblings of that element, in the order they had. *)
Theorem get_article_keeps_best (u MIN_LEN : nat) (html : elem)
    (best : candidate) (html_partial : bool) :
  wf html ->
  select_best_candidate (score_paragraphs html MIN_LEN) = Some best ->
  In (cand_elem best) (appended html (score_paragraphs html MIN_LEN) best)
  /\ sublist (appended html (score_paragraphs html MIN_LEN) best)
             (siblings html (cand_elem best))
  /\ In (cand_elem best)
        (descendants (get_article u html (score_paragraphs html MIN_LEN) best
                        html_partial)).
Proof.
  intros Hwf Hbest.
  assert (Hin : In (cand_elem best)
                   (appended html (score_paragraphs html MIN_LEN) best)).
  { destruct (best_in_candidates _ _ Hbest) as [k Hk].
    destruct (score_paragraphs_candidates_aux html MIN_LEN) as [_ Hc].
    destruct (Hc k best Hk) as (_ & el & _ & _ & Hnear).
    apply near_in_tree in Hnear. unfold appended.
    apply list_elem_of_In, list_elem_of_filter. split.
    - unfold append. now rewrite Nat.eqb_refl.
    - apply list_elem_of_In. now apply in_siblings. }
  split; [exact Hin|]. split; [apply sublist_filter|].
  unfold get_article. destruct html_partial; cbn [descendants flat_map];
    rewrite ?app_nil_r.
  - apply in_flat_map. exists (cand_elem best). split; [exact Hin|now left].
  - right. right. apply in_flat_map.
    exists (cand_elem best). split; [exact Hin|now left].
Qed.

Lemma wf_doc_two : wf doc_two.
Proof. apply (bool_decide_eq_true_1 _). vm_compute. reflexivity. Qed.

Lemma get_article_keeps_best_witness :
  exists best,
    select_best_candidate (score_paragraphs doc_two 25) = Some best
    /\ In (cand_elem best)
          (descendants (get_article 100 doc_two (score_paragraphs doc_two 25) best
                          false)).
Proof.
  destruct (select_best_candidate (score_paragraphs doc_two 25)) as [best|] eqn:E;
    [|vm_compute in E; discriminate E].
  exists best. split; [reflexivity|].
  exact (proj2 (proj2 (get_article_keeps_best 100 25 doc_two best false
                         wf_doc_two E))).
Defined.

(** On [doc_two] the best candidate is the [<div>]; it has no sibling, so
    the article is [<html><body><div><div>...</div></div></body></html>]. *)
Example get_article_doc_two :
  (fun best => map uid (iter (get_article 100 doc_two (score_paragraphs doc_two 25)
                                best false)))
  <$> select_best_candidate (score_paragraphs doc_two 25)
  = Some [102; 101; 100; 1; 2; 3].
Proof. vm_compute. reflexivity. Qed.

(** ** The removal of unlikely candidates *)

Lemma unlikely_label a b : label a = label b -> unlikely a = unlikely b.
Proof.
  intros E. unfold unlikely, get_or_empty, get.
  rewrite (has_tag_label "html" a b E), (has_tag_label "body" a b E).
  injection E as _ _ ->. reflexivity.
Qed.

(** X20. When [remove_unlikely_candidates] comes back, no element of the
    tree is one it would mark, and all it has done is take elements away:
    those that stay keep their order, tags and attributes, and the root
    stays.  It fails when the root itself is marked. *)
Theorem remove_unlikely_none_left (html html' : elem) :
  wf html ->
  remove_unlikely_candidates html = Ok html' ->
  (forall d, In d (iter html') -> unlikely d = false)
  /\ sublist (labels html') (labels html)
  /\ label html' = label html.
Proof.
  intros Hwf. apply wf_uids in Hwf. unfold remove_unlikely_candidates.
  destruct (unlikely html) eqn:Er; [discriminate|]. intros [= <-].
  set (l := filter _ _).
  destruct (labels_drop_all l html) as [Hs Hl].
  split; [|split; assumption].
  intros d [<-|Hd].
  - now rewrite (unlikely_label _ _ Hl).
  - apply (drop_all_marked_gone unlikely l html d unlikely_label Hwf); [|exact Hd].
    intros d0 Hd0 Hu. subst l. apply list_elem_of_In, list_elem_of_filter.
    split; [exact Hu|now apply list_elem_of_In].
Qed.

Lemma wf_page_unlikely : wf page_unlikely.
Proof. apply (bool_decide_eq_true_1 _). vm_compute. reflexivity. Qed.

Lemma remove_unlikely_none_left_witness :
  exists html',
    remove_unlikely_candidates page_unlikely = Ok html'
    /\ (forall d, In d (iter html') -> unlikely d = false)
    /\ sublist (labels html') (labels page_unlikely)
    /\ label html' = label page_unlikely.
Proof.
  destruct (remove_unlikely_candidates page_unlikely) as [html'|e] eqn:E;
    [|vm_compute in E; discriminate E].
  exists html'. split; [reflexivity|].
  exact (remove_unlikely_none_left page_unlikely html' wf_page_unlikely E).
Defined.

(** On [page_unlikely] the [<div class="sidebar">] goes and the one with
    "sidebar main" stays; the [<body class="sidebar">] stays; of the two
    hidden paragraphs the one without class and id stays, for the style is
    looked at only when class and id give two characters or more. *)
Example remove_unlikely_page :
  (fun h => map uid (iter h))
  <$> (match remove_unlikely_candidates page_unlikely with
       | Ok h => Some h
       | Raise _ => None
       end)
  = Some [0; 1; 3; 4; 6].
Proof. vm_compute. reflexivity. Qed.

(** A root with a hidden style and a class stops the call. *)
Example remove_unlikely_root :
  remove_unlikely_candidates
    (Elem 0 (lit "html") [(lit "class", lit "no-js"); (lit "style", lit "display:none")]
          [] [] [])
  = Raise (OtherError (lit "AssertionError")).
Proof. vm_compute. reflexivity. Qed.
